(** * ISLF attendance scanner: the QR payload parser, the duplicate policy,
      the session state and the CSV export of [js/scanner.js]

    The development is a shallow embedding of the class
    [QRAttendanceScanner].  JavaScript strings are sequences of UTF-16 code
    units; regular expressions without the [u] flag, [String.prototype.trim]
    and [JSON.parse] all work on code units, so a string is modelled as a
    list of code units ([N]).  The set [scannedQRCodes] is a [gset]; the
    [localStorage] item [qr_attendance_records] is a list of records.

    Exceptions are explicit: a computation completes normally or by a
    throw, and [try]/[catch] is a match on the completion.  What the
    browser supplies is passed in: the clock, the generated record id, the
    answer to a [confirm] dialog, the locale renderings of a date, whether
    a write to [localStorage] throws, and the answers to the requests sent
    to the remote table.  An [async] method is cut at its [await]s: the
    part before a request, and the part that runs when it is answered. *)

From Stdlib Require Import ZArith NArith List Bool Lia Ascii String.
From Stdlib Require Import DecimalString Sorting.Sorted Sorting.Permutation.
From stdpp Require Import gmap.

Import ListNotations.
Local Open Scope N_scope.

(** ** Strings as UTF-16 code units *)

Definition jsstring : Type := list N.

(** [str] embeds an ASCII literal. *)
Definition str (s : string) : jsstring := List.map N_of_ascii (list_ascii_of_string s).

(** [strq] embeds an ASCII literal in which an apostrophe stands for the
    double quote and a vertical bar for a line feed. *)
Definition strq (s : string) : jsstring :=
  List.map (fun c => if c =? 39 then 34 else if c =? 124 then 10 else c) (str s).

Definition COMMA : N := 44.
Definition LF : N := 10.
Definition DQUOTE : N := 34.

(** ECMAScript [LineTerminator]: LF, CR, U+2028, U+2029.  The regular
    expression atom [.] (no [s] flag) matches every code unit but these. *)
Definition is_line_terminator (c : N) : bool :=
  (c =? 10) || (c =? 13) || (c =? 8232) || (c =? 8233).

(** ECMAScript [WhiteSpace] and [LineTerminator]: the class [\s], and the
    code units stripped by [trim]. *)
Definition is_space (c : N) : bool :=
  (c =? 9) || (c =? 11) || (c =? 12) || (c =? 32) || (c =? 160)
  || (c =? 5760) || ((8192 <=? c) && (c <=? 8202))
  || (c =? 8239) || (c =? 8287) || (c =? 12288) || (c =? 65279)
  || is_line_terminator c.

Fixpoint trimStart (s : jsstring) : jsstring :=
  match s with
  | [] => []
  | c :: s' => if is_space c then trimStart s' else s
  end.

Definition trimEnd (s : jsstring) : jsstring := rev (trimStart (rev s)).

(** [String.prototype.trim] *)
Definition trim (s : jsstring) : jsstring := trimEnd (trimStart s).

(** ** The regular expressions of [parseQRContent]

    The three patterns are built from anchors, literal characters, a
    greedy starred class and a capture group holding a greedy class
    repeated at least once.  The matcher is the backtracking matcher of
    the ECMAScript specification, written with continuations. *)

Inductive cclass : Type :=
| NotComma   (* [^,] *)
| Space      (* \s   *)
| Dot.       (* .    *)

Definition cmatch (k : cclass) (c : N) : bool :=
  match k with
  | NotComma => negb (c =? COMMA)
  | Space => is_space c
  | Dot => negb (is_line_terminator c)
  end.

Inductive item : Type :=
| Bol                  (* ^ *)
| Eol                  (* $ *)
| Lit (c : N)          (* a pattern character *)
| Star (k : cclass)    (* k* *)
| Group (k : cclass).  (* (k+) *)

Definition regex : Type := list item.

(** [Canonicalize] for the [i] flag on ASCII pattern characters: a code
    unit of 128 or more never canonicalises to an ASCII one, so only the
    two ASCII cases of a letter match it. *)
Definition canonicalize (c : N) : N :=
  if (97 <=? c) && (c <=? 122) then c - 32 else c.

Definition lit_match (ignoreCase : bool) (p c : N) : bool :=
  if ignoreCase then canonicalize p =? canonicalize c else p =? c.

(** Greedy repetition of a class: the longest run first, then shorter
    ones; [acc] is what the repetition has consumed so far. *)
Fixpoint greedy {A : Type} (p : N -> bool) (k : jsstring -> jsstring -> option A)
    (acc s : jsstring) : option A :=
  match s with
  | c :: s' =>
      if p c then
        match greedy p k (acc ++ [c]) s' with
        | Some r => Some r
        | None => k acc s
        end
      else k acc s
  | [] => k acc s
  end.

Definition is_nil {A : Type} (l : list A) : bool :=
  match l with [] => true | _ => false end.

(** [m ic r bos s]: match [r] against [s]; [bos] tells whether [s] starts at
    index 0 of the input.  The result lists the captures. *)
Fixpoint m (ic : bool) (r : regex) (bos : bool) (s : jsstring) : option (list jsstring) :=
  match r with
  | [] => Some []
  | Bol :: r' => if bos then m ic r' bos s else None
  | Eol :: r' => if is_nil s then m ic r' bos s else None
  | Lit p :: r' =>
      match s with
      | c :: s' => if lit_match ic p c then m ic r' false s' else None
      | [] => None
      end
  | Star k :: r' =>
      greedy (cmatch k) (fun cap rest => m ic r' (bos && is_nil cap) rest) [] s
  | Group k :: r' =>
      greedy (cmatch k)
        (fun cap rest =>
           if is_nil cap then None
           else match m ic r' false rest with
                | Some caps => Some (cap :: caps)
                | None => None
                end) [] s
  end.

(** [RegExpBuiltinExec] without the [g] and [y] flags: the match is tried
    at index 0, then 1, and so on. *)
Fixpoint exec_from (ic : bool) (r : regex) (bos : bool) (s : jsstring) : option (list jsstring) :=
  match m ic r bos s with
  | Some caps => Some caps
  | None =>
      match s with
      | [] => None
      | _ :: s' => exec_from ic r false s'
      end
  end.

Definition exec (ic : bool) (r : regex) (s : jsstring) : option (list jsstring) :=
  exec_from ic r true s.

Definition lits (s : string) : regex := List.map Lit (str s).

(** /^([^,]+),\s*([^,]+),\s*(.+)$/ *)
Definition threePartRe : regex :=
  [Bol; Group NotComma; Lit COMMA; Star Space; Group NotComma; Lit COMMA;
   Star Space; Group Dot; Eol].

(** /Name:\s*([^,]+),\s*Country:\s*(.+)/i *)
Definition labeledRe : regex :=
  lits "Name:" ++ [Star Space; Group NotComma; Lit COMMA; Star Space]
  ++ lits "Country:" ++ [Star Space; Group Dot].

(** /^([^,]+),\s*(.+)$/ *)
Definition simpleRe : regex :=
  [Bol; Group NotComma; Lit COMMA; Star Space; Group Dot; Eol].

Definition threePartMatch (qrData : jsstring) : option (list jsstring) :=
  exec false threePartRe qrData.
Definition labeledMatch (qrData : jsstring) : option (list jsstring) :=
  exec true labeledRe qrData.
Definition simpleMatch (qrData : jsstring) : option (list jsstring) :=
  exec false simpleRe qrData.

(** ** Completions: normal results and thrown exceptions *)

Inductive exn : Type := SyntaxError | TypeError | RangeError.

Inductive completion (A : Type) : Type :=
| Normal (a : A)
| Throw (e : exn).
Arguments Normal {A} a.
Arguments Throw {A} e.

Definition bind {A B : Type} (c : completion A) (f : A -> completion B) : completion B :=
  match c with
  | Normal a => f a
  | Throw e => Throw e
  end.

Notation "'let!' x ':=' c 'in' k" := (bind c (fun x => k))
  (at level 10, x name, c at level 100, k at level 200).

(** ** [JSON.parse]

    Values keep what [parseQRContent] can observe: a number is kept as its
    decimal mantissa and exponent, which decide whether it is zero. *)

#[local] Unset Elimination Schemes.
Inductive JsValue : Type :=
| JNull
| JBool (b : bool)
| JNumber (mant : N) (exp10 : Z)
| JString (s : jsstring)
| JArray (elems : list JsValue)
| JObject (members : list (jsstring * JsValue)).
#[local] Set Elimination Schemes.

Inductive presult (A : Type) : Type :=
| POk (a : A) (rest : jsstring)
| PErr
| PFuel.
Arguments POk {A} a rest.
Arguments PErr {A}.
Arguments PFuel {A}.

Definition json_ws (c : N) : bool :=
  (c =? 32) || (c =? 9) || (c =? 10) || (c =? 13).

Fixpoint skip_ws (s : jsstring) : jsstring :=
  match s with
  | [] => []
  | c :: s' => if json_ws c then skip_ws s' else s
  end.

Definition is_digit (c : N) : bool := (48 <=? c) && (c <=? 57).

Definition hex_val (c : N) : option N :=
  if is_digit c then Some (c - 48)
  else if (97 <=? c) && (c <=? 102) then Some (c - 87)
  else if (65 <=? c) && (c <=? 70) then Some (c - 55)
  else None.

Definition hex4 (a b c d : N) : option N :=
  match hex_val a, hex_val b, hex_val c, hex_val d with
  | Some x, Some y, Some z, Some w => Some (((x * 16 + y) * 16 + z) * 16 + w)
  | _, _, _, _ => None
  end.

Definition simple_escape (e : N) : option N :=
  if e =? 34 then Some 34          (* escaped quote *)
  else if e =? 92 then Some 92     (* escaped backslash *)
  else if e =? 47 then Some 47     (* escaped solidus *)
  else if e =? 98 then Some 8      (* b: backspace *)
  else if e =? 102 then Some 12    (* f: form feed *)
  else if e =? 110 then Some 10    (* n: line feed *)
  else if e =? 114 then Some 13    (* r: carriage return *)
  else if e =? 116 then Some 9     (* t: tab *)
  else None.

(** The characters of a string literal after its opening quote, up to and
    including the closing quote. *)
Fixpoint string_chars (s acc : jsstring) : option (jsstring * jsstring) :=
  match s with
  | [] => None
  | c :: s' =>
      if c =? 34 then Some (acc, s')
      else if c =? 92 then
        match s' with
        | [] => None
        | e :: s'' =>
            if e =? 117 then
              match s'' with
              | h1 :: h2 :: h3 :: h4 :: s3 =>
                  match hex4 h1 h2 h3 h4 with
                  | Some u => string_chars s3 (acc ++ [u])
                  | None => None
                  end
              | _ => None
              end
            else
              match simple_escape e with
              | Some u => string_chars s'' (acc ++ [u])
              | None => None
              end
        end
      else if c <? 32 then None
      else string_chars s' (acc ++ [c])
  end.

Fixpoint take_digits (s : jsstring) : jsstring * jsstring :=
  match s with
  | c :: s' =>
      if is_digit c then let '(d, r) := take_digits s' in (c :: d, r) else ([], s)
  | [] => ([], [])
  end.

Definition digits_value (d : jsstring) : N :=
  fold_left (fun a c => a * 10 + (c - 48)) d 0.

(** The integer part: [0] alone, or a non-empty run not starting with [0]. *)
Definition int_part (s : jsstring) : option (jsstring * jsstring) :=
  match s with
  | c :: s' =>
      if c =? 48 then Some ([c], s')
      else if is_digit c then Some (take_digits s)
      else None
  | [] => None
  end.

Definition frac_part (s : jsstring) : option (jsstring * jsstring) :=
  match s with
  | c :: s' =>
      if c =? 46 then
        match take_digits s' with
        | ([], _) => None
        | (d, r) => Some (d, r)
        end
      else Some ([], s)
  | [] => Some ([], s)
  end.

Definition exp_digits (neg : bool) (s : jsstring) : option (Z * jsstring) :=
  match take_digits s with
  | ([], _) => None
  | (d, r) =>
      let v := Z.of_N (digits_value d) in
      Some (if neg then (- v)%Z else v, r)
  end.

Definition exp_part (s : jsstring) : option (Z * jsstring) :=
  match s with
  | c :: s' =>
      if (c =? 101) || (c =? 69) then
        match s' with
        | g :: s'' =>
            if g =? 43 then exp_digits false s''
            else if g =? 45 then exp_digits true s''
            else exp_digits false s'
        | [] => None
        end
      else Some (0%Z, s)
  | [] => Some (0%Z, s)
  end.

(** A number token (after an optional minus sign): mantissa digits and
    decimal exponent, value [mant * 10 ^ exp10]. *)
Definition number_body (s : jsstring) : presult JsValue :=
  match int_part s with
  | None => PErr
  | Some (i, r1) =>
      match frac_part r1 with
      | None => PErr
      | Some (f, r2) =>
          match exp_part r2 with
          | None => PErr
          | Some (e, r3) =>
              POk (JNumber (digits_value (i ++ f)) (e - Z.of_nat (length f))%Z) r3
          end
      end
  end.

Fixpoint strip_prefix (p s : jsstring) : option jsstring :=
  match p with
  | [] => Some s
  | a :: p' =>
      match s with
      | c :: s' => if a =? c then strip_prefix p' s' else None
      | [] => None
      end
  end.

Definition literal (word : string) (v : JsValue) (s : jsstring) : presult JsValue :=
  match strip_prefix (str word) s with
  | Some r => POk v r
  | None => PErr
  end.

(** Scalars: string, number, [true], [false], [null]. *)
Definition parse_scalar (s : jsstring) : presult JsValue :=
  match s with
  | [] => PErr
  | c :: s' =>
      if c =? 34 then
        match string_chars s' [] with
        | Some (v, r) => POk (JString v) r
        | None => PErr
        end
      else if c =? 116 then literal "true" (JBool true) s
      else if c =? 102 then literal "false" (JBool false) s
      else if c =? 110 then literal "null" JNull s
      else if c =? 45 then number_body s'
      else number_body s
  end.

Definition parse_key (s : jsstring) : option (jsstring * jsstring) :=
  match s with
  | c :: s' => if c =? 34 then string_chars s' [] else None
  | [] => None
  end.

Fixpoint parse_value (fuel : nat) (s : jsstring) : presult JsValue :=
  match fuel with
  | O => PFuel
  | S f =>
      match s with
      | [] => PErr
      | c :: s' =>
          if c =? 123 then
            match skip_ws s' with
            | d :: r =>
                if d =? 125 then POk (JObject []) r
                else match parse_members f (d :: r) [] with
                     | POk ms r' => POk (JObject ms) r'
                     | PErr => PErr
                     | PFuel => PFuel
                     end
            | [] => PErr
            end
          else if c =? 91 then
            match skip_ws s' with
            | d :: r =>
                if d =? 93 then POk (JArray []) r
                else match parse_elements f (d :: r) [] with
                     | POk vs r' => POk (JArray vs) r'
                     | PErr => PErr
                     | PFuel => PFuel
                     end
            | [] => PErr
            end
          else parse_scalar s
      end
  end
with parse_elements (fuel : nat) (s : jsstring) (acc : list JsValue)
    : presult (list JsValue) :=
  match fuel with
  | O => PFuel
  | S f =>
      match parse_value f s with
      | POk v r =>
          match skip_ws r with
          | c :: r' =>
              if c =? 44 then parse_elements f (skip_ws r') (acc ++ [v])
              else if c =? 93 then POk (acc ++ [v]) r'
              else PErr
          | [] => PErr
          end
      | PErr => PErr
      | PFuel => PFuel
      end
  end
with parse_members (fuel : nat) (s : jsstring) (acc : list (jsstring * JsValue))
    : presult (list (jsstring * JsValue)) :=
  match fuel with
  | O => PFuel
  | S f =>
      match parse_key s with
      | Some (k, r0) =>
          match skip_ws r0 with
          | c0 :: r1 =>
              if c0 =? 58 then
                match parse_value f (skip_ws r1) with
                | POk v r =>
                    match skip_ws r with
                    | c :: r' =>
                        if c =? 44 then parse_members f (skip_ws r') (acc ++ [(k, v)])
                        else if c =? 125 then POk (acc ++ [(k, v)]) r'
                        else PErr
                    | [] => PErr
                    end
                | PErr => PErr
                | PFuel => PFuel
                end
              else PErr
          | [] => PErr
          end
      | None => PErr
      end
  end.

Definition json_fuel (s : jsstring) : nat := 2 * length s + 2.

(** [JSON.parse text]: white space, one value, white space, end of text;
    anything else is a [SyntaxError]. *)
Definition JSON_parse (text : jsstring) : completion JsValue :=
  match parse_value (json_fuel text) (skip_ws text) with
  | POk v r => if is_nil (skip_ws r) then Normal v else Throw SyntaxError
  | PErr => Throw SyntaxError
  | PFuel => Throw RangeError
  end.

(** ** Values read by [parseQRContent] *)

(** An object with a repeated key keeps the last value. *)
Definition lookup_last (key : jsstring) (ms : list (jsstring * JsValue)) : option JsValue :=
  fold_left (fun acc kv => if bool_decide (fst kv = key) then Some (snd kv) else acc) ms None.

(** The property read [v.key], for the keys [name], [country], [lastName]
    and [firstName]: reading from [null] throws; arrays, strings, numbers
    and booleans have no such property ([None] is [undefined]). *)
Definition get (v : JsValue) (key : jsstring) : completion (option JsValue) :=
  match v with
  | JNull => Throw TypeError
  | JObject ms => Normal (lookup_last key ms)
  | _ => Normal None
  end.

(** A number token denotes zero when its digits are all zero or when
    [mant * 10 ^ exp10] rounds to zero, that is when it is at most
    [2 ^ -1075]. *)
Definition number_is_zero (mant : N) (exp10 : Z) : bool :=
  (mant =? 0)
  || ((exp10 <? 0)%Z && (Z.of_N mant * 2 ^ 1075 <=? 10 ^ (- exp10))%Z).

(** [ToBoolean] *)
Definition truthy (v : option JsValue) : bool :=
  match v with
  | None => false
  | Some JNull => false
  | Some (JBool b) => b
  | Some (JNumber mant e) => negb (number_is_zero mant e)
  | Some (JString s) => negb (is_nil s)
  | Some (JArray _) => true
  | Some (JObject _) => true
  end.

(** The call [v.trim()]: only a string has the method. *)
Definition call_trim (v : option JsValue) : completion jsstring :=
  match v with
  | Some (JString s) => Normal (trim s)
  | _ => Throw TypeError
  end.

(** [a && b] on completions of conditions *)
Definition and_then (a : completion bool) (b : completion bool) : completion bool :=
  let! x := a in if x then b else Normal false.

Definition truthy_get (v : JsValue) (key : string) : completion bool :=
  let! x := get v (str key) in Normal (truthy x).

Definition trim_get (v : JsValue) (key : string) : completion jsstring :=
  let! x := get v (str key) in call_trim x.

(** ** [parseQRContent] *)

Record Identity : Type := { name : jsstring; country : jsstring }.

Definition comma_space : jsstring := str ", ".

(** Strategy 4, the body of the [try] block: [Some i] when a [return] was
    executed, [None] when control fell off the end of the block. *)
Definition tryJSON (qrData : jsstring) : completion (option Identity) :=
  let! jsonData := JSON_parse qrData in
  let! c1 := and_then (truthy_get jsonData "name") (truthy_get jsonData "country") in
  if c1 then
    let! n := trim_get jsonData "name" in
    let! c := trim_get jsonData "country" in
    Normal (Some {| name := n; country := c |})
  else
    let! c2 := and_then (and_then (truthy_get jsonData "lastName")
                                  (truthy_get jsonData "firstName"))
                        (truthy_get jsonData "country") in
    if c2 then
      let! l := trim_get jsonData "lastName" in
      let! f := trim_get jsonData "firstName" in
      let! c := trim_get jsonData "country" in
      Normal (Some {| name := l ++ comma_space ++ f; country := c |})
    else Normal None.

(** [String.prototype.split] with a one-character separator *)
Fixpoint split (sep : N) (s : jsstring) : list jsstring :=
  match s with
  | [] => [[]]
  | c :: s' =>
      if c =? sep then [] :: split sep s'
      else match split sep s' with
           | l :: ls => (c :: l) :: ls
           | [] => [[c]]
           end
  end.

(** [qrData.split('\n').filter(line => line.trim())] *)
Definition nonblank_lines (qrData : jsstring) : list jsstring :=
  List.filter (fun line => negb (is_nil (trim line))) (split LF qrData).

(** Strategy 5 *)
Definition byLines (qrData : jsstring) : Identity :=
  match nonblank_lines qrData with
  | l0 :: l1 :: l2 :: _ =>
      {| name := trim l0 ++ comma_space ++ trim l1; country := trim l2 |}
  | l0 :: l1 :: _ => {| name := trim l0; country := trim l1 |}
  | _ => {| name := []; country := [] |}
  end.

(** Strategies 1 to 3: the first regular expression that matches decides. *)
Definition byRegex (qrData : jsstring) : option Identity :=
  match threePartMatch qrData with
  | Some (lastName :: firstName :: c :: _) =>
      Some {| name := trim lastName ++ comma_space ++ trim firstName;
              country := trim c |}
  | _ =>
      match labeledMatch qrData with
      | Some (n :: c :: _) => Some {| name := trim n; country := trim c |}
      | _ =>
          match simpleMatch qrData with
          | Some (n :: c :: _) => Some {| name := trim n; country := trim c |}
          | _ => None
          end
      end
  end.

Definition parseQRContent (qrData : jsstring) : completion Identity :=
  match byRegex qrData with
  | Some i => Normal i
  | None =>
      match tryJSON qrData with
      | Normal (Some i) => Normal i
      | Normal None => Normal (byLines qrData)
      | Throw _ => Normal (byLines qrData)   (* catch (e) { } *)
      end
  end.

(** ** The session state

    [Scanner] holds the fields of [QRAttendanceScanner] that the duplicate
    policy and the persistence read and write, together with two parts of
    the page around it: [storage], the array kept under the [localStorage]
    key [qr_attendance_records] (the key is written by this class only, so
    the item read back is the array last written), and [pending], the
    [fetch] requests in flight.

    The methods that persist are [async].  A call runs up to its first
    [await] of a request; the request is then in flight, and the rest of
    the method runs when the request is answered, on the state as it is at
    that moment.  With [useLocalStorage] set no request is made and a call
    runs to its end.  The remote table is not part of the sources: the
    answer to a request is an input. *)

Record AttendanceRecord : Type := {
  rec_id : jsstring;
  rec_name : jsstring;
  rec_country : jsstring;
  scan_timestamp : Z;      (* the instant rendered by [toISOString] *)
  raw_qr_data : jsstring;
  created_at : Z;
  updated_at : Z
}.

(** A request in flight, named after the method that awaits its answer. *)
Inductive task : Type :=
| SaveAttendance_posted (attendanceData : AttendanceRecord)
    (* POST tables/attendance *)
| LoadAttendanceRecords_fetched
    (* GET tables/attendance?sort=scan_timestamp&limit=100 *)
| DeleteRecord_sent (recordId : jsstring)
    (* DELETE tables/attendance/recordId *)
| ClearAllAttendance_fetched
    (* GET tables/attendance?limit=1000 *)
| ClearAllAttendance_deleting (recordId : jsstring) (rest : list AttendanceRecord)
    (* DELETE tables/attendance/recordId, inside the loop *)
| ExportToCSV_fetched (thenClear : bool)
    (* GET tables/attendance?limit=1000&sort=scan_timestamp; [thenClear]
       when [stopScanner] awaits the export *)
| TestAPI_fetched.
    (* GET tables/attendance *)

(** The answer to a request.  [Fulfilled records]: the response is [ok] and
    its body is read; for a GET, [records] is [data.data || []], a list of
    records with the fields of the table.  [Rejected]: every way into the
    [catch] block, that is a network error, a status that is not [ok], or a
    body that cannot be read. *)
Inductive answer : Type :=
| Rejected
| Fulfilled (records : list AttendanceRecord).

Record Scanner : Type := {
  scanning : bool;
  lastScannedCode : option jsstring;
  lastScanTime : Z;
  scanCooldown : Z;
  useLocalStorage : bool;
  scannedQRCodes : gset jsstring;
  storage : list AttendanceRecord;
  pending : list task
}.

(** What the user is shown or handed.  The status line, the overlay
    animation, the sound and the console log are left out. *)
Inductive ui_event : Type :=
| DisplayError (title message : jsstring)
| ShowScanSuccess
| DisplayScanResult (parsedData : Identity) (rawData : jsstring)
| DisplayAttendanceRecords (records : list AttendanceRecord)
| ResumeScanningAfter (ms : Z)
| Download (csvContent : jsstring)
| Alert (message : jsstring).

(** What the browser supplies to one call of [saveAttendance]: the result
    of [generateId], the instant of [new Date()], the two readings of
    [Date.now()], and whether [localStorage.setItem] throws (with the
    message of the error) when the quota is exceeded or the storage is
    disabled. *)
Record Env : Type := {
  generateId : jsstring;
  new_Date : Z;
  Date_now_created : Z;
  Date_now_updated : Z;
  setItem_throws : option jsstring
}.

(** [populateScannedQRCodes]: the set is cleared and rebuilt from the
    records whose [raw_qr_data] is not empty. *)
Definition populateScannedQRCodes (records : list AttendanceRecord) : gset jsstring :=
  fold_left
    (fun s record =>
       if is_nil (raw_qr_data record) then s else {[raw_qr_data record]} ∪ s)
    records ∅.

Definition set_codes (codes : gset jsstring) (st : Scanner) : Scanner :=
  {| scanning := scanning st; lastScannedCode := lastScannedCode st;
     lastScanTime := lastScanTime st; scanCooldown := scanCooldown st;
     useLocalStorage := useLocalStorage st;
     scannedQRCodes := codes; storage := storage st; pending := pending st |}.

Definition set_storage (records : list AttendanceRecord) (st : Scanner) : Scanner :=
  {| scanning := scanning st; lastScannedCode := lastScannedCode st;
     lastScanTime := lastScanTime st; scanCooldown := scanCooldown st;
     useLocalStorage := useLocalStorage st;
     scannedQRCodes := scannedQRCodes st; storage := records; pending := pending st |}.

Definition set_useLocalStorage (b : bool) (st : Scanner) : Scanner :=
  {| scanning := scanning st; lastScannedCode := lastScannedCode st;
     lastScanTime := lastScanTime st; scanCooldown := scanCooldown st;
     useLocalStorage := b;
     scannedQRCodes := scannedQRCodes st; storage := storage st; pending := pending st |}.

Definition set_pending (tasks : list task) (st : Scanner) : Scanner :=
  {| scanning := scanning st; lastScannedCode := lastScannedCode st;
     lastScanTime := lastScanTime st; scanCooldown := scanCooldown st;
     useLocalStorage := useLocalStorage st;
     scannedQRCodes := scannedQRCodes st; storage := storage st; pending := tasks |}.

(** The method reaches the [await] of a request. *)
Definition await (t : task) (st : Scanner) : Scanner * list ui_event :=
  (set_pending (pending st ++ [t]) st, []).

(** [loadAttendanceRecords], from [localStorage] *)
Definition load_local (st : Scanner) : Scanner * list ui_event :=
  let records := storage st in
  (set_codes (populateScannedQRCodes records) st, [DisplayAttendanceRecords records]).

(** [loadAttendanceRecords], up to the [await] *)
Definition loadAttendanceRecords (st : Scanner) : Scanner * list ui_event :=
  if useLocalStorage st then load_local st
  else await LoadAttendanceRecords_fetched st.

(** [loadAttendanceRecords], after the [await] *)
Definition loadAttendanceRecords_answered (a : answer) (st : Scanner)
    : Scanner * list ui_event :=
  match a with
  | Fulfilled records =>
      (set_codes (populateScannedQRCodes records) st, [DisplayAttendanceRecords records])
  | Rejected => load_local (set_useLocalStorage true st)
  end.

(** The fields as the constructor sets them, in a browser that holds no
    stored record; its last statement calls [loadAttendanceRecords]. *)
Definition constructor : Scanner :=
  fst (loadAttendanceRecords
         {| scanning := false; lastScannedCode := None; lastScanTime := 0%Z;
            scanCooldown := 2000%Z; useLocalStorage := false; scannedQRCodes := ∅;
            storage := []; pending := [] |}).

(** The object literal at the head of [saveAttendance] *)
Definition attendanceData (env : Env) (n c rawData : jsstring) : AttendanceRecord :=
  {| rec_id := generateId env; rec_name := n; rec_country := c;
     scan_timestamp := new_Date env; raw_qr_data := rawData;
     created_at := Date_now_created env; updated_at := Date_now_updated env |}.

(** [saveAttendance], the [localStorage] block: [saveToLocalStorage]
    pushes the record and writes the array back; when the write throws,
    the array stays as it was, the error is shown, and the records are not
    reloaded. *)
Definition save_local (record : AttendanceRecord) (thrown : option jsstring)
    (st : Scanner) : Scanner * list ui_event :=
  match thrown with
  | None => loadAttendanceRecords (set_storage (storage st ++ [record]) st)
  | Some message =>
      (st, [DisplayError (str "Failed to save attendance record: " ++ message) []])
  end.

(** [saveAttendance], up to the [await] *)
Definition saveAttendance (env : Env) (n c rawData : jsstring) (st : Scanner)
    : Scanner * list ui_event :=
  let record := attendanceData env n c rawData in
  if useLocalStorage st then save_local record (setItem_throws env) st
  else await (SaveAttendance_posted record) st.

(** [saveAttendance], after the [await] *)
Definition saveAttendance_answered (record : AttendanceRecord) (a : answer)
    (thrown : option jsstring) (st : Scanner) : Scanner * list ui_event :=
  match a with
  | Fulfilled _ => loadAttendanceRecords st
  | Rejected => save_local record thrown (set_useLocalStorage true st)
  end.

(** [processQRData]; the call of [saveAttendance] is not awaited. *)
Definition processQRData (env : Env) (qrData : jsstring) (st : Scanner)
    : Scanner * list ui_event :=
  match parseQRContent qrData with
  | Normal parsedData =>
      if negb (is_nil (name parsedData)) && negb (is_nil (country parsedData)) then
        let st1 := set_codes ({[qrData]} ∪ scannedQRCodes st) st in
        let '(st2, evs) :=
          saveAttendance env (name parsedData) (country parsedData) qrData st1 in
        (st2, ShowScanSuccess :: evs ++ [DisplayScanResult parsedData qrData])
      else
        (st, [DisplayError (str "Invalid QR Format")
                (strq "Expected format: 'LAST NAME, First Name, Country'")])
  | Throw _ =>
      (st, [DisplayError (str "Processing Error") (str "Unable to process QR code data")])
  end.

(** ** The duplicate policy

    [decide] is the pair of guards at the head of [handleQRDetected]. *)

Inductive decision : Type := SUPPRESS_COOLDOWN | REJECT_DUPLICATE | ACCEPT.

Definition decide (payload : jsstring) (now : Z) (lastPayload : option jsstring)
    (lastAcceptedAt : Z) (seenSet : gset jsstring) (cooldownMs : Z) : decision :=
  if bool_decide (lastPayload = Some payload) && (now - lastAcceptedAt <? cooldownMs)%Z
  then SUPPRESS_COOLDOWN
  else if bool_decide (payload ∈ seenSet) then REJECT_DUPLICATE
  else ACCEPT.

Definition decide_in (st : Scanner) (qrData : jsstring) (now : Z) : decision :=
  decide qrData now (lastScannedCode st) (lastScanTime st) (scannedQRCodes st)
    (scanCooldown st).

Definition showDuplicateError : list ui_event :=
  [DisplayError (str "QR Code Already Scanned!")
     (str "This attendance has already been recorded in this session.")].

Definition mark_scanned (qrData : jsstring) (now : Z) (st : Scanner) : Scanner :=
  {| scanning := false; lastScannedCode := Some qrData; lastScanTime := now;
     scanCooldown := scanCooldown st; useLocalStorage := useLocalStorage st;
     scannedQRCodes := scannedQRCodes st; storage := storage st;
     pending := pending st |}.

(** [handleQRDetected]; [now] is [Date.now()]. *)
Definition handleQRDetected (now : Z) (env : Env) (qrData : jsstring) (st : Scanner)
    : Scanner * list ui_event :=
  match decide_in st qrData now with
  | SUPPRESS_COOLDOWN => (st, [])
  | REJECT_DUPLICATE => (st, showDuplicateError)
  | ACCEPT =>
      let '(st', evs) := processQRData env qrData (mark_scanned qrData now st) in
      (st', evs ++ [ResumeScanningAfter 1000])
  end.

(** [deleteRecord], the [localStorage] block.  When the write throws, the
    [catch] of the method is reached: the array, the set and the display
    stay as they were. *)
Definition delete_local (recordId : jsstring) (thrown : option jsstring) (st : Scanner)
    : Scanner * list ui_event :=
  let records := storage st in
  let recordToDelete := List.find (fun r => bool_decide (rec_id r = recordId)) records in
  let records' := List.filter (fun r => negb (bool_decide (rec_id r = recordId))) records in
  match thrown with
  | None =>
      let codes :=
        match recordToDelete with
        | Some r =>
            if is_nil (raw_qr_data r) then scannedQRCodes st
            else scannedQRCodes st ∖ {[raw_qr_data r]}
        | None => scannedQRCodes st
        end in
      loadAttendanceRecords (set_storage records' (set_codes codes st))
  | Some _ => (st, [])
  end.

(** [deleteRecord], up to the [await]; [confirmed] is the answer to the
    [confirm] dialog and [thrown] tells whether [localStorage.setItem]
    throws. *)
Definition deleteRecord (confirmed : bool) (recordId : jsstring) (thrown : option jsstring)
    (st : Scanner) : Scanner * list ui_event :=
  if confirmed then
    if useLocalStorage st then delete_local recordId thrown st
    else await (DeleteRecord_sent recordId) st
  else (st, []).

(** [deleteRecord], after the [await] *)
Definition deleteRecord_answered (recordId : jsstring) (a : answer)
    (thrown : option jsstring) (st : Scanner) : Scanner * list ui_event :=
  match a with
  | Fulfilled _ => loadAttendanceRecords st
  | Rejected => delete_local recordId thrown (set_useLocalStorage true st)
  end.

(** [clearScannedQRCodes] *)
Definition clearScannedQRCodes (st : Scanner) : Scanner := set_codes ∅ st.

(** [clearAllAttendance], its last two statements: the set is cleared and
    the records are reloaded. *)
Definition clear_finish (st : Scanner) : Scanner * list ui_event :=
  loadAttendanceRecords (set_codes ∅ st).

(** [clearAllAttendance], the loop over the records of the table: one
    request per record, awaited; its outcome is not looked at. *)
Definition clear_loop (records : list AttendanceRecord) (st : Scanner)
    : Scanner * list ui_event :=
  match records with
  | [] => clear_finish st
  | record :: rest => await (ClearAllAttendance_deleting (rec_id record) rest) st
  end.

(** [clearAllAttendance], from the test of [useLocalStorage] on. *)
Definition clear_stored (records : list AttendanceRecord) (st : Scanner)
    : Scanner * list ui_event :=
  if useLocalStorage st then clear_finish (set_storage [] st)   (* removeItem *)
  else clear_loop records st.

(** [clearAllAttendance], up to the [await] *)
Definition clearAllAttendance (st : Scanner) : Scanner * list ui_event :=
  if useLocalStorage st then clear_stored [] st
  else await ClearAllAttendance_fetched st.

(** [clearAllAttendance], after the [await] of the list *)
Definition clearAllAttendance_answered (a : answer) (st : Scanner)
    : Scanner * list ui_event :=
  match a with
  | Fulfilled records => clear_stored records st
  | Rejected => clear_stored [] (set_useLocalStorage true st)
  end.

Definition P_doe : jsstring := str "DOE, John, USA".

(** ** CSV export *)

(** [Array.prototype.join] *)
Fixpoint join (sep : jsstring) (l : list jsstring) : jsstring :=
  match l with
  | [] => []
  | [x] => x
  | x :: l' => x ++ sep ++ join sep l'
  end.

(** The replacement of the name and country fields, global over the
    double quote: every double quote is written twice. *)
Definition replace_quotes (s : jsstring) : jsstring :=
  flat_map (fun c => if c =? DQUOTE then [DQUOTE; DQUOTE] else [c]) s.

Definition quoted (s : jsstring) : jsstring := DQUOTE :: s ++ [DQUOTE].

(** [Number.prototype.toString] on a row number *)
Definition number_to_string (n : nat) : jsstring :=
  str (DecimalString.NilEmpty.string_of_uint (Nat.to_uint n)).

(** The sort of [records.sort((a, b) => new Date(b.scan_timestamp) - new
    Date(a.scan_timestamp))]: [Array.prototype.sort] is stable, and the
    comparator puts [a] first when it is negative. *)
Definition compare_newest_first (a b : AttendanceRecord) : Z :=
  (scan_timestamp b - scan_timestamp a)%Z.

Fixpoint insert_sorted (a : AttendanceRecord) (l : list AttendanceRecord)
    : list AttendanceRecord :=
  match l with
  | [] => [a]
  | b :: l' =>
      if (compare_newest_first a b <=? 0)%Z then a :: b :: l'
      else b :: insert_sorted a l'
  end.

Fixpoint sort_records (l : list AttendanceRecord) : list AttendanceRecord :=
  match l with
  | [] => []
  | a :: l' => insert_sorted a (sort_records l')
  end.

Definition csv_header : jsstring :=
  join [COMMA]
    [str "No."; str "Name"; str "Country"; str "Scan Date"; str "Scan Time";
     str "Full Timestamp"].

Section CsvExport.

(** The renderings of a [Date] in the locale and time zone of the browser. *)
Variables toLocaleDateString toLocaleTimeString toLocaleString : Z -> jsstring.

(** The array [row] built for the record at position [index]. *)
Definition csv_fields (index : nat) (record : AttendanceRecord) : list jsstring :=
  [ number_to_string (index + 1);
    quoted (replace_quotes (rec_name record));
    quoted (replace_quotes (rec_country record));
    quoted (toLocaleDateString (scan_timestamp record));
    quoted (toLocaleTimeString (scan_timestamp record));
    quoted (toLocaleString (scan_timestamp record)) ].

Fixpoint csv_rows (index : nat) (records : list AttendanceRecord) : list jsstring :=
  match records with
  | [] => []
  | record :: rest => join [COMMA] (csv_fields index record) :: csv_rows (S index) rest
  end.

(** [exportToCSV], from the test for an empty list on: the text handed to
    the download, or [None] when the user is told that there is nothing to
    export. *)
Definition csvContent (records : list AttendanceRecord) : option jsstring :=
  if is_nil records then None
  else Some (join [LF] (csv_header :: csv_rows 0 (sort_records records))).

Definition export_records (records : list AttendanceRecord) : list ui_event :=
  match csvContent records with
  | Some text => [Download text]
  | None => [Alert (str "No attendance records to export.")]
  end.

(** What follows the export: nothing when the export button called it,
    [clearAllAttendance] when [stopScanner] awaits it. *)
Definition export_then (thenClear : bool) (records : list AttendanceRecord) (st : Scanner)
    : Scanner * list ui_event :=
  if thenClear then
    let '(st', evs) := clearAllAttendance st in (st', export_records records ++ evs)
  else (st, export_records records).

(** [exportToCSV], up to the [await] *)
Definition exportToCSV_called (thenClear : bool) (st : Scanner) : Scanner * list ui_event :=
  if useLocalStorage st then export_then thenClear (storage st) st
  else await (ExportToCSV_fetched thenClear) st.

(** [exportToCSV], called by the export button *)
Definition exportToCSV (st : Scanner) : Scanner * list ui_event :=
  exportToCSV_called false st.

(** [exportToCSV], after the [await]: the records of the answer are used
    unless [useLocalStorage] is set by then. *)
Definition exportToCSV_answered (thenClear : bool) (a : answer) (st : Scanner)
    : Scanner * list ui_event :=
  let st1 := match a with
             | Fulfilled _ => st
             | Rejected => set_useLocalStorage true st
             end in
  let records := if useLocalStorage st1 then storage st1
                 else match a with
                      | Fulfilled records => records
                      | Rejected => []
                      end in
  export_then thenClear records st1.

End CsvExport.

(** A reader of one quoted CSV field: the field starts and ends with a
    double quote, and inside it a double quote is written twice. *)
Fixpoint csv_unquote_body (s : jsstring) : option jsstring :=
  match s with
  | [] => None
  | c :: s' =>
      if c =? DQUOTE then
        match s' with
        | [] => Some []
        | d :: s'' =>
            if d =? DQUOTE then
              match csv_unquote_body s'' with
              | Some r => Some (DQUOTE :: r)
              | None => None
              end
            else None
        end
      else
        match csv_unquote_body s' with
        | Some r => Some (c :: r)
        | None => None
        end
  end.

Definition csv_unquote (field : jsstring) : option jsstring :=
  match field with
  | c :: s => if c =? DQUOTE then csv_unquote_body s else None
  | [] => None
  end.

(** ** The scan loop, the test button, the diagnostics, the end of a
       session and the answers to the requests *)

Definition set_scanning (b : bool) (st : Scanner) : Scanner :=
  {| scanning := b; lastScannedCode := lastScannedCode st;
     lastScanTime := lastScanTime st; scanCooldown := scanCooldown st;
     useLocalStorage := useLocalStorage st;
     scannedQRCodes := scannedQRCodes st; storage := storage st;
     pending := pending st |}.

(** [startScanning] *)
Definition startScanning (st : Scanner) : Scanner := set_scanning true st.

(** The callback that [handleQRDetected] hands to [setTimeout]. *)
Definition resumeScanning (st : Scanner) : Scanner := set_scanning true st.

(** [scanFrame]; [ready] tells whether the video has enough data and
    [code] is what the decoder found in the frame. *)
Definition scanFrame (ready : bool) (code : option jsstring) (now : Z) (env : Env)
    (st : Scanner) : Scanner * list ui_event :=
  if negb (scanning st) || negb ready then (st, [])
  else match code with
       | Some data => handleQRDetected now env data st
       | None => (st, [])
       end.

Definition testQR : jsstring := str "TESTLAST, TestFirst, Test Country".

(** [addTestRecord]: the test payload is processed as if it was scanned. *)
Definition addTestRecord (env : Env) (st : Scanner) : Scanner * list ui_event :=
  processQRData env testQR st.

(** The cooldown that [diagnoseScanner] logs as remaining. *)
Definition cooldown_remaining (st : Scanner) (now : Z) : Z :=
  Z.max 0 (scanCooldown st - (now - lastScanTime st)).

(** [testAPI], up to the [await] and after it *)
Definition testAPI (st : Scanner) : Scanner * list ui_event := await TestAPI_fetched st.

Definition testAPI_answered (a : answer) (st : Scanner) : Scanner * list ui_event :=
  match a with
  | Fulfilled _ => (set_useLocalStorage false st, [])
  | Rejected => loadAttendanceRecords (set_useLocalStorage true st)
  end.

Section StopScanner.

Variables toLocaleDateString toLocaleTimeString toLocaleString : Z -> jsstring.

(** [stopScanner]; [shouldDownload] is the answer to the [confirm] dialog,
    asked only when the blocked set is not empty. *)
Definition stopScanner (shouldDownload : bool) (st : Scanner) : Scanner * list ui_event :=
  let st0 := set_scanning false st in
  let qrCount := size (scannedQRCodes st0) in
  if (0 <? qrCount)%nat then
    if shouldDownload then
      exportToCSV_called toLocaleDateString toLocaleTimeString toLocaleString true st0
    else (st0, [])
  else (st0, []).

(** The rest of the method that awaits the request [t], run when the
    request is answered by [a]. *)
Definition resume (t : task) (a : answer) (thrown : option jsstring) (st : Scanner)
    : Scanner * list ui_event :=
  match t with
  | SaveAttendance_posted record => saveAttendance_answered record a thrown st
  | LoadAttendanceRecords_fetched => loadAttendanceRecords_answered a st
  | DeleteRecord_sent recordId => deleteRecord_answered recordId a thrown st
  | ClearAllAttendance_fetched => clearAllAttendance_answered a st
  | ClearAllAttendance_deleting _ rest => clear_loop rest st
  | ExportToCSV_fetched thenClear =>
      exportToCSV_answered toLocaleDateString toLocaleTimeString toLocaleString
        thenClear a st
  | TestAPI_fetched => testAPI_answered a st
  end.

(** The request at position [k] of those in flight is answered. *)
Definition settle (k : nat) (a : answer) (thrown : option jsstring) (st : Scanner)
    : Scanner * list ui_event :=
  match nth_error (pending st) k with
  | Some t => resume t a thrown (set_pending (firstn k (pending st) ++ skipn (S k) (pending st)) st)
  | None => (st, [])
  end.

End StopScanner.

(** A reader of one CSV row: fields are separated by commas; a field that
    starts with a double quote runs to its closing quote, a doubled quote
    inside it standing for one quote. *)
Inductive csv_state : Type := FieldStart | Bare | Quoted | QuoteSeen.

Definition push_field (cur : jsstring) (r : option (list jsstring)) : option (list jsstring) :=
  match r with
  | Some fields => Some (cur :: fields)
  | None => None
  end.

Fixpoint csv_read_row (q : csv_state) (cur s : jsstring) : option (list jsstring) :=
  match s with
  | [] =>
      match q with
      | Quoted => None
      | _ => Some [cur]
      end
  | c :: s' =>
      match q with
      | FieldStart =>
          if c =? DQUOTE then csv_read_row Quoted [] s'
          else if c =? COMMA then push_field [] (csv_read_row FieldStart [] s')
          else csv_read_row Bare [c] s'
      | Bare =>
          if c =? COMMA then push_field cur (csv_read_row FieldStart [] s')
          else if c =? DQUOTE then None
          else csv_read_row Bare (cur ++ [c]) s'
      | Quoted =>
          if c =? DQUOTE then csv_read_row QuoteSeen cur s'
          else csv_read_row Quoted (cur ++ [c]) s'
      | QuoteSeen =>
          if c =? DQUOTE then csv_read_row Quoted (cur ++ [DQUOTE]) s'
          else if c =? COMMA then push_field cur (csv_read_row FieldStart [] s')
          else None
      end
  end.

(** * Predicates and inputs of the statements *)

(** The parse of an accepted payload succeeds when both fields are not
    empty: the guard of [processQRData]. *)
Definition parse_ok (qrData : jsstring) : bool :=
  match parseQRContent qrData with
  | Normal i => negb (is_nil (name i)) && negb (is_nil (country i))
  | Throw _ => false
  end.

(** The record that [saveAttendance] builds for a parsed payload. *)
Definition new_record (env : Env) (qrData : jsstring) (i : Identity) : AttendanceRecord :=
  attendanceData env (name i) (country i) qrData.

(** Some live record carries the payload. *)
Definition live_payload (st : Scanner) (p : jsstring) : Prop :=
  exists r, In r (storage st) /\ raw_qr_data r = p.

(** The invariant of the data model, as the specification words it. *)
Definition SeenSet_invariant (st : Scanner) : Prop :=
  forall p, p ∈ scannedQRCodes st <-> live_payload st p.

(** The invariant the code keeps: rebuilding skips an empty [raw_qr_data]. *)
Definition SeenSet_rebuilt (st : Scanner) : Prop :=
  forall p, p ∈ scannedQRCodes st <-> p <> [] /\ live_payload st p.

(** Every non-empty payload of a live record is blocked. *)
Definition SeenSet_covers (st : Scanner) : Prop :=
  forall r, In r (storage st) -> raw_qr_data r <> [] -> raw_qr_data r ∈ scannedQRCodes st.

(** The cooldown guard of [handleQRDetected] *)
Definition cooling (st : Scanner) (qrData : jsstring) (now : Z) : bool :=
  bool_decide (lastScannedCode st = Some qrData)
  && (now - lastScanTime st <? scanCooldown st)%Z.

Definition P_hello : jsstring := str "hello".

(** Inputs of the browser: two calls that are written through, and one
    whose write to [localStorage] throws. *)
Definition env1 : Env :=
  {| generateId := str "r1"; new_Date := 10000%Z; Date_now_created := 10001%Z;
     Date_now_updated := 10002%Z; setItem_throws := None |}.

Definition env2 : Env :=
  {| generateId := str "r2"; new_Date := 20000%Z; Date_now_created := 20001%Z;
     Date_now_updated := 20002%Z; setItem_throws := None |}.

Definition env_full : Env :=
  {| generateId := str "r3"; new_Date := 30000%Z; Date_now_created := 30001%Z;
     Date_now_updated := 30002%Z; setItem_throws := Some (str "QuotaExceededError") |}.

Definition record_doe : AttendanceRecord :=
  new_record env1 P_doe {| name := str "DOE, John"; country := str "USA" |}.

(** The state after one accepted scan, offline. *)
Definition st_one : Scanner :=
  {| scanning := false; lastScannedCode := Some P_doe; lastScanTime := 10000%Z;
     scanCooldown := 2000%Z; useLocalStorage := true; scannedQRCodes := {[P_doe]};
     storage := [record_doe]; pending := [] |}.

(** The scenario: the payload is accepted, the blocked set is cleared, the
    payload is accepted a second time, and the second record is deleted. *)
Definition st_twice : Scanner :=
  fst (handleQRDetected 20000 env2 P_doe (clearScannedQRCodes st_one)).

Definition st_twice_deleted : Scanner := fst (deleteRecord true (str "r2") None st_twice).

Definition newer_or_same (a b : AttendanceRecord) : Prop :=
  (scan_timestamp b <= scan_timestamp a)%Z.

Definition locale_date (_ : Z) : jsstring := str "1/1/1970".
Definition locale_time (_ : Z) : jsstring := str "12:00:10 AM".
Definition locale_full (_ : Z) : jsstring := str "1/1/1970, 12:00:10 AM".

(** A new scanner whose first request, the load that the constructor
    starts, was rejected: the scanner works on [localStorage]. *)
Definition offline_start : Scanner :=
  fst (settle locale_date locale_time locale_full 0 Rejected None constructor).

(** What a match of [r] at the head of [s] is: each class repetition takes
    some run of its class, each group a non-empty run that it captures. *)
Fixpoint den (ic : bool) (r : regex) (bos : bool) (s : jsstring) (caps : list jsstring)
    : Prop :=
  match r with
  | [] => caps = []
  | Bol :: r' => bos = true /\ den ic r' bos s caps
  | Eol :: r' => s = [] /\ den ic r' bos s caps
  | Lit p :: r' =>
      exists c s', s = c :: s' /\ lit_match ic p c = true /\ den ic r' false s' caps
  | Star k :: r' =>
      exists u v, s = u ++ v /\ forallb (cmatch k) u = true
                  /\ den ic r' (bos && is_nil u) v caps
  | Group k :: r' =>
      exists u v caps', s = u ++ v /\ u <> [] /\ forallb (cmatch k) u = true
                        /\ den ic r' false v caps' /\ caps = u :: caps'
  end.

Definition no_comma (s : jsstring) : bool := forallb (cmatch NotComma) s.
Definition all_space (s : jsstring) : bool := forallb (cmatch Space) s.
Definition one_line (s : jsstring) : bool := forallb (cmatch Dot) s.

Definition opener (c : N) : bool := (c =? 34) || (c =? 91) || (c =? 123).

(** The text of a value: a scalar without comma, or a text that opens with
    a quote, a bracket or a brace and does not end with a comma. *)
Definition value_shape (body : jsstring) : Prop :=
  (no_comma body = true /\ body <> [])
  \/ (exists c b d, body = c :: b ++ [d] /\ opener c = true /\ (d =? COMMA) = false).

Ltac list_eq := repeat (progress (rewrite <- ?app_assoc; simpl)); reflexivity.

Definition P_lines3 : jsstring := strq " DOE |||John | USA|".

Definition P_lines4 : jsstring := strq "A|B|C|D".

Definition field (ms : list (jsstring * JsValue)) (key : string) : option JsValue :=
  lookup_last (str key) ms.

(** The field is a string that is not empty. *)
Definition text_field (ms : list (jsstring * JsValue)) (key : string) : Prop :=
  exists s, field ms key = Some (JString s) /\ s <> [].

Definition P_json : jsstring := strq "{'name': ' Ann ',| 'country': 'US'|}".

Definition P_json_empty_name : jsstring := strq "{'name':'',|'country':'US'|}".

Definition P_json_number_name : jsstring := strq "{'name': 5|,|'country': 'US'|}".

(** The JSON example of the README, on one line. *)
Definition P_readme : jsstring :=
  strq "{'lastName': 'DOE', 'firstName': 'John', 'country': 'USA'}".

Definition P_labeled_json : jsstring := strq "{'Name: Bob, Country: US':1}".

Definition P_roe : jsstring := str "ROE, Jane, Canada".

Definition P_json_one_field : jsstring := strq "{'name': 'Ann Lee'}".

Definition record_quirky : AttendanceRecord :=
  new_record env1 (strq "O'NEIL, 'Jo', A,B")
    {| name := strq "O'NEIL, 'Jo'"; country := str "A,B" |}.

Definition lines_crlf : list jsstring :=
  [str "DOE" ++ [13]; [13]; str " John" ++ [13]; str "USA"].

(** A record as [saveAttendance] writes it for a parsed payload. *)
Definition record_consistent (r : AttendanceRecord) : Prop :=
  parseQRContent (raw_qr_data r)
  = Normal {| name := rec_name r; country := rec_country r |}
  /\ rec_name r <> [] /\ rec_country r <> [] /\ raw_qr_data r <> [].

(** The record that a request in flight carries is such a record. *)
Definition task_consistent (t : task) : Prop :=
  match t with
  | SaveAttendance_posted record => record_consistent record
  | _ => True
  end.

(** The store and the records on their way to it hold such records only. *)
Definition store_consistent (st : Scanner) : Prop :=
  Forall record_consistent (storage st) /\ Forall task_consistent (pending st).

Definition no_quote (s : jsstring) : bool := forallb (fun c => negb (c =? DQUOTE)) s.

(** The same word up to the case of its ASCII letters. *)
Definition same_word_ignoring_case (word : string) (l : jsstring) : Prop :=
  List.map canonicalize l = List.map canonicalize (str word).

(** The first code unit is not white space. *)
Definition starts_with_text (s : jsstring) : bool :=
  match s with
  | c :: _ => negb (is_space c)
  | [] => false
  end.


Definition raw_payloads (records : list AttendanceRecord) : list jsstring :=
  List.map raw_qr_data records.

(** The requests in flight are answered one after the other, the oldest
    first, the writes to [localStorage] going through. *)
Fixpoint answer_in_turn (date time full : Z -> jsstring) (answers : list answer)
    (st : Scanner) : Scanner :=
  match answers with
  | [] => st
  | a :: rest =>
      answer_in_turn date time full rest (fst (settle date time full 0 a None st))
  end.

Definition record_roe : AttendanceRecord :=
  new_record env2 P_roe {| name := str "ROE, Jane"; country := str "Canada" |}.

(** * Properties *)

(** ** Scenarios of the specification *)

Example threePart_ex :
  threePartMatch (str "DOE, John, USA") = Some [str "DOE"; str "John"; str "USA"].
Proof. reflexivity. Qed.

Example labeled_ex :
  labeledMatch (str "x name: Jane Roe , COUNTRY:  Canada, East")
  = Some [str "Jane Roe "; str "Canada, East"].
Proof. reflexivity. Qed.

Example simple_ex :
  simpleMatch (str "Jane Roe,  ") = Some [str "Jane Roe"; str " "].
Proof. reflexivity. Qed.

Example JSON_parse_ex :
  JSON_parse (strq "{ 'a' : [1, -2.50e3, true, null], 'b': 'xA\n' }")
  = Normal (JObject [(str "a", JArray [JNumber 1 0; JNumber 250 1; JBool true; JNull]);
                     (str "b", JString [120; 65; 10])]).
Proof. reflexivity. Qed.

Example parse_three : parseQRContent (str "SMITH, John, USA")
  = Normal {| name := str "SMITH, John"; country := str "USA" |}.
Proof. reflexivity. Qed.

Example parse_labeled : parseQRContent (str "Name: Jane Roe, Country: Canada")
  = Normal {| name := str "Jane Roe"; country := str "Canada" |}.
Proof. reflexivity. Qed.

Example parse_simple : parseQRContent (str "Jane Roe, Canada")
  = Normal {| name := str "Jane Roe"; country := str "Canada" |}.
Proof. reflexivity. Qed.

Example parse_lines : parseQRContent (strq "DOE|John|USA")
  = Normal {| name := str "DOE, John"; country := str "USA" |}.
Proof. reflexivity. Qed.

Example parse_json : parseQRContent (strq "{'lastName': 'DOE',| 'firstName': ' John ',| 'country': 'USA'|}")
  = Normal {| name := str "DOE, John"; country := str "USA" |}.
Proof. vm_compute. reflexivity. Qed.

Example parse_json_oneline : parseQRContent (strq "{'lastName': 'DOE', 'firstName': 'John', 'country': 'USA'}")
  = Normal {| name := strq "{'lastName': 'DOE', 'firstName': 'John'"; country := strq "'country': 'USA'}" |}.
Proof. vm_compute. reflexivity. Qed.

Example accept_then_cooldown :
  let '(st1, _) := handleQRDetected 10000 env1 P_doe constructor in
  decide_in constructor P_doe 10000 = ACCEPT
  /\ decide_in st1 P_doe 10500 = SUPPRESS_COOLDOWN
  /\ decide_in st1 P_doe 20000 = REJECT_DUPLICATE.
Proof. vm_compute. auto. Qed.

(** ** The session state *)

Lemma is_nil_true {A : Type} (l : list A) : is_nil l = true <-> l = [].
Proof. destruct l; simpl; split; congruence. Qed.

Lemma is_nil_false {A : Type} (l : list A) : is_nil l = false <-> l <> [].
Proof. destruct l; simpl; split; congruence. Qed.

Lemma populate_fold (records : list AttendanceRecord) :
  forall (acc : gset jsstring) (p : jsstring),
    p ∈ fold_left
          (fun s record =>
             if is_nil (raw_qr_data record) then s else {[raw_qr_data record]} ∪ s)
          records acc
    <-> p ∈ acc \/ (p <> [] /\ exists r, In r records /\ raw_qr_data r = p).
Proof.
  induction records as [|a records IH]; intros acc p; simpl.
  - split; [auto | intros [H | (_ & r & Hr & _)]; [exact H | destruct Hr]].
  - rewrite IH. destruct (is_nil (raw_qr_data a)) eqn:E.
    + apply is_nil_true in E. split.
      * intros [H | (Hp & r & Hr & Heq)]; [auto | right; eauto 6].
      * intros [H | (Hp & r & [-> | Hr] & Heq)]; [auto | congruence | right; eauto].
    + apply is_nil_false in E. rewrite elem_of_union, elem_of_singleton. split.
      * intros [[-> | H] | (Hp & r & Hr & Heq)]; [right; eauto 6 | auto | right; eauto 6].
      * intros [H | (Hp & r & [-> | Hr] & Heq)]; [auto | auto | right; eauto].
Qed.

Lemma populate_spec (records : list AttendanceRecord) (p : jsstring) :
  p ∈ populateScannedQRCodes records
  <-> p <> [] /\ exists r, In r records /\ raw_qr_data r = p.
Proof.
  unfold populateScannedQRCodes. rewrite populate_fold. split.
  - intros [H | H]; [exfalso; revert H; apply not_elem_of_empty | exact H].
  - auto.
Qed.

Lemma load_local_rebuilt (st : Scanner) : SeenSet_rebuilt (fst (load_local st)).
Proof. intros p. simpl. apply populate_spec. Qed.

Lemma load_offline (st : Scanner) :
  useLocalStorage st = true -> loadAttendanceRecords st = load_local st.
Proof. intros H. unfold loadAttendanceRecords. rewrite H. reflexivity. Qed.

Lemma load_rebuilt (st : Scanner) :
  useLocalStorage st = true -> SeenSet_rebuilt (fst (loadAttendanceRecords st)).
Proof. intros H. rewrite load_offline by exact H. apply load_local_rebuilt. Qed.

Lemma parseQRContent_returns (qrData : jsstring) :
  exists i, parseQRContent qrData = Normal i.
Proof.
  unfold parseQRContent. destruct (byRegex qrData); [eauto |].
  destruct (tryJSON qrData) as [[i |] | e]; eauto.
Qed.

Lemma parse_ok_nonempty (qrData : jsstring) : parse_ok qrData = true -> qrData <> [].
Proof. intros H ->. vm_compute in H. discriminate. Qed.

Lemma saveAttendance_saved env n c rawData st :
  useLocalStorage st = true -> setItem_throws env = None ->
  saveAttendance env n c rawData st
  = load_local (set_storage (storage st ++ [attendanceData env n c rawData]) st).
Proof.
  intros Hm Hw. unfold saveAttendance, save_local. rewrite Hm, Hw.
  apply load_offline. exact Hm.
Qed.

Lemma saveAttendance_thrown env n c rawData st message :
  useLocalStorage st = true -> setItem_throws env = Some message ->
  saveAttendance env n c rawData st
  = (st, [DisplayError (str "Failed to save attendance record: " ++ message) []]).
Proof. intros Hm Hw. unfold saveAttendance, save_local. rewrite Hm, Hw. reflexivity. Qed.

Lemma saveAttendance_posted env n c rawData st :
  useLocalStorage st = false ->
  saveAttendance env n c rawData st
  = await (SaveAttendance_posted (attendanceData env n c rawData)) st.
Proof. intros Hm. unfold saveAttendance. rewrite Hm. reflexivity. Qed.

Lemma processQRData_parsed env qrData st :
  parse_ok qrData = true ->
  exists i,
    parseQRContent qrData = Normal i
    /\ processQRData env qrData st
       = (fst (saveAttendance env (name i) (country i) qrData
                 (set_codes ({[qrData]} ∪ scannedQRCodes st) st)),
          ShowScanSuccess
          :: snd (saveAttendance env (name i) (country i) qrData
                    (set_codes ({[qrData]} ∪ scannedQRCodes st) st))
          ++ [DisplayScanResult i qrData]).
Proof.
  unfold parse_ok, processQRData. destruct (parseQRContent qrData) as [i | e]; [| discriminate].
  intros ->. exists i. split; [reflexivity |].
  destruct (saveAttendance env (name i) (country i) qrData _) as (st2, evs). reflexivity.
Qed.

Lemma processQRData_saved env qrData st :
  parse_ok qrData = true -> useLocalStorage st = true -> setItem_throws env = None ->
  exists i,
    parseQRContent qrData = Normal i
    /\ fst (processQRData env qrData st)
       = set_codes (populateScannedQRCodes (storage st ++ [new_record env qrData i]))
           (set_storage (storage st ++ [new_record env qrData i])
              (set_codes ({[qrData]} ∪ scannedQRCodes st) st)).
Proof.
  intros Hp Hm Hw. destruct (processQRData_parsed env qrData st Hp) as (i & Hi & ->).
  exists i. split; [exact Hi |]. rewrite saveAttendance_saved by assumption. reflexivity.
Qed.

Lemma processQRData_thrown env qrData st message :
  parse_ok qrData = true -> useLocalStorage st = true ->
  setItem_throws env = Some message ->
  processQRData env qrData st
  = (set_codes ({[qrData]} ∪ scannedQRCodes st) st,
     [ShowScanSuccess;
      DisplayError (str "Failed to save attendance record: " ++ message) []]
     ++ match parseQRContent qrData with
        | Normal i => [DisplayScanResult i qrData]
        | Throw _ => []
        end).
Proof.
  intros Hp Hm Hw. destruct (processQRData_parsed env qrData st Hp) as (i & Hi & ->).
  rewrite Hi. rewrite (saveAttendance_thrown env _ _ _ _ message) by assumption. reflexivity.
Qed.

Lemma processQRData_posted env qrData st :
  parse_ok qrData = true -> useLocalStorage st = false ->
  exists i,
    parseQRContent qrData = Normal i
    /\ processQRData env qrData st
       = (set_pending (pending st ++ [SaveAttendance_posted (new_record env qrData i)])
            (set_codes ({[qrData]} ∪ scannedQRCodes st) st),
          [ShowScanSuccess; DisplayScanResult i qrData]).
Proof.
  intros Hp Hm. destruct (processQRData_parsed env qrData st Hp) as (i & Hi & ->).
  exists i. split; [exact Hi |]. rewrite saveAttendance_posted by exact Hm. reflexivity.
Qed.

Lemma processQRData_failed env qrData st :
  parse_ok qrData = false ->
  processQRData env qrData st
  = (st, [DisplayError (str "Invalid QR Format")
            (strq "Expected format: 'LAST NAME, First Name, Country'")]).
Proof.
  unfold parse_ok, processQRData.
  destruct (parseQRContent_returns qrData) as [i ->]. intros ->. reflexivity.
Qed.

(** The fields that [saveAttendance] leaves alone, and the payload it
    finds in the set. *)
Lemma saveAttendance_frame env n c rawData st :
  let st' := fst (saveAttendance env n c rawData st) in
  scanning st' = scanning st /\ lastScannedCode st' = lastScannedCode st
  /\ lastScanTime st' = lastScanTime st /\ scanCooldown st' = scanCooldown st
  /\ useLocalStorage st' = useLocalStorage st
  /\ (rawData <> [] -> rawData ∈ scannedQRCodes st -> rawData ∈ scannedQRCodes st').
Proof.
  unfold saveAttendance, save_local, loadAttendanceRecords.
  destruct (useLocalStorage st) eqn:Hm; [destruct (setItem_throws env) |]; simpl;
    rewrite ?Hm; simpl; repeat split; auto.
  intros Hne _. apply populate_spec. split; [exact Hne |].
  exists (attendanceData env n c rawData). split; [| reflexivity].
  apply in_or_app. right. left. reflexivity.
Qed.

Lemma decide_in_cases st qrData now :
  (cooling st qrData now = true /\ decide_in st qrData now = SUPPRESS_COOLDOWN)
  \/ (cooling st qrData now = false /\ qrData ∈ scannedQRCodes st
      /\ decide_in st qrData now = REJECT_DUPLICATE)
  \/ (cooling st qrData now = false /\ (qrData ∉ scannedQRCodes st)
      /\ decide_in st qrData now = ACCEPT).
Proof.
  unfold decide_in, decide, cooling.
  destruct (bool_decide (lastScannedCode st = Some qrData) && _); [auto |].
  destruct (bool_decide_reflect (qrData ∈ scannedQRCodes st)); auto.
Qed.

Lemma handle_accept now env qrData st :
  decide_in st qrData now = ACCEPT ->
  handleQRDetected now env qrData st
  = (fst (processQRData env qrData (mark_scanned qrData now st)),
     snd (processQRData env qrData (mark_scanned qrData now st))
     ++ [ResumeScanningAfter 1000]).
Proof.
  intros Hd. unfold handleQRDetected. rewrite Hd.
  destruct (processQRData env qrData (mark_scanned qrData now st)). reflexivity.
Qed.

(** An accepted payload that parses, offline, the write going through. *)
Lemma handle_accept_saved now env qrData st :
  decide_in st qrData now = ACCEPT ->
  parse_ok qrData = true ->
  useLocalStorage st = true -> setItem_throws env = None ->
  exists i,
    parseQRContent qrData = Normal i
    /\ storage (fst (handleQRDetected now env qrData st))
       = storage st ++ [new_record env qrData i]
    /\ scannedQRCodes (fst (handleQRDetected now env qrData st))
       = populateScannedQRCodes (storage st ++ [new_record env qrData i])
    /\ lastScannedCode (fst (handleQRDetected now env qrData st)) = Some qrData
    /\ lastScanTime (fst (handleQRDetected now env qrData st)) = now
    /\ scanCooldown (fst (handleQRDetected now env qrData st)) = scanCooldown st
    /\ useLocalStorage (fst (handleQRDetected now env qrData st)) = true
    /\ pending (fst (handleQRDetected now env qrData st)) = pending st.
Proof.
  intros Hd Hp Hm Hw. rewrite (handle_accept now env qrData st Hd).
  destruct (processQRData_saved env qrData (mark_scanned qrData now st) Hp Hm Hw)
    as (i & Hi & ->).
  exists i. simpl. repeat split; assumption || reflexivity.
Qed.

(** An accepted payload that parses, offline, the write throwing. *)
Lemma handle_accept_thrown now env qrData st message :
  decide_in st qrData now = ACCEPT ->
  parse_ok qrData = true ->
  useLocalStorage st = true -> setItem_throws env = Some message ->
  fst (handleQRDetected now env qrData st)
  = set_codes ({[qrData]} ∪ scannedQRCodes st) (mark_scanned qrData now st).
Proof.
  intros Hd Hp Hm Hw. rewrite (handle_accept now env qrData st Hd).
  rewrite (processQRData_thrown env qrData (mark_scanned qrData now st) message)
    by assumption.
  reflexivity.
Qed.


Lemma handle_accept_failed now env qrData st :
  decide_in st qrData now = ACCEPT ->
  parse_ok qrData = false ->
  handleQRDetected now env qrData st
  = (mark_scanned qrData now st,
     [DisplayError (str "Invalid QR Format")
        (strq "Expected format: 'LAST NAME, First Name, Country'");
      ResumeScanningAfter 1000]).
Proof.
  intros Hd Hp. rewrite (handle_accept now env qrData st Hd).
  rewrite (processQRData_failed env qrData _ Hp). reflexivity.
Qed.

(** What an accepted detection does in every mode. *)
Lemma handle_accept_fields now env qrData st :
  decide_in st qrData now = ACCEPT ->
  lastScannedCode (fst (handleQRDetected now env qrData st)) = Some qrData
  /\ lastScanTime (fst (handleQRDetected now env qrData st)) = now
  /\ scanCooldown (fst (handleQRDetected now env qrData st)) = scanCooldown st
  /\ scanning (fst (handleQRDetected now env qrData st)) = false
  /\ useLocalStorage (fst (handleQRDetected now env qrData st)) = useLocalStorage st
  /\ (parse_ok qrData = true ->
      qrData ∈ scannedQRCodes (fst (handleQRDetected now env qrData st))).
Proof.
  intros Hd. destruct (parse_ok qrData) eqn:Hp.
  - rewrite (handle_accept now env qrData st Hd).
    destruct (processQRData_parsed env qrData (mark_scanned qrData now st) Hp)
      as (i & _ & ->).
    cbn [fst].
    pose proof (saveAttendance_frame env (name i) (country i) qrData
                  (set_codes ({[qrData]} ∪ scannedQRCodes (mark_scanned qrData now st))
                     (mark_scanned qrData now st))) as (H1 & H2 & H3 & H4 & H5 & H6).
    rewrite H1, H2, H3, H4, H5. repeat split; try reflexivity.
    intros _. apply H6; [apply parse_ok_nonempty; exact Hp |].
    simpl. apply elem_of_union. left. apply elem_of_singleton. reflexivity.
  - rewrite (handle_accept_failed now env qrData st Hd Hp). simpl.
    repeat split; try reflexivity. discriminate.
Qed.

Lemma handle_not_accept now env qrData st :
  decide_in st qrData now <> ACCEPT ->
  fst (handleQRDetected now env qrData st) = st.
Proof.
  intros H. unfold handleQRDetected.
  destruct (decide_in st qrData now); [reflexivity | reflexivity | congruence].
Qed.

Lemma process_rebuilt env qrData st :
  useLocalStorage st = true -> setItem_throws env = None ->
  SeenSet_rebuilt st -> SeenSet_rebuilt (fst (processQRData env qrData st)).
Proof.
  intros Hm Hw Hinv. destruct (parse_ok qrData) eqn:Hp.
  - destruct (processQRData_saved env qrData st Hp Hm Hw) as (i & _ & ->).
    intros p. unfold live_payload. simpl. apply populate_spec.
  - rewrite (processQRData_failed env qrData st Hp). exact Hinv.
Qed.

Lemma handle_rebuilt now env qrData st :
  useLocalStorage st = true -> setItem_throws env = None ->
  SeenSet_rebuilt st -> SeenSet_rebuilt (fst (handleQRDetected now env qrData st)).
Proof.
  intros Hm Hw Hinv.
  destruct (decide_in_cases st qrData now) as [(_ & Hd) | [(_ & _ & Hd) | (_ & _ & Hd)]].
  - rewrite handle_not_accept by congruence. exact Hinv.
  - rewrite handle_not_accept by congruence. exact Hinv.
  - destruct (parse_ok qrData) eqn:Hp.
    + destruct (handle_accept_saved now env qrData st Hd Hp Hm Hw) as (i & _ & Hs & Hc & _).
      intros p. unfold live_payload. rewrite Hs, Hc. apply populate_spec.
    + rewrite (handle_accept_failed now env qrData st Hd Hp). exact Hinv.
Qed.

Lemma delete_offline recordId st :
  useLocalStorage st = true ->
  deleteRecord true recordId None st
  = load_local
      (set_storage
         (List.filter (fun r => negb (bool_decide (rec_id r = recordId))) (storage st))
         (set_codes
            match List.find (fun r => bool_decide (rec_id r = recordId)) (storage st) with
            | Some r =>
                if is_nil (raw_qr_data r) then scannedQRCodes st
                else scannedQRCodes st ∖ {[raw_qr_data r]}
            | None => scannedQRCodes st
            end st)).
Proof.
  intros Hm. unfold deleteRecord, delete_local. rewrite Hm.
  apply load_offline. exact Hm.
Qed.

Lemma delete_thrown recordId message st :
  useLocalStorage st = true ->
  deleteRecord true recordId (Some message) st = (st, []).
Proof. intros Hm. unfold deleteRecord, delete_local. rewrite Hm. reflexivity. Qed.

Lemma delete_rebuilt confirmed recordId thrown st :
  useLocalStorage st = true ->
  SeenSet_rebuilt st -> SeenSet_rebuilt (fst (deleteRecord confirmed recordId thrown st)).
Proof.
  intros Hm Hinv. destruct confirmed; [| exact Hinv].
  destruct thrown as [message |].
  - rewrite delete_thrown by exact Hm. exact Hinv.
  - rewrite delete_offline by exact Hm. apply load_local_rebuilt.
Qed.

Lemma delete_storage recordId st :
  useLocalStorage st = true ->
  storage (fst (deleteRecord true recordId None st))
  = List.filter (fun r => negb (bool_decide (rec_id r = recordId))) (storage st).
Proof. intros Hm. rewrite delete_offline by exact Hm. reflexivity. Qed.

Lemma delete_codes recordId st (p : jsstring) :
  useLocalStorage st = true ->
  p ∈ scannedQRCodes (fst (deleteRecord true recordId None st))
  <-> p <> [] /\ exists r, In r (storage st) /\ rec_id r <> recordId /\ raw_qr_data r = p.
Proof.
  intros Hm. rewrite delete_offline by exact Hm. simpl. rewrite populate_spec.
  split; intros (Hp & r & Hr & Heq); split; try exact Hp; exists r.
  - apply filter_In in Hr as (Hin & Hid). apply negb_true_iff in Hid.
    apply bool_decide_eq_false in Hid. auto.
  - destruct Heq as (Hid & Heq). split; [| exact Heq]. apply filter_In. split; [exact Hr |].
    apply negb_true_iff. apply bool_decide_eq_false. exact Hid.
Qed.

Lemma clearAll_offline st :
  useLocalStorage st = true ->
  clearAllAttendance st = load_local (set_codes ∅ (set_storage [] st)).
Proof.
  intros Hm. unfold clearAllAttendance, clear_stored, clear_finish. rewrite Hm.
  apply load_offline. exact Hm.
Qed.

(** C1 (amended): the rules of [handleQRDetected] in their order.  Within
    the cooldown of the last accepted payload the call is silent and changes
    nothing, even for a payload of the set; otherwise a payload of the set
    is refused with the duplicate error; otherwise it is accepted: the last
    payload and its time are updated, and the payload is in the set
    afterwards exactly when its parse gave a name and a country.  The
    cooldown of a new scanner is 2000 ms. *)
Theorem handleQRDetected_rules :
  forall (now : Z) (env : Env) (qrData : jsstring) (st : Scanner),
    scanCooldown constructor = 2000%Z
    /\ cooling st qrData now
       = bool_decide (lastScannedCode st = Some qrData)
         && (now - lastScanTime st <? scanCooldown st)%Z
    /\ (cooling st qrData now = true ->
        decide_in st qrData now = SUPPRESS_COOLDOWN
        /\ handleQRDetected now env qrData st = (st, []))
    /\ (cooling st qrData now = false -> qrData ∈ scannedQRCodes st ->
        decide_in st qrData now = REJECT_DUPLICATE
        /\ handleQRDetected now env qrData st = (st, showDuplicateError))
    /\ (cooling st qrData now = false -> qrData ∉ scannedQRCodes st ->
        decide_in st qrData now = ACCEPT
        /\ lastScannedCode (fst (handleQRDetected now env qrData st)) = Some qrData
        /\ lastScanTime (fst (handleQRDetected now env qrData st)) = now
        /\ (qrData ∈ scannedQRCodes (fst (handleQRDetected now env qrData st))
            <-> parse_ok qrData = true))
    /\ showDuplicateError
       = [DisplayError (str "QR Code Already Scanned!")
            (str "This attendance has already been recorded in this session.")].
Proof.
  intros now env qrData st.
  split; [reflexivity |]. split; [reflexivity |].
  cut ((cooling st qrData now = true ->
        decide_in st qrData now = SUPPRESS_COOLDOWN
        /\ handleQRDetected now env qrData st = (st, []))
       /\ (cooling st qrData now = false -> qrData ∈ scannedQRCodes st ->
           decide_in st qrData now = REJECT_DUPLICATE
           /\ handleQRDetected now env qrData st = (st, showDuplicateError))
       /\ (cooling st qrData now = false -> qrData ∉ scannedQRCodes st ->
           decide_in st qrData now = ACCEPT
           /\ lastScannedCode (fst (handleQRDetected now env qrData st)) = Some qrData
           /\ lastScanTime (fst (handleQRDetected now env qrData st)) = now
           /\ (qrData ∈ scannedQRCodes (fst (handleQRDetected now env qrData st))
               <-> parse_ok qrData = true))).
  { intros (H1 & H2 & H3). repeat split; solve [apply H1; assumption | apply H2; assumption
                                                | apply H3; assumption]. }
  destruct (decide_in_cases st qrData now)
    as [(Hc & Hd) | [(Hc & Hin & Hd) | (Hc & Hin & Hd)]].
  - split; [| split]; intros; try congruence.
    split; [exact Hd |]. unfold handleQRDetected. rewrite Hd. reflexivity.
  - split; [| split]; intros; try congruence; try contradiction.
    split; [exact Hd |]. unfold handleQRDetected. rewrite Hd. reflexivity.
  - split; [| split]; intros; try congruence; try contradiction.
    split; [exact Hd |].
    destruct (handle_accept_fields now env qrData st Hd) as (Hl & Ht & _ & _ & _ & Hadd).
    split; [exact Hl |]. split; [exact Ht |]. split; [| exact Hadd].
    destruct (parse_ok qrData) eqn:Hp; [reflexivity |]. intros Hmem. exfalso.
    rewrite (handle_accept_failed now env qrData st Hd Hp) in Hmem. contradiction.
Qed.

(** C1, as stated, fails: an accepted payload that does not parse is not
    added to the set. *)
Lemma accept_without_add :
  decide_in constructor P_hello 5000 = ACCEPT
  /\ (P_hello ∉ scannedQRCodes (fst (handleQRDetected 5000 env1 P_hello constructor)))
  /\ lastScannedCode (fst (handleQRDetected 5000 env1 P_hello constructor))
     = Some P_hello.
Proof.
  split; [vm_compute; reflexivity |]. split; [| vm_compute; reflexivity].
  rewrite handle_accept_failed by (vm_compute; reflexivity).
  simpl. apply not_elem_of_empty.
Qed.



Lemma offline_start_state :
  offline_start
  = {| scanning := false; lastScannedCode := None; lastScanTime := 0%Z;
       scanCooldown := 2000%Z; useLocalStorage := true; scannedQRCodes := ∅;
       storage := []; pending := [] |}.
Proof. vm_compute. reflexivity. Qed.

Lemma st_one_reached : fst (handleQRDetected 10000 env1 P_doe offline_start) = st_one.
Proof. vm_compute. reflexivity. Qed.

Lemma st_one_invariant : SeenSet_invariant st_one.
Proof.
  intros p. unfold live_payload. simpl. rewrite elem_of_singleton. split.
  - intros ->. exists record_doe. split; [left |]; reflexivity.
  - intros (r & [<- | []] & <-). reflexivity.
Qed.

(** C3, as stated, fails: clearing the blocked set leaves the records
    live and empties the set. *)
Lemma clear_breaks_invariant :
  SeenSet_invariant st_one /\ ~ SeenSet_invariant (clearScannedQRCodes st_one).
Proof.
  split; [exact st_one_invariant |].
  intros H. apply (not_elem_of_empty (C := gset jsstring) P_doe).
  apply (H P_doe). exists record_doe. split; [left |]; reflexivity.
Qed.

(** C3 (amended): while the scanner works on [localStorage] and the write
    to it does not throw, rebuilding on load, a detected payload (also one
    processed without the policy, as the test button does), a deletion and
    the clearing of all records keep the invariant that a non-empty payload
    is in the set exactly when a live record carries it.  The set is what
    [populateScannedQRCodes] rebuilds from the store; after a deletion a
    payload is blocked exactly when a record with another id carries it;
    clearing all records empties store and set.  Clearing the blocked set
    empties the set and keeps the records.  When the write of an accepted
    payload throws, the payload is in the set and no record carries it.
    When a load request is answered by the remote table, the set is
    rebuilt from the records of the answer, whatever the state. *)
Theorem SeenSet_rebuilt_preserved :
  forall st : Scanner,
    useLocalStorage st = true ->
    SeenSet_rebuilt st ->
    SeenSet_rebuilt (fst (loadAttendanceRecords st))
    /\ (forall now env qrData,
          setItem_throws env = None ->
          SeenSet_rebuilt (fst (handleQRDetected now env qrData st)))
    /\ (forall env qrData,
          setItem_throws env = None ->
          SeenSet_rebuilt (fst (processQRData env qrData st)))
    /\ (forall confirmed recordId thrown,
          SeenSet_rebuilt (fst (deleteRecord confirmed recordId thrown st)))
    /\ SeenSet_rebuilt (fst (clearAllAttendance st))
    /\ scannedQRCodes (fst (loadAttendanceRecords st)) = populateScannedQRCodes (storage st)
    /\ scannedQRCodes st = populateScannedQRCodes (storage st)
    /\ (forall recordId p,
          p ∈ scannedQRCodes (fst (deleteRecord true recordId None st))
          <-> p <> [] /\ exists r, In r (storage st) /\ rec_id r <> recordId
                                   /\ raw_qr_data r = p)
    /\ scannedQRCodes (fst (clearAllAttendance st)) = ∅
    /\ storage (fst (clearAllAttendance st)) = []
    /\ scannedQRCodes (clearScannedQRCodes st) = ∅
    /\ storage (clearScannedQRCodes st) = storage st
    /\ (forall now env qrData message,
          setItem_throws env = Some message ->
          decide_in st qrData now = ACCEPT ->
          parse_ok qrData = true ->
          qrData ∈ scannedQRCodes (fst (handleQRDetected now env qrData st))
          /\ storage (fst (handleQRDetected now env qrData st)) = storage st
          /\ ~ live_payload (fst (handleQRDetected now env qrData st)) qrData
          /\ ~ SeenSet_rebuilt (fst (handleQRDetected now env qrData st)))
    /\ (forall (st0 : Scanner) (records : list AttendanceRecord) (p : jsstring),
          p ∈ scannedQRCodes (fst (loadAttendanceRecords_answered (Fulfilled records) st0))
          <-> p <> [] /\ exists r, In r records /\ raw_qr_data r = p).
Proof.
  intros st Hm Hinv.
  split; [apply load_rebuilt; exact Hm |].
  split; [intros; apply handle_rebuilt; assumption |].
  split; [intros; apply process_rebuilt; assumption |].
  split; [intros; apply delete_rebuilt; assumption |].
  split; [rewrite clearAll_offline by exact Hm; apply load_local_rebuilt |].
  split; [rewrite load_offline by exact Hm; reflexivity |].
  split.
  { apply set_eq. intros p. rewrite (Hinv p), populate_spec. reflexivity. }
  split; [intros; apply delete_codes; exact Hm |].
  rewrite clearAll_offline by exact Hm.
  split; [reflexivity |]. split; [reflexivity |].
  split; [reflexivity |]. split; [reflexivity |].
  split.
  - intros now env qrData message Hw Hd Hp.
    rewrite (handle_accept_thrown now env qrData st message Hd Hp Hm Hw). simpl.
    assert (Hin : qrData ∈ {[qrData]} ∪ scannedQRCodes st).
    { apply elem_of_union. left. apply elem_of_singleton. reflexivity. }
    assert (Hlive : ~ live_payload
                      (set_codes ({[qrData]} ∪ scannedQRCodes st)
                         (mark_scanned qrData now st)) qrData).
    { intros Hl.
      destruct (decide_in_cases st qrData now)
        as [(_ & Hd') | [(_ & _ & Hd') | (_ & Hout & _)]]; try congruence.
      apply Hout. apply Hinv. split; [apply parse_ok_nonempty; exact Hp | exact Hl]. }
    split; [exact Hin |]. split; [reflexivity |]. split; [exact Hlive |].
    intros Hreb. apply Hlive. apply (Hreb qrData). exact Hin.
  - intros st0 records p. simpl. apply populate_spec.
Qed.

Lemma st_one_rebuilt : SeenSet_rebuilt st_one.
Proof.
  intros p. rewrite (st_one_invariant p). unfold live_payload. simpl. split.
  - intros (r & [<- | []] & <-). split; [discriminate |].
    exists record_doe. split; [left |]; reflexivity.
  - intros (_ & H). exact H.
Qed.

Lemma SeenSet_rebuilt_preserved_witness :
  SeenSet_rebuilt (fst (handleQRDetected 20000 env2 P_roe st_one))
  /\ SeenSet_rebuilt (fst (deleteRecord true (str "r1") None st_one))
  /\ scannedQRCodes (fst (clearAllAttendance st_one)) = ∅
  /\ ~ SeenSet_rebuilt (fst (handleQRDetected 30000 env_full P_roe st_one)).
Proof.
  pose proof (SeenSet_rebuilt_preserved st_one eq_refl st_one_rebuilt)
    as (_ & Hscan & _ & Hdel & _ & _ & _ & _ & Hclear & _ & _ & _ & Hthrown & _).
  split; [apply Hscan; reflexivity |]. split; [apply Hdel |]. split; [exact Hclear |].
  apply (Hthrown 30000%Z env_full P_roe (str "QuotaExceededError"));
    vm_compute; reflexivity.
Defined.

(** C9, as stated, fails: the first record still carries the payload, so
    the payload stays blocked after the second record is deleted. *)
Lemma delete_keeps_blocked :
  decide_in (clearScannedQRCodes st_one) P_doe 20000 = ACCEPT
  /\ parse_ok P_doe = true
  /\ storage st_twice_deleted = [record_doe]
  /\ P_doe ∈ scannedQRCodes st_twice_deleted
  /\ decide_in st_twice_deleted P_doe 30000 = REJECT_DUPLICATE.
Proof.
  split; [vm_compute; reflexivity |]. split; [vm_compute; reflexivity |].
  split; [vm_compute; reflexivity |]. split; [| vm_compute; reflexivity].
  unfold st_twice_deleted. apply delete_codes; [vm_compute; reflexivity |].
  split; [discriminate |].
  exists record_doe. split; [| split; [discriminate | reflexivity]].
  unfold st_twice.
  destruct (handle_accept_saved 20000 env2 P_doe (clearScannedQRCodes st_one))
    as (i & _ & Hs & _); try (vm_compute; reflexivity).
  rewrite Hs. simpl. left. reflexivity.
Qed.

(** C9 (amended): while the scanner works on [localStorage] and its writes
    go through, when no live record carries the payload before it is
    accepted (as the invariant of the set gives), accepting it creates a
    record, and deleting that record by its id removes the payload from the
    set; once the cooldown has passed, the policy accepts it again.  When
    the write of the deletion throws, nothing is deleted and the payload
    stays blocked.  When the scanner works on the remote table, the
    deletion changes the set only when the reload is answered: the payload
    is then blocked exactly when a record of the answer carries it. *)
Theorem accept_delete_accept :
  forall (st : Scanner) (now : Z) (env : Env) (P : jsstring) (now' : Z),
    useLocalStorage st = true ->
    setItem_throws env = None ->
    ~ live_payload st P ->
    decide_in st P now = ACCEPT ->
    parse_ok P = true ->
    (scanCooldown st <= now' - now)%Z ->
    let st1 := fst (handleQRDetected now env P st) in
    let st2 := fst (deleteRecord true (generateId env) None st1) in
    (exists r, In r (storage st1) /\ rec_id r = generateId env /\ raw_qr_data r = P)
    /\ P ∈ scannedQRCodes st1
    /\ (P ∉ scannedQRCodes st2)
    /\ decide_in st2 P now' = ACCEPT
    /\ (forall message,
          fst (deleteRecord true (generateId env) (Some message) st1) = st1)
    /\ (forall (st0 : Scanner) (recordId : jsstring) (thrown : option jsstring),
          useLocalStorage st0 = false ->
          fst (deleteRecord true recordId thrown st0)
          = set_pending (pending st0 ++ [DeleteRecord_sent recordId]) st0
          /\ forall records thrown',
               fst (deleteRecord_answered recordId (Fulfilled records) thrown' st0)
               = set_pending (pending st0 ++ [LoadAttendanceRecords_fetched]) st0)
    /\ (forall (st0 : Scanner) (records : list AttendanceRecord),
          P ∈ scannedQRCodes (fst (loadAttendanceRecords_answered (Fulfilled records) st0))
          <-> exists r, In r records /\ raw_qr_data r = P).
Proof.
  intros st now env P now' Hm Hw Hlive Hd Hp Hcool st1 st2.
  destruct (handle_accept_saved now env P st Hd Hp Hm Hw)
    as (i & _ & Hs & Hc & Hl & Ht & Hcd & Hm1 & _).
  fold st1 in Hs, Hc, Hl, Ht, Hcd, Hm1.
  assert (Hnew : In (new_record env P i) (storage st1)).
  { rewrite Hs. apply in_or_app. right. left. reflexivity. }
  assert (Hout : P ∉ scannedQRCodes st2).
  { unfold st2. rewrite delete_codes by exact Hm1. intros (_ & r & Hr & Hid & Heq).
    rewrite Hs in Hr. apply in_app_or in Hr as [Hr | [<- | []]].
    - apply Hlive. exists r. auto.
    - apply Hid. reflexivity. }
  split; [exists (new_record env P i); auto |].
  split.
  { rewrite Hc. apply populate_spec. split; [apply parse_ok_nonempty; exact Hp |].
    exists (new_record env P i). rewrite <- Hs. auto. }
  split; [exact Hout |].
  split.
  { destruct (decide_in_cases st2 P now') as [(Hc2 & _) | [(_ & Hin & _) | (_ & _ & Hacc)]].
    - exfalso. unfold cooling in Hc2. apply andb_true_iff in Hc2 as (_ & Hlt).
      apply Z.ltb_lt in Hlt. unfold st2 in Hlt.
      rewrite delete_offline in Hlt by exact Hm1. simpl in Hlt.
      rewrite Ht, Hcd in Hlt. lia.
    - contradiction.
    - exact Hacc. }
  split; [intros message; rewrite delete_thrown by exact Hm1; reflexivity |].
  split.
  - intros st0 recordId thrown Hm0. unfold deleteRecord. rewrite Hm0.
    split; [reflexivity |].
    intros records thrown'. unfold deleteRecord_answered, loadAttendanceRecords.
    rewrite Hm0. reflexivity.
  - intros st0 records. simpl. rewrite populate_spec. split.
    + intros (_ & H). exact H.
    + intros H. split; [apply parse_ok_nonempty; exact Hp | exact H].
Qed.

Lemma accept_delete_accept_witness :
  (P_doe ∉ scannedQRCodes (fst (deleteRecord true (str "r1") None
            (fst (handleQRDetected 10000 env1 P_doe offline_start)))))
  /\ decide_in (fst (deleteRecord true (str "r1") None
            (fst (handleQRDetected 10000 env1 P_doe offline_start))))
       P_doe 12000 = ACCEPT.
Proof.
  assert (Hm : useLocalStorage offline_start = true) by reflexivity.
  assert (Hw : setItem_throws env1 = None) by reflexivity.
  assert (H0 : ~ live_payload offline_start P_doe).
  { intros (r & Hr & _). vm_compute in Hr. exact Hr. }
  assert (H1 : decide_in offline_start P_doe 10000 = ACCEPT) by (vm_compute; reflexivity).
  assert (H2 : parse_ok P_doe = true) by (vm_compute; reflexivity).
  assert (H3 : (scanCooldown offline_start <= 12000 - 10000)%Z) by (vm_compute; discriminate).
  pose proof (accept_delete_accept offline_start 10000 env1 P_doe 12000
                Hm Hw H0 H1 H2 H3) as (_ & _ & Hout & Hacc & _).
  split; [exact Hout | exact Hacc].
Defined.

(** ** CSV export *)

Lemma csv_unquote_body_quoted (s : jsstring) :
  csv_unquote_body (replace_quotes s ++ [DQUOTE]) = Some s.
Proof.
  induction s as [|c s IH]; [reflexivity |].
  unfold replace_quotes in *. simpl flat_map.
  destruct (c =? DQUOTE) eqn:E.
  - apply N.eqb_eq in E. subst c. simpl. simpl in IH. rewrite IH. reflexivity.
  - simpl. rewrite E. simpl in IH. rewrite IH. reflexivity.
Qed.

Lemma csv_unquote_quoted (s : jsstring) : csv_unquote (quoted (replace_quotes s)) = Some s.
Proof. unfold csv_unquote, quoted. simpl. apply csv_unquote_body_quoted. Qed.

Lemma insert_sorted_perm a l : Permutation (a :: l) (insert_sorted a l).
Proof.
  induction l as [|b l IH]; simpl; [reflexivity |].
  destruct (compare_newest_first a b <=? 0)%Z; [reflexivity |].
  rewrite perm_swap. apply perm_skip. exact IH.
Qed.

Lemma sort_records_perm l : Permutation l (sort_records l).
Proof.
  induction l as [|a l IH]; simpl; [reflexivity |].
  rewrite <- insert_sorted_perm. apply perm_skip. exact IH.
Qed.

Lemma insert_sorted_sorted a l :
  StronglySorted newer_or_same l -> StronglySorted newer_or_same (insert_sorted a l).
Proof.
  induction l as [|b l IH]; intros Hs; simpl.
  - constructor; constructor.
  - inversion Hs as [| b' l' Hl Hb]; subst.
    destruct (compare_newest_first a b <=? 0)%Z eqn:E.
    + apply Z.leb_le in E. unfold compare_newest_first in E.
      constructor; [exact Hs |]. constructor; [unfold newer_or_same; lia |].
      rewrite List.Forall_forall in Hb |- *. intros c Hc.
      specialize (Hb c Hc). unfold newer_or_same in *. lia.
    + apply Z.leb_gt in E. unfold compare_newest_first in E.
      constructor; [apply IH; exact Hl |].
      rewrite List.Forall_forall. intros c Hc.
      apply (Permutation_in _ (Permutation_sym (insert_sorted_perm a l))) in Hc.
      destruct Hc as [<- | Hc]; [unfold newer_or_same; lia |].
      rewrite List.Forall_forall in Hb. apply Hb. exact Hc.
Qed.

Lemma sort_records_sorted l : StronglySorted newer_or_same (sort_records l).
Proof.
  induction l as [|a l IH]; simpl; [constructor | apply insert_sorted_sorted; exact IH].
Qed.

Lemma csv_rows_nth (date time full : Z -> jsstring) (records : list AttendanceRecord) :
  forall (start k : nat) (r : AttendanceRecord),
    nth_error records k = Some r ->
    nth_error (csv_rows date time full start records) k
    = Some (join [COMMA] (csv_fields date time full (start + k) r)).
Proof.
  induction records as [|a records IH]; intros start k r Hk.
  - destruct k; discriminate.
  - destruct k as [|k]; cbn [nth_error csv_rows] in *.
    + injection Hk as ->. rewrite Nat.add_0_r. reflexivity.
    + rewrite (IH (S start) k r Hk). rewrite Nat.add_succ_r. reflexivity.
Qed.

(** C4 (amended): with no record nothing is exported; otherwise the text
    is the header row followed by one row per record, the records sorted
    newest scan first and numbered from 1.  A row starts with its number,
    written bare; the five fields after it are wrapped in double quotes,
    and in name and country every double quote is doubled, so that a CSV
    reader gets the two values back.  The records are those of the store
    when the scanner works on [localStorage], also when the request for the
    list is rejected; otherwise they are the records of the answer. *)
Theorem exportToCSV_format :
  forall (date time full : Z -> jsstring) (records : list AttendanceRecord),
    csv_header = str "No.,Name,Country,Scan Date,Scan Time,Full Timestamp"
    /\ (records = [] -> csvContent date time full records = None)
    /\ (records <> [] ->
        exists sorted,
          Permutation records sorted
          /\ StronglySorted newer_or_same sorted
          /\ csvContent date time full records
             = Some (join [LF] (csv_header :: csv_rows date time full 0 sorted))
          /\ length (csv_rows date time full 0 sorted) = length records
          /\ forall k r,
               nth_error sorted k = Some r ->
               nth_error (csv_rows date time full 0 sorted) k
               = Some (join [COMMA] (csv_fields date time full k r)))
    /\ (forall index record,
          exists f1 f2,
            csv_fields date time full index record
            = [number_to_string (index + 1); f1; f2;
               quoted (date (scan_timestamp record));
               quoted (time (scan_timestamp record));
               quoted (full (scan_timestamp record))]
            /\ f1 = quoted (replace_quotes (rec_name record))
            /\ f2 = quoted (replace_quotes (rec_country record))
            /\ csv_unquote f1 = Some (rec_name record)
            /\ csv_unquote f2 = Some (rec_country record))
    /\ export_records date time full records
       = match csvContent date time full records with
         | Some text => [Download text]
         | None => [Alert (str "No attendance records to export.")]
         end
    /\ (forall st : Scanner,
          useLocalStorage st = true ->
          exportToCSV date time full st = (st, export_records date time full (storage st)))
    /\ (forall st : Scanner,
          useLocalStorage st = false ->
          exportToCSV date time full st = await (ExportToCSV_fetched false) st
          /\ exportToCSV_answered date time full false (Fulfilled records) st
             = (st, export_records date time full records)
          /\ exportToCSV_answered date time full false Rejected st
             = (set_useLocalStorage true st, export_records date time full (storage st))).
Proof.
  intros date time full records.
  split; [reflexivity |].
  split; [intros ->; reflexivity |].
  split.
  - intros Hne. exists (sort_records records).
    split; [apply sort_records_perm |]. split; [apply sort_records_sorted |].
    split.
    + unfold csvContent. destruct records; [congruence | reflexivity].
    + split.
      * rewrite (Permutation_length (sort_records_perm records)).
        generalize (sort_records records) 0%nat.
        intros l. induction l as [|a l IH]; intros n; cbn [csv_rows length];
          [reflexivity |].
        rewrite IH. reflexivity.
      * intros k r Hk. apply (csv_rows_nth date time full _ 0 k r Hk).
  - split.
    { intros index record. eexists. eexists. split; [reflexivity |].
      split; [reflexivity |]. split; [reflexivity |].
      split; apply csv_unquote_quoted. }
    split; [reflexivity |]. split.
    + intros st Hm. unfold exportToCSV, exportToCSV_called. rewrite Hm. reflexivity.
    + intros st Hm. unfold exportToCSV, exportToCSV_called, exportToCSV_answered.
      rewrite Hm. simpl. rewrite ?Hm. auto.
Qed.

(** C4, as stated, fails: the first field of a data row, the row number,
    is not wrapped in double quotes. *)
Lemma row_number_bare :
  exportToCSV locale_date locale_time locale_full st_one
  = (st_one,
     [Download (strq "No.,Name,Country,Scan Date,Scan Time,Full Timestamp|1,'DOE, John','USA','1/1/1970','12:00:10 AM','1/1/1970, 12:00:10 AM'")])
  /\ nth_error (csv_fields locale_date locale_time locale_full 0 record_doe) 0
     = Some (str "1")
  /\ csv_unquote (str "1") = None.
Proof. vm_compute. repeat split; reflexivity. Qed.

(** ** The regular-expression matcher against a declarative reading *)

Section Greedy.

Context {A : Type} (p : N -> bool) (k : jsstring -> jsstring -> option A).

Lemma greedy_sound :
  forall (s acc : jsstring) (r : A),
    greedy p k acc s = Some r ->
    exists u v, s = u ++ v /\ forallb p u = true /\ k (acc ++ u) v = Some r.
Proof.
  induction s as [|c s IH]; intros acc r H; simpl in H.
  - exists [], []. simpl. rewrite !app_nil_r. auto.
  - destruct (p c) eqn:Hc.
    + destruct (greedy p k (acc ++ [c]) s) as [r' |] eqn:Hg.
      * injection H as <-. destruct (IH _ _ Hg) as (u & v & -> & Hu & Hk).
        exists (c :: u), v. simpl. rewrite Hc, Hu. rewrite <- app_assoc in Hk. auto.
      * exists [], (c :: s). simpl. rewrite !app_nil_r. auto.
    + exists [], (c :: s). simpl. rewrite !app_nil_r. auto.
Qed.

Lemma greedy_complete :
  forall (u v acc : jsstring) (r : A),
    forallb p u = true -> k (acc ++ u) v = Some r ->
    exists r', greedy p k acc (u ++ v) = Some r'.
Proof.
  induction u as [|c u IH]; intros v acc r Hu Hk.
  - rewrite app_nil_r in Hk. simpl. destruct v as [|d v]; simpl; [eauto |].
    destruct (p d); [| eauto]. destruct (greedy p k (acc ++ [d]) v); eauto.
  - simpl in Hu. apply andb_true_iff in Hu as (Hc & Hu). simpl. rewrite Hc.
    destruct (IH v (acc ++ [c]) r Hu) as (r' & ->); [| eauto].
    rewrite <- app_assoc. exact Hk.
Qed.

End Greedy.

Lemma m_sound (ic : bool) (r : regex) :
  forall bos s caps, m ic r bos s = Some caps -> den ic r bos s caps.
Proof.
  induction r as [|i r IH]; intros bos s caps H; simpl in *.
  - congruence.
  - destruct i.
    + destruct bos; [auto | discriminate].
    + destruct s; simpl in H; [auto | discriminate].
    + destruct s as [|c' s']; [discriminate |].
      destruct (lit_match ic c c') eqn:E; [| discriminate]. eauto 6.
    + apply greedy_sound in H as (u & v & -> & Hu & Hm). simpl in Hm. eauto 6.
    + apply greedy_sound in H as (u & v & -> & Hu & Hm). simpl in Hm.
      destruct (is_nil u) eqn:En; [discriminate |]. apply is_nil_false in En.
      destruct (m ic r false v) as [caps' |] eqn:Hr; [| discriminate].
      injection Hm as <-. exists u, v, caps'. auto 7.
Qed.

Lemma m_complete (ic : bool) (r : regex) :
  forall bos s caps, den ic r bos s caps -> exists caps', m ic r bos s = Some caps'.
Proof.
  induction r as [|i r IH]; intros bos s caps H; simpl in *.
  - eauto.
  - destruct i.
    + destruct H as (-> & H). eauto.
    + destruct H as (-> & H). simpl. eauto.
    + destruct H as (c' & s' & -> & -> & H). eauto.
    + destruct H as (u & v & -> & Hu & H). destruct (IH _ _ _ H) as (caps' & Hm).
      eapply greedy_complete; [exact Hu | simpl; exact Hm].
    + destruct H as (u & v & caps0 & -> & Hne & Hu & H & _).
      destruct (IH _ _ _ H) as (caps' & Hm).
      eapply greedy_complete; [exact Hu |]. simpl.
      apply is_nil_false in Hne. rewrite Hne, Hm. reflexivity.
Qed.

Lemma exec_from_sound (ic : bool) (r : regex) :
  forall s bos caps,
    exec_from ic r bos s = Some caps ->
    exists pre post, s = pre ++ post /\ den ic r (bos && is_nil pre) post caps.
Proof.
  induction s as [|c s IH]; intros bos caps H; simpl in H.
  - destruct (m ic r bos []) eqn:Hm; [| discriminate]. injection H as <-.
    exists [], []. split; [reflexivity |]. rewrite andb_true_r. apply m_sound. exact Hm.
  - destruct (m ic r bos (c :: s)) eqn:Hm.
    + injection H as <-. exists [], (c :: s). split; [reflexivity |].
      rewrite andb_true_r. apply m_sound. exact Hm.
    + destruct (IH _ _ H) as (pre & post & -> & Hd).
      exists (c :: pre), post. split; [reflexivity |].
      simpl. rewrite andb_false_r. exact Hd.
Qed.

Lemma exec_anchored_complete (ic : bool) (r : regex) (s : jsstring) (caps : list jsstring) :
  den ic r true s caps -> exists caps', exec ic r s = Some caps'.
Proof.
  intros H. destruct (m_complete ic r true s caps H) as (caps' & Hm).
  exists caps'. unfold exec. destruct s; simpl; rewrite Hm; reflexivity.
Qed.

Lemma exec_bol_sound (ic : bool) (r : regex) (s : jsstring) (caps : list jsstring) :
  exec ic (Bol :: r) s = Some caps -> den ic r true s caps.
Proof.
  intros H. apply exec_from_sound in H as (pre & post & -> & Hb & Hd).
  simpl in Hb. destruct pre; [| discriminate]. simpl in *. exact Hd.
Qed.

(** ** Strings: classes, trimming and the first comma *)

Lemma forallb_app_iff {A : Type} (f : A -> bool) (l1 l2 : list A) :
  forallb f (l1 ++ l2) = true <-> forallb f l1 = true /\ forallb f l2 = true.
Proof. rewrite forallb_app. apply andb_true_iff. Qed.

Lemma space_not_comma (c : N) : is_space c = true -> (c =? COMMA) = false.
Proof.
  intros H. destruct (c =? COMMA) eqn:E; [| reflexivity].
  apply N.eqb_eq in E. subst c. vm_compute in H. discriminate.
Qed.

Lemma all_space_no_comma (w : jsstring) : all_space w = true -> no_comma w = true.
Proof.
  unfold all_space, no_comma. induction w as [|c w IH]; simpl; [auto |].
  intros H. apply andb_true_iff in H as (Hc & Hw).
  rewrite (space_not_comma c Hc). simpl. auto.
Qed.

Lemma trimStart_app_space (w s : jsstring) :
  all_space w = true -> trimStart (w ++ s) = trimStart s.
Proof.
  unfold all_space. induction w as [|c w IH]; simpl; [auto |].
  intros H. apply andb_true_iff in H as (-> & Hw). auto.
Qed.

Lemma trim_app_space (w s : jsstring) : all_space w = true -> trim (w ++ s) = trim s.
Proof. intros H. unfold trim. rewrite trimStart_app_space by exact H. reflexivity. Qed.

(** A string is cut at its first comma in one way only. *)
Lemma first_comma_unique (a a' b b' : jsstring) :
  no_comma a = true -> no_comma a' = true ->
  a ++ COMMA :: b = a' ++ COMMA :: b' -> a = a' /\ b = b'.
Proof.
  unfold no_comma. revert a'. induction a as [|c a IH]; intros a' Ha Ha' H.
  - destruct a' as [|c' a']; simpl in *.
    + injection H as <-. auto.
    + injection H as <- _. simpl in Ha'. discriminate.
  - destruct a' as [|c' a']; simpl in *.
    + injection H as -> _. simpl in Ha. discriminate.
    + injection H as <- H. apply andb_true_iff in Ha as (_ & Ha).
      apply andb_true_iff in Ha' as (_ & Ha').
      destruct (IH a' Ha Ha' H) as (-> & ->). auto.
Qed.

Lemma lit_comma (c : N) : lit_match false COMMA c = true -> c = COMMA.
Proof. unfold lit_match. intros H. apply N.eqb_eq in H. auto. Qed.

Lemma trimStart_nil (s : jsstring) : trimStart s = [] <-> all_space s = true.
Proof.
  unfold all_space. induction s as [|c s IH]; simpl; [tauto |].
  destruct (is_space c); simpl; [exact IH | split; discriminate].
Qed.

Lemma all_space_rev (s : jsstring) : all_space (rev s) = true <-> all_space s = true.
Proof.
  unfold all_space. rewrite !forallb_forall. split; intros H x Hx; apply H.
  - apply -> in_rev. exact Hx.
  - apply in_rev. exact Hx.
Qed.

Lemma trim_nil (s : jsstring) : trim s = [] <-> all_space s = true.
Proof.
  unfold trim, trimEnd. split.
  - intros H. apply (f_equal (@rev N)) in H. rewrite rev_involutive in H. simpl in H.
    apply trimStart_nil in H. apply (proj1 (all_space_rev _)) in H.
    destruct (trimStart s) as [|c l] eqn:E; [apply trimStart_nil; exact E |].
    exfalso. assert (Hc : is_space c = false).
    { destruct s as [|d s']; [discriminate |]. clear H. revert d E.
      induction s' as [|e s' IH]; intros d E; simpl in E.
      - destruct (is_space d) eqn:Ed; [discriminate | congruence].
      - destruct (is_space d) eqn:Ed; [apply (IH e); exact E | congruence]. }
    unfold all_space in H. simpl in H. unfold cmatch in H at 1. rewrite Hc in H.
    discriminate.
  - intros H. apply trimStart_nil in H. rewrite H. reflexivity.
Qed.



Lemma threePart_sound (s : jsstring) (caps : list jsstring) :
  threePartMatch s = Some caps ->
  exists g1 w1 g2 w2 g3,
    caps = [g1; g2; g3]
    /\ s = g1 ++ COMMA :: (w1 ++ g2) ++ COMMA :: w2 ++ g3
    /\ g1 <> [] /\ no_comma g1 = true /\ all_space w1 = true
    /\ g2 <> [] /\ no_comma g2 = true /\ all_space w2 = true
    /\ g3 <> [] /\ one_line g3 = true.
Proof.
  intros H. apply exec_bol_sound in H. simpl in H.
  destruct H as (g1 & v1 & caps1 & -> & Hg1 & Hn1 & (c1 & v2 & -> & Hc1
                 & (w1 & v3 & -> & Hw1 & (g2 & v4 & caps2 & -> & Hg2 & Hn2
                 & (c2 & v5 & -> & Hc2 & (w2 & v6 & -> & Hw2
                 & (g3 & v7 & caps3 & -> & Hg3 & Hn3 & (-> & ->) & ->)))
                 & ->))) & ->).
  apply lit_comma in Hc1, Hc2. subst c1 c2.
  exists g1, w1, g2, w2, g3. rewrite app_nil_r, <- app_assoc. simpl.
  repeat split; assumption.
Qed.

Lemma threePart_complete (X Y w t : jsstring) :
  X <> [] -> no_comma X = true -> Y <> [] -> no_comma Y = true ->
  all_space w = true -> t <> [] -> one_line t = true ->
  exists caps, threePartMatch (X ++ COMMA :: Y ++ COMMA :: w ++ t) = Some caps.
Proof.
  intros HX HnX HY HnY Hw Ht Hlt.
  apply (exec_anchored_complete false threePartRe _ [X; Y; t]). simpl.
  split; [reflexivity |].
  exists X, (COMMA :: Y ++ COMMA :: w ++ t), [Y; t]. repeat split; try assumption.
  exists COMMA, (Y ++ COMMA :: w ++ t). repeat split.
  exists [], (Y ++ COMMA :: w ++ t). repeat split.
  exists Y, (COMMA :: w ++ t), [t]. repeat split; try assumption.
  exists COMMA, (w ++ t). repeat split.
  exists w, t. repeat split; try assumption.
  exists t, [], []. rewrite app_nil_r. repeat split; assumption.
Qed.

Lemma simple_sound (s : jsstring) (caps : list jsstring) :
  simpleMatch s = Some caps ->
  exists g1 w g2,
    caps = [g1; g2]
    /\ s = g1 ++ COMMA :: w ++ g2
    /\ g1 <> [] /\ no_comma g1 = true /\ all_space w = true
    /\ g2 <> [] /\ one_line g2 = true.
Proof.
  intros H. apply exec_bol_sound in H. simpl in H.
  destruct H as (g1 & v1 & caps1 & -> & Hg1 & Hn1 & (c1 & v2 & -> & Hc1
                 & (w1 & v3 & -> & Hw1
                 & (g2 & v4 & caps2 & -> & Hg2 & Hn2 & (-> & ->) & ->))) & ->).
  apply lit_comma in Hc1. subst c1.
  exists g1, w1, g2. rewrite app_nil_r. repeat split; assumption.
Qed.

Lemma simple_complete (X w t : jsstring) :
  X <> [] -> no_comma X = true -> all_space w = true -> t <> [] -> one_line t = true ->
  exists caps, simpleMatch (X ++ COMMA :: w ++ t) = Some caps.
Proof.
  intros HX HnX Hw Ht Hlt.
  apply (exec_anchored_complete false simpleRe _ [X; t]). simpl.
  split; [reflexivity |].
  exists X, (COMMA :: w ++ t), [t]. repeat split; try assumption.
  exists COMMA, (w ++ t). repeat split.
  exists w, t. repeat split; try assumption.
  exists t, [], []. rewrite app_nil_r. repeat split; assumption.
Qed.

Lemma labeled_sound (s : jsstring) (caps : list jsstring) :
  labeledMatch s = Some caps ->
  exists g1 g2, caps = [g1; g2] /\ g1 <> [] /\ no_comma g1 = true
                /\ g2 <> [] /\ one_line g2 = true.
Proof.
  intros H. apply exec_from_sound in H as (pre & post & _ & H).
  unfold labeledRe in H. cbn [lits str list_ascii_of_string List.map app den] in H.
  repeat match goal with
         | H' : exists _, _ |- _ => destruct H' as (? & H')
         | H' : _ /\ _ |- _ => destruct H' as (? & H')
         end.
  subst. eauto 10.
Qed.

Lemma no_comma_app (a b : jsstring) :
  no_comma a = true -> no_comma b = true -> no_comma (a ++ b) = true.
Proof. intros Ha Hb. apply forallb_app_iff. auto. Qed.




(** ** [JSON.parse]: what a parsed text looks like, and fuel *)

Lemma skip_ws_split (s : jsstring) :
  exists ws, s = ws ++ skip_ws s /\ forallb json_ws ws = true.
Proof.
  induction s as [|c s (ws & IH & Hws)]; [exists []; auto |].
  simpl. destruct (json_ws c) eqn:E.
  - exists (c :: ws). simpl. rewrite E, Hws. split; [congruence | reflexivity].
  - exists []. auto.
Qed.

Lemma skip_ws_length (s : jsstring) : (length (skip_ws s) <= length s)%nat.
Proof.
  destruct (skip_ws_split s) as (ws & H & _). rewrite H at 2.
  rewrite length_app. lia.
Qed.

Lemma string_chars_split :
  forall (n : nat) (s acc v r : jsstring),
    (length s <= n)%nat -> string_chars s acc = Some (v, r) ->
    exists b, s = b ++ DQUOTE :: r.
Proof.
  induction n as [|n IH]; intros s acc v r Hn H.
  - destruct s; [discriminate | simpl in Hn; lia].
  - destruct s as [|c s]; [discriminate |]. simpl in H, Hn.
    destruct (c =? 34) eqn:Eq.
    { apply N.eqb_eq in Eq. subst c. injection H as _ <-. exists []. reflexivity. }
    destruct (c =? 92).
    + destruct s as [|e s]; [discriminate |]. simpl in Hn.
      destruct (e =? 117).
      * destruct s as [|h1 [|h2 [|h3 [|h4 s]]]]; try discriminate. simpl in Hn.
        destruct (hex4 h1 h2 h3 h4); [| discriminate].
        apply IH in H as (b & ->); [| lia].
        exists (c :: e :: h1 :: h2 :: h3 :: h4 :: b). reflexivity.
      * destruct (simple_escape e); [| discriminate].
        apply IH in H as (b & ->); [| lia].
        exists (c :: e :: b). reflexivity.
    + destruct (c <? 32); [discriminate |].
      apply IH in H as (b & ->); [| lia].
      exists (c :: b). reflexivity.
Qed.

Lemma digit_not_comma (c : N) : is_digit c = true -> cmatch NotComma c = true.
Proof.
  unfold is_digit, cmatch, COMMA. intros H. apply andb_true_iff in H as (H1 & H2).
  apply N.leb_le in H1. apply negb_true_iff. apply N.eqb_neq. lia.
Qed.

Lemma no_comma_cons (c : N) (d : jsstring) :
  cmatch NotComma c = true -> no_comma d = true -> no_comma (c :: d) = true.
Proof. intros Hc Hd. unfold no_comma in *. cbn [forallb]. rewrite Hc, Hd. reflexivity. Qed.

Lemma take_digits_split (s d r : jsstring) :
  take_digits s = (d, r) -> s = d ++ r /\ no_comma d = true.
Proof.
  revert d r. induction s as [|c s IH]; intros d r H; simpl in H.
  - injection H as <- <-. auto.
  - destruct (is_digit c) eqn:E.
    + destruct (take_digits s) as (d', r') eqn:Ht. injection H as <- <-.
      destruct (IH _ _ eq_refl) as (-> & Hd). split; [reflexivity |].
      apply no_comma_cons; [apply digit_not_comma; exact E | exact Hd].
    + injection H as <- <-. auto.
Qed.

Lemma int_part_split (s i r : jsstring) :
  int_part s = Some (i, r) -> s = i ++ r /\ no_comma i = true /\ i <> [].
Proof.
  destruct s as [|c s]; [discriminate |]. unfold int_part.
  destruct (c =? 48) eqn:E0.
  - intros H. injection H as <- <-. apply N.eqb_eq in E0. subst c. auto.
  - destruct (is_digit c) eqn:E; [| discriminate]. intros H.
    assert (H' : take_digits (c :: s) = (i, r)) by congruence.
    destruct (take_digits_split _ _ _ H') as (Hs & Hd). split; [exact Hs |].
    split; [exact Hd |]. intros ->. simpl in H'. rewrite E in H'.
    destruct (take_digits s). discriminate.
Qed.

Lemma frac_part_split (s f r : jsstring) :
  frac_part s = Some (f, r) -> exists b, s = b ++ r /\ no_comma b = true.
Proof.
  destruct s as [|c s]; simpl.
  - intros H. injection H as <- <-. exists []. auto.
  - destruct (c =? 46) eqn:E.
    + destruct (take_digits s) as (d, r') eqn:Ht. destruct d as [|d0 d]; [discriminate |].
      intros H. injection H as <- <-.
      destruct (take_digits_split _ _ _ Ht) as (-> & Hd).
      exists (c :: d0 :: d). split; [reflexivity |].
      apply N.eqb_eq in E. subst c. apply no_comma_cons; [reflexivity | exact Hd].
    + intros H. injection H as <- <-. exists []. auto.
Qed.

Lemma exp_digits_split (neg : bool) (s : jsstring) (e : Z) (r : jsstring) :
  exp_digits neg s = Some (e, r) -> exists b, s = b ++ r /\ no_comma b = true.
Proof.
  unfold exp_digits. destruct (take_digits s) as (d, r') eqn:Ht.
  destruct d as [|d0 d]; [discriminate |]. intros H. injection H as _ <-.
  destruct (take_digits_split _ _ _ Ht) as (-> & Hd). eauto.
Qed.

Lemma exp_part_split (s : jsstring) (e : Z) (r : jsstring) :
  exp_part s = Some (e, r) -> exists b, s = b ++ r /\ no_comma b = true.
Proof.
  destruct s as [|c s]; simpl.
  - intros H. injection H as _ <-. exists []. auto.
  - destruct ((c =? 101) || (c =? 69)) eqn:E.
    + assert (Hc : cmatch NotComma c = true).
      { apply orb_true_iff in E as [E | E]; apply N.eqb_eq in E; subst c; reflexivity. }
      destruct s as [|g s]; [discriminate |].
      destruct (g =? 43) eqn:E1; [| destruct (g =? 45) eqn:E2].
      * intros H. apply exp_digits_split in H as (b & -> & Hb).
        exists (c :: g :: b). split; [reflexivity |].
        apply N.eqb_eq in E1. subst g.
        apply no_comma_cons; [exact Hc | apply no_comma_cons; [reflexivity | exact Hb]].
      * intros H. apply exp_digits_split in H as (b & -> & Hb).
        exists (c :: g :: b). split; [reflexivity |].
        apply N.eqb_eq in E2. subst g.
        apply no_comma_cons; [exact Hc | apply no_comma_cons; [reflexivity | exact Hb]].
      * intros H. apply exp_digits_split in H as (b & Hs & Hb).
        exists (c :: b). rewrite Hs. split; [reflexivity |].
        apply no_comma_cons; [exact Hc | exact Hb].
    + intros H. injection H as _ <-. exists []. auto.
Qed.

Lemma number_body_split (s : jsstring) (v : JsValue) (r : jsstring) :
  number_body s = POk v r -> exists b, s = b ++ r /\ no_comma b = true /\ b <> [].
Proof.
  unfold number_body.
  destruct (int_part s) as [(i, r1) |] eqn:Hi; [| discriminate].
  destruct (frac_part r1) as [(f, r2) |] eqn:Hf; [| discriminate].
  destruct (exp_part r2) as [(e, r3) |] eqn:He; [| discriminate].
  intros H. injection H as _ <-.
  apply int_part_split in Hi as (-> & Hni & Hne).
  apply frac_part_split in Hf as (bf & -> & Hnf).
  apply exp_part_split in He as (be & -> & Hne').
  exists (i ++ bf ++ be). rewrite <- !app_assoc. split; [reflexivity |].
  split; [repeat apply no_comma_app; assumption |].
  destruct i; [congruence | discriminate].
Qed.

Lemma strip_prefix_split (p s r : jsstring) : strip_prefix p s = Some r -> s = p ++ r.
Proof.
  revert s. induction p as [|a p IH]; intros s H; simpl in H.
  - injection H as <-. reflexivity.
  - destruct s as [|c s]; [discriminate |]. destruct (a =? c) eqn:E; [| discriminate].
    apply N.eqb_eq in E. subst c. rewrite (IH _ H). reflexivity.
Qed.

Lemma value_shape_nonempty (body : jsstring) : value_shape body -> body <> [].
Proof. intros [(_ & H) | (c & b & d & -> & _)]; [exact H | discriminate]. Qed.

Lemma parse_key_split (s k r : jsstring) :
  parse_key s = Some (k, r) -> exists b, s = b ++ r /\ b <> [].
Proof.
  destruct s as [|c s]; [discriminate |]. simpl.
  destruct (c =? 34); [| discriminate]. intros H.
  apply (string_chars_split (length s)) in H as (b & ->); [| lia].
  exists (c :: b ++ [DQUOTE]). simpl. rewrite <- app_assoc. split; [reflexivity | discriminate].
Qed.

Lemma literal_split (word : string) (v0 v : JsValue) (s r : jsstring) :
  no_comma (str word) = true -> str word <> [] ->
  literal word v0 s = POk v r -> exists b, s = b ++ r /\ value_shape b.
Proof.
  intros Hn Hne. unfold literal.
  destruct (strip_prefix (str word) s) as [r' |] eqn:E; [| discriminate].
  intros H. injection H as _ <-. apply strip_prefix_split in E.
  exists (str word). split; [exact E | left; auto].
Qed.

Lemma parse_scalar_split (s : jsstring) (v : JsValue) (r : jsstring) :
  parse_scalar s = POk v r -> exists b, s = b ++ r /\ value_shape b.
Proof.
  destruct s as [|c s]; [discriminate |]. unfold parse_scalar.
  destruct (c =? 34) eqn:E34.
  { destruct (string_chars s []) as [(v', r') |] eqn:Hs; [| discriminate].
    intros H. injection H as _ <-.
    apply (string_chars_split (length s)) in Hs as (b & ->); [| lia].
    exists (c :: b ++ [DQUOTE]). simpl. rewrite <- app_assoc. split; [reflexivity |].
    right. exists c, b, DQUOTE. split; [reflexivity |]. unfold opener. rewrite E34. auto. }
  destruct (c =? 116); [apply literal_split; [reflexivity | discriminate] |].
  destruct (c =? 102); [apply literal_split; [reflexivity | discriminate] |].
  destruct (c =? 110); [apply literal_split; [reflexivity | discriminate] |].
  destruct (c =? 45) eqn:E45.
  - intros H. apply number_body_split in H as (b & -> & Hb & Hne).
    exists (c :: b). split; [reflexivity |]. left. split; [| discriminate].
    apply N.eqb_eq in E45. subst c. apply no_comma_cons; [reflexivity | exact Hb].
  - intros H. apply number_body_split in H as (b & Hs & Hb & Hne).
    exists b. split; [exact Hs | left; auto].
Qed.

Lemma parser_split (fuel : nat) :
  (forall s v r, parse_value fuel s = POk v r -> exists b, s = b ++ r /\ value_shape b)
  /\ (forall s acc vs r,
        parse_elements fuel s acc = POk vs r -> exists b, s = b ++ 93 :: r)
  /\ (forall s acc ms r,
        parse_members fuel s acc = POk ms r -> exists b, s = b ++ 125 :: r).
Proof.
  induction fuel as [|f (IHv & IHe & IHm)]; [repeat split; intros; discriminate |].
  split; [| split].
  - intros s v r H. destruct s as [|c s]; [discriminate |]. cbn [parse_value] in H.
    destruct (c =? 123) eqn:E1; [| destruct (c =? 91) eqn:E2].
    + destruct (skip_ws_split s) as (ws & Hs & _).
      destruct (skip_ws s) as [|d r0]; [discriminate |].
      destruct (d =? 125) eqn:Ed.
      * injection H as _ <-. apply N.eqb_eq in Ed. subst d.
        exists (c :: ws ++ [125]). split; [rewrite Hs; list_eq |].
        right. exists c, ws, 125.
        split; [reflexivity |]. unfold opener. rewrite E1, !orb_true_r. auto.
      * destruct (parse_members f (d :: r0) []) as [ms r' | |] eqn:Hm; try discriminate.
        injection H as _ <-. apply IHm in Hm as (b & Hb).
        exists (c :: (ws ++ b) ++ [125]). split; [rewrite Hs, Hb; list_eq |].
        right. exists c, (ws ++ b), 125.
        split; [reflexivity |]. unfold opener. rewrite E1, !orb_true_r. auto.
    + destruct (skip_ws_split s) as (ws & Hs & _).
      destruct (skip_ws s) as [|d r0]; [discriminate |].
      destruct (d =? 93) eqn:Ed.
      * injection H as _ <-. apply N.eqb_eq in Ed. subst d.
        exists (c :: ws ++ [93]). split; [rewrite Hs; list_eq |].
        right. exists c, ws, 93.
        split; [reflexivity |]. unfold opener. rewrite E2, !orb_true_r. auto.
      * destruct (parse_elements f (d :: r0) []) as [vs r' | |] eqn:Hm; try discriminate.
        injection H as _ <-. apply IHe in Hm as (b & Hb).
        exists (c :: (ws ++ b) ++ [93]). split; [rewrite Hs, Hb; list_eq |].
        right. exists c, (ws ++ b), 93.
        split; [reflexivity |]. unfold opener. rewrite E2, !orb_true_r. auto.
    + apply (parse_scalar_split _ v). exact H.
  - intros s acc vs r H. cbn [parse_elements] in H.
    destruct (parse_value f s) as [v r1 | |] eqn:Hv; try discriminate.
    apply IHv in Hv as (b & -> & _).
    destruct (skip_ws_split r1) as (ws & Hs & _).
    destruct (skip_ws r1) as [|c r']; [discriminate |].
    destruct (c =? 44) eqn:E1; [| destruct (c =? 93) eqn:E2; [| discriminate]].
    + apply IHe in H as (b2 & Hb2). destruct (skip_ws_split r') as (ws2 & Hs2 & _).
      exists (b ++ ws ++ c :: ws2 ++ b2). rewrite Hs, Hs2, Hb2. list_eq.
    + injection H as _ <-. apply N.eqb_eq in E2. subst c.
      exists (b ++ ws). rewrite Hs. list_eq.
  - intros s acc ms r H. cbn [parse_members] in H.
    destruct (parse_key s) as [(k, r0) |] eqn:Hk; [| discriminate].
    apply parse_key_split in Hk as (bk & -> & _).
    destruct (skip_ws_split r0) as (ws0 & Hs0 & _).
    destruct (skip_ws r0) as [|c0 r1]; [discriminate |].
    destruct (c0 =? 58); [| discriminate].
    destruct (skip_ws_split r1) as (ws1 & Hs1 & _).
    destruct (parse_value f (skip_ws r1)) as [v r2 | |] eqn:Hv; try discriminate.
    apply IHv in Hv as (b & Hb & _).
    destruct (skip_ws_split r2) as (ws & Hs & _).
    destruct (skip_ws r2) as [|c r']; [discriminate |].
    destruct (c =? 44) eqn:E1; [| destruct (c =? 125) eqn:E2; [| discriminate]].
    + apply IHm in H as (b2 & Hb2). destruct (skip_ws_split r') as (ws2 & Hs2 & _).
      exists (bk ++ ws0 ++ c0 :: ws1 ++ b ++ ws ++ c :: ws2 ++ b2).
      rewrite Hs0, Hs1, Hb, Hs, Hs2, Hb2. list_eq.
    + injection H as _ <-. apply N.eqb_eq in E2. subst c.
      exists (bk ++ ws0 ++ c0 :: ws1 ++ b ++ ws).
      rewrite Hs0, Hs1, Hb, Hs. list_eq.
Qed.

Lemma parse_value_split fuel s v r :
  parse_value fuel s = POk v r -> exists b, s = b ++ r /\ value_shape b.
Proof. apply parser_split. Qed.

Lemma parse_value_shorter fuel s v r :
  parse_value fuel s = POk v r -> (length r < length s)%nat.
Proof.
  intros H. apply parse_value_split in H as (b & -> & Hb).
  apply value_shape_nonempty in Hb. rewrite length_app.
  destruct b; [congruence | simpl; lia].
Qed.

(** The fuel of [JSON_parse] is never used up. *)
Lemma parser_fuel (fuel : nat) :
  (forall s, (2 * length s + 1 <= fuel)%nat -> parse_value fuel s <> PFuel)
  /\ (forall s acc, (2 * length s + 2 <= fuel)%nat -> parse_elements fuel s acc <> PFuel)
  /\ (forall s acc, (2 * length s + 2 <= fuel)%nat -> parse_members fuel s acc <> PFuel).
Proof.
  induction fuel as [|f (IHv & IHe & IHm)]; [repeat split; intros; lia |].
  split; [| split].
  - intros s Hf. destruct s as [|c s]; [discriminate |]. cbn [parse_value].
    simpl in Hf. pose proof (skip_ws_length s) as Hl.
    destruct (c =? 123); [| destruct (c =? 91)].
    + destruct (skip_ws s) as [|d r0]; [discriminate |].
      destruct (d =? 125); [discriminate |].
      specialize (IHm (d :: r0) []). simpl in Hl, IHm.
      destruct (parse_members f (d :: r0) []); try discriminate.
      exfalso. apply IHm; [lia | reflexivity].
    + destruct (skip_ws s) as [|d r0]; [discriminate |].
      destruct (d =? 93); [discriminate |].
      specialize (IHe (d :: r0) []). simpl in Hl, IHe.
      destruct (parse_elements f (d :: r0) []); try discriminate.
      exfalso. apply IHe; [lia | reflexivity].
    + unfold parse_scalar.
      destruct (c =? 34); [destruct (string_chars s []) as [(?, ?) |]; discriminate |].
      unfold literal, number_body.
      repeat match goal with
             | |- context [if ?b then _ else _] => destruct b
             | |- context [match ?x with _ => _ end] => destruct x
             end; discriminate.
  - intros s acc Hf. cbn [parse_elements].
    destruct (parse_value f s) as [v r1 | |] eqn:Hv; [| discriminate |].
    + apply parse_value_shorter in Hv. pose proof (skip_ws_length r1) as Hl.
      destruct (skip_ws r1) as [|c r']; [discriminate |]. simpl in Hl.
      destruct (c =? 44); [| destruct (c =? 93); discriminate].
      apply IHe. pose proof (skip_ws_length r'). lia.
    + exfalso. revert Hv. apply IHv. lia.
  - intros s acc Hf. cbn [parse_members].
    destruct (parse_key s) as [(k, r0) |] eqn:Hk; [| discriminate].
    apply parse_key_split in Hk as (bk & -> & Hbk). rewrite length_app in Hf.
    assert (length bk >= 1)%nat by (destruct bk; [congruence | simpl; lia]).
    pose proof (skip_ws_length r0) as Hl0.
    destruct (skip_ws r0) as [|c0 r1]; [discriminate |]. simpl in Hl0.
    destruct (c0 =? 58); [| discriminate].
    pose proof (skip_ws_length r1) as Hl1.
    destruct (parse_value f (skip_ws r1)) as [v r2 | |] eqn:Hv; [| discriminate |].
    + apply parse_value_shorter in Hv. pose proof (skip_ws_length r2) as Hl.
      destruct (skip_ws r2) as [|c r']; [discriminate |]. simpl in Hl.
      destruct (c =? 44); [| destruct (c =? 125); discriminate].
      apply IHm. pose proof (skip_ws_length r'). lia.
    + exfalso. revert Hv. apply IHv. lia.
Qed.

Lemma JSON_parse_fuel (text : jsstring) : JSON_parse text <> Throw RangeError.
Proof.
  unfold JSON_parse.
  destruct (parse_value (json_fuel text) (skip_ws text)) as [v r | |] eqn:H.
  - destruct (is_nil (skip_ws r)); discriminate.
  - discriminate.
  - exfalso. revert H. apply parser_fuel. unfold json_fuel.
    pose proof (skip_ws_length text). lia.
Qed.

(** ** The parser: totality, the structured form and the lines *)

Lemma parse_falls_to_lines (qrData : jsstring) :
  byRegex qrData = None ->
  (forall i, tryJSON qrData <> Normal (Some i)) ->
  parseQRContent qrData = Normal (byLines qrData).
Proof.
  intros Hr Hj. unfold parseQRContent. rewrite Hr.
  destruct (tryJSON qrData) as [[i |] | e]; [| reflexivity | reflexivity].
  exfalso. apply (Hj i). reflexivity.
Qed.

Lemma byRegex_none (qrData : jsstring) :
  threePartMatch qrData = None -> labeledMatch qrData = None ->
  simpleMatch qrData = None -> byRegex qrData = None.
Proof. intros H1 H2 H3. unfold byRegex. rewrite H1, H2, H3. reflexivity. Qed.

Lemma tryJSON_throw (qrData : jsstring) (e : exn) :
  JSON_parse qrData = Throw e -> tryJSON qrData = Throw e.
Proof. intros H. unfold tryJSON. rewrite H. reflexivity. Qed.

Lemma byLines_short (qrData : jsstring) :
  (length (nonblank_lines qrData) < 2)%nat ->
  byLines qrData = {| name := []; country := [] |}.
Proof.
  unfold byLines. destruct (nonblank_lines qrData) as [|l0 [|l1 [|l2 rest]]]; simpl;
    intros H; try reflexivity; lia.
Qed.

(** C7: [parseQRContent] returns an [Identity] for every input and never
    completes by a throw: the exceptions of the structured strategy (a
    [SyntaxError] of [JSON.parse], a [TypeError] of a property read or of a
    call of [trim]) are caught and the next strategy is tried; the fuel of
    the model of [JSON.parse] is never used up.  An input that no strategy
    matches yields the identity with two empty fields. *)
Theorem parseQRContent_total :
  forall qrData : jsstring,
    (exists i, parseQRContent qrData = Normal i)
    /\ JSON_parse qrData <> Throw RangeError
    /\ (byRegex qrData = None ->
        forall e, tryJSON qrData = Throw e ->
                  parseQRContent qrData = Normal (byLines qrData))
    /\ (threePartMatch qrData = None ->
        labeledMatch qrData = None ->
        simpleMatch qrData = None ->
        (forall i, tryJSON qrData <> Normal (Some i)) ->
        (length (nonblank_lines qrData) < 2)%nat ->
        parseQRContent qrData = Normal {| name := []; country := [] |}).
Proof.
  intros qrData. split; [apply parseQRContent_returns |].
  split; [apply JSON_parse_fuel |]. split.
  - intros Hr e He. apply parse_falls_to_lines; [exact Hr |]. congruence.
  - intros H1 H2 H3 Hj Hl.
    rewrite parse_falls_to_lines by (try apply byRegex_none; assumption).
    rewrite byLines_short by exact Hl. reflexivity.
Qed.

Example parse_not_json :
  tryJSON (str "hello") = Throw SyntaxError
  /\ parseQRContent (str "hello") = Normal {| name := []; country := [] |}.
Proof. vm_compute. auto. Qed.

Example parse_json_null :
  tryJSON (str "null") = Throw TypeError
  /\ parseQRContent (str "null") = Normal {| name := []; country := [] |}.
Proof. vm_compute. auto. Qed.

Example parse_json_number_name :
  tryJSON (strq "{'name': 5|,|'country': 'US'|}") = Throw TypeError.
Proof. vm_compute. reflexivity. Qed.

(** *** The lines *)

Lemma split_nonempty (sep : N) (s : jsstring) : split sep s <> [].
Proof.
  destruct s as [|c s]; simpl; [discriminate |].
  destruct (c =? sep); [discriminate |]. destruct (split sep s); discriminate.
Qed.

Lemma split_join (sep : N) (s : jsstring) : join [sep] (split sep s) = s.
Proof.
  induction s as [|c s IH]; [reflexivity |]. simpl.
  destruct (c =? sep) eqn:E.
  - apply N.eqb_eq in E. subst c. pose proof (split_nonempty sep s) as Hne.
    destruct (split sep s) as [|l ls]; [congruence |].
    change (join [sep] ([] :: l :: ls)) with ([] ++ [sep] ++ join [sep] (l :: ls)).
    rewrite IH. reflexivity.
  - destruct (split sep s) as [|l ls] eqn:Hs; [exfalso; eapply split_nonempty; eauto |].
    rewrite <- IH. destruct ls; reflexivity.
Qed.

Lemma split_no_sep (sep : N) (s : jsstring) :
  Forall (fun l => forallb (fun c => negb (c =? sep)) l = true) (split sep s).
Proof.
  induction s as [|c s IH]; simpl; [constructor; [reflexivity | constructor] |].
  destruct (c =? sep) eqn:E; [constructor; [reflexivity | exact IH] |].
  destruct (split sep s) as [|l ls]; [constructor; [simpl; rewrite E; reflexivity | constructor] |].
  inversion IH as [| ? ? Hl Hls]; subst. constructor; [| exact Hls].
  simpl. rewrite E, Hl. reflexivity.
Qed.

(** C8 (amended): the multi-line strategy cuts the payload at its line
    feeds and drops the lines that are blank after trimming.  For a payload
    that reaches it, two non-blank lines give name [line0] and country
    [line1]; three or more give name [line0, line1] and country [line2],
    the lines after the third being ignored; fewer than two give the
    empty identity.  Every line is trimmed. *)
Theorem lines_strategy :
  forall payload : jsstring,
    byRegex payload = None ->
    (forall i, tryJSON payload <> Normal (Some i)) ->
    join [LF] (split LF payload) = payload
    /\ Forall (fun l => forallb (fun c => negb (c =? LF)) l = true) (split LF payload)
    /\ nonblank_lines payload
       = List.filter (fun l => negb (is_nil (trim l))) (split LF payload)
    /\ (forall l0 l1,
          nonblank_lines payload = [l0; l1] ->
          parseQRContent payload = Normal {| name := trim l0; country := trim l1 |})
    /\ (forall l0 l1 l2 rest,
          nonblank_lines payload = l0 :: l1 :: l2 :: rest ->
          parseQRContent payload
          = Normal {| name := trim l0 ++ comma_space ++ trim l1; country := trim l2 |})
    /\ ((length (nonblank_lines payload) < 2)%nat ->
        parseQRContent payload = Normal {| name := []; country := [] |}).
Proof.
  intros payload Hr Hj. split; [apply split_join |]. split; [apply split_no_sep |].
  split; [reflexivity |]. rewrite (parse_falls_to_lines payload Hr Hj).
  split; [| split].
  - intros l0 l1 H. unfold byLines. rewrite H. reflexivity.
  - intros l0 l1 l2 rest H. unfold byLines. rewrite H. reflexivity.
  - intros H. rewrite byLines_short by exact H. reflexivity.
Qed.

Lemma P_lines3_reaches :
  byRegex P_lines3 = None /\ forall i, tryJSON P_lines3 <> Normal (Some i).
Proof.
  split; [vm_compute; reflexivity |].
  intros i. replace (tryJSON P_lines3) with (@Throw (option Identity) SyntaxError)
    by (vm_compute; reflexivity).
  discriminate.
Qed.

Lemma lines_strategy_witness :
  parseQRContent P_lines3 = Normal {| name := str "DOE, John"; country := str "USA" |}.
Proof.
  destruct P_lines3_reaches as (Hr & Hj).
  pose proof (lines_strategy P_lines3 Hr Hj) as (_ & _ & _ & _ & H3 & _).
  apply (H3 (str " DOE ") (str "John ") (str " USA") []).
  vm_compute. reflexivity.
Defined.

(** C8, as stated, fails: four non-blank lines are read as the
    three-line shape. *)
Lemma four_lines_match :
  byRegex P_lines4 = None
  /\ tryJSON P_lines4 = Throw SyntaxError
  /\ nonblank_lines P_lines4 = [str "A"; str "B"; str "C"; str "D"]
  /\ parseQRContent P_lines4 = Normal {| name := str "A, B"; country := str "C" |}.
Proof. vm_compute. repeat split; reflexivity. Qed.

(** *** The structured form *)

Lemma tryJSON_name_country payload ms n c :
  JSON_parse payload = Normal (JObject ms) ->
  field ms "name" = Some (JString n) -> field ms "country" = Some (JString c) ->
  n <> [] -> c <> [] ->
  tryJSON payload = Normal (Some {| name := trim n; country := trim c |}).
Proof.
  intros Hp Hn Hc Hne Hce. unfold tryJSON. rewrite Hp. unfold field in *.
  unfold and_then, truthy_get, trim_get, get, bind. rewrite Hn, Hc. simpl.
  apply is_nil_false in Hne, Hce. rewrite Hne, Hce. reflexivity.
Qed.

Lemma tryJSON_last_first payload ms l f c :
  JSON_parse payload = Normal (JObject ms) ->
  truthy (field ms "name") = false ->
  field ms "lastName" = Some (JString l) -> field ms "firstName" = Some (JString f) ->
  field ms "country" = Some (JString c) ->
  l <> [] -> f <> [] -> c <> [] ->
  tryJSON payload
  = Normal (Some {| name := trim l ++ comma_space ++ trim f; country := trim c |}).
Proof.
  intros Hp Hn Hl Hf Hc Hle Hfe Hce. unfold tryJSON. rewrite Hp. unfold field in *.
  unfold and_then, truthy_get, trim_get, get, bind. rewrite Hn, Hl, Hf, Hc. simpl.
  apply is_nil_false in Hle, Hfe, Hce. rewrite Hle, Hfe, Hce. reflexivity.
Qed.

Lemma tryJSON_not_object payload v :
  JSON_parse payload = Normal v -> (forall ms, v <> JObject ms) ->
  forall i, tryJSON payload <> Normal (Some i).
Proof.
  intros Hp Hv i. unfold tryJSON. rewrite Hp.
  destruct v; try discriminate. exfalso. eapply Hv. reflexivity.
Qed.

Lemma call_trim_truthy (v : option JsValue) :
  truthy v = true ->
  (exists s, v = Some (JString s) /\ s <> [] /\ call_trim v = Normal (trim s))
  \/ ((forall s, v <> Some (JString s)) /\ call_trim v = Throw TypeError).
Proof.
  destruct v as [[| b | mant e | s | l | ms] |]; simpl; intros H;
    try discriminate; try (right; split; [discriminate | reflexivity]).
  left. exists s. split; [reflexivity |]. split; [| reflexivity].
  apply is_nil_false. apply negb_true_iff. exact H.
Qed.

Lemma text_field_truthy ms key : text_field ms key -> truthy (field ms key) = true.
Proof.
  intros (s & -> & Hs). simpl. apply negb_true_iff. apply is_nil_false. exact Hs.
Qed.

(** The structured strategy on an object, case by case. *)
Lemma tryJSON_object payload ms :
  JSON_parse payload = Normal (JObject ms) ->
  (text_field ms "name" /\ text_field ms "country"
   /\ exists i, tryJSON payload = Normal (Some i))
  \/ (truthy (field ms "name") = false
      /\ text_field ms "lastName" /\ text_field ms "firstName" /\ text_field ms "country"
      /\ exists i, tryJSON payload = Normal (Some i))
  \/ (~ (text_field ms "name" /\ text_field ms "country")
      /\ ~ (truthy (field ms "name") = false
            /\ text_field ms "lastName" /\ text_field ms "firstName"
            /\ text_field ms "country")
      /\ (tryJSON payload = Normal None \/ tryJSON payload = Throw TypeError)).
Proof.
  intros Hp. unfold tryJSON. rewrite Hp.
  unfold and_then, truthy_get, trim_get, get, bind. fold (field ms "name").
  fold (field ms "country"). fold (field ms "lastName"). fold (field ms "firstName").
  destruct (truthy (field ms "name")) eqn:Tn.
  - destruct (truthy (field ms "country")) eqn:Tc.
    + destruct (call_trim_truthy _ Tn) as [(n & Hn & Hne & ->) | (Hn & ->)].
      * destruct (call_trim_truthy _ Tc) as [(c & Hc & Hce & ->) | (Hc & ->)].
        -- left. split; [exists n; auto |]. split; [exists c; auto |]. eauto.
        -- right. right. split; [| split; [| auto]].
           ++ intros (_ & c & Hc' & _). apply (Hc c). exact Hc'.
           ++ intros (H & _). discriminate.
      * right. right. split; [| split; [| auto]].
        -- intros ((n & Hn' & _) & _). apply (Hn n). exact Hn'.
        -- intros (H & _). discriminate.
    + right. right. split; [| split].
      * intros (_ & H). apply text_field_truthy in H. congruence.
      * intros (H & _). discriminate.
      * destruct (truthy (field ms "lastName")); [| auto].
        destruct (truthy (field ms "firstName")); auto.
  - assert (Hnot : ~ (text_field ms "name" /\ text_field ms "country")).
    { intros (H & _). apply text_field_truthy in H. congruence. }
    destruct (truthy (field ms "lastName")) eqn:Tl;
      [| right; right; split; [exact Hnot |]; split; [| auto];
         intros (_ & H & _); apply text_field_truthy in H; congruence].
    destruct (truthy (field ms "firstName")) eqn:Tf;
      [| right; right; split; [exact Hnot |]; split; [| auto];
         intros (_ & _ & H & _); apply text_field_truthy in H; congruence].
    destruct (truthy (field ms "country")) eqn:Tc;
      [| right; right; split; [exact Hnot |]; split; [| auto];
         intros (_ & _ & _ & H); apply text_field_truthy in H; congruence].
    destruct (call_trim_truthy _ Tl) as [(l & Hl & Hle & ->) | (Hl & ->)];
      [| right; right; split; [exact Hnot |]; split; [| auto];
         intros (_ & (l & Hl' & _) & _); apply (Hl l); exact Hl'].
    destruct (call_trim_truthy _ Tf) as [(f & Hf & Hfe & ->) | (Hf & ->)];
      [| right; right; split; [exact Hnot |]; split; [| auto];
         intros (_ & _ & (f & Hf' & _) & _); apply (Hf f); exact Hf'].
    destruct (call_trim_truthy _ Tc) as [(c & Hc & Hce & ->) | (Hc & ->)];
      [| right; right; split; [exact Hnot |]; split; [| auto];
         intros (_ & _ & _ & (c & Hc' & _)); apply (Hc c); exact Hc'].
    right. left. split; [reflexivity |].
    split; [exists l; auto |]. split; [exists f; auto |]. split; [exists c; auto |].
    eauto.
Qed.

(** C6 (amended): for a payload that strategies 1 to 3 do not match and
    that is a well-formed object, non-empty string fields [name] and
    [country] are returned trimmed; when [name] is absent or falsy, non-empty
    string fields [lastName], [firstName] and [country] give the name
    [lastName, firstName] and the country, each trimmed.  Every other
    object (a field that is absent, empty or falsy, or a truthy field that
    is not a string, whose [trim] throws), a text that is not well-formed
    and a value that is not an object lead to the line strategy, not to an
    error. *)
Theorem structured_strategy :
  forall payload : jsstring,
    byRegex payload = None ->
    (forall ms n c,
       JSON_parse payload = Normal (JObject ms) ->
       field ms "name" = Some (JString n) -> field ms "country" = Some (JString c) ->
       n <> [] -> c <> [] ->
       parseQRContent payload = Normal {| name := trim n; country := trim c |})
    /\ (forall ms l f c,
          JSON_parse payload = Normal (JObject ms) ->
          truthy (field ms "name") = false ->
          field ms "lastName" = Some (JString l) ->
          field ms "firstName" = Some (JString f) ->
          field ms "country" = Some (JString c) ->
          l <> [] -> f <> [] -> c <> [] ->
          parseQRContent payload
          = Normal {| name := trim l ++ comma_space ++ trim f; country := trim c |})
    /\ (forall e, JSON_parse payload = Throw e ->
                  parseQRContent payload = Normal (byLines payload))
    /\ (forall v, JSON_parse payload = Normal v -> (forall ms, v <> JObject ms) ->
                  parseQRContent payload = Normal (byLines payload))
    /\ (forall ms,
          JSON_parse payload = Normal (JObject ms) ->
          ~ (text_field ms "name" /\ text_field ms "country") ->
          ~ (truthy (field ms "name") = false
             /\ text_field ms "lastName" /\ text_field ms "firstName"
             /\ text_field ms "country") ->
          parseQRContent payload = Normal (byLines payload))
    /\ (forall ms s,
          JSON_parse payload = Normal (JObject ms) ->
          field ms "name" = Some (JString s) -> s = [] \/ field ms "country" = None ->
          ~ (text_field ms "lastName" /\ text_field ms "firstName"
             /\ text_field ms "country") ->
          parseQRContent payload = Normal (byLines payload))
    /\ (forall ms v,
          JSON_parse payload = Normal (JObject ms) ->
          field ms "name" = Some v -> truthy (Some v) = true ->
          (forall s, v <> JString s) ->
          parseQRContent payload = Normal (byLines payload)).
Proof.
  intros payload Hr.
  assert (Hmiss : forall ms,
             JSON_parse payload = Normal (JObject ms) ->
             ~ (text_field ms "name" /\ text_field ms "country") ->
             ~ (truthy (field ms "name") = false
                /\ text_field ms "lastName" /\ text_field ms "firstName"
                /\ text_field ms "country") ->
             parseQRContent payload = Normal (byLines payload)).
  { intros ms Hp H1 H2. unfold parseQRContent. rewrite Hr.
    destruct (tryJSON_object payload ms Hp)
      as [(Ha & Hb & _) | [(Ha & Hb & Hc & Hd & _) | (_ & _ & [-> | ->])]];
      try reflexivity; exfalso; auto. }
  split; [| split; [| split; [| split; [| split; [| split]]]]].
  - intros ms n c Hp Hn Hc Hne Hce. unfold parseQRContent. rewrite Hr.
    rewrite (tryJSON_name_country payload ms n c) by assumption. reflexivity.
  - intros ms l f c Hp Hn Hl Hf Hc Hle Hfe Hce. unfold parseQRContent. rewrite Hr.
    rewrite (tryJSON_last_first payload ms l f c) by assumption. reflexivity.
  - intros e He. apply parse_falls_to_lines; [exact Hr |].
    rewrite (tryJSON_throw payload e He). discriminate.
  - intros v Hp Hv. apply parse_falls_to_lines; [exact Hr |].
    apply (tryJSON_not_object payload v Hp Hv).
  - exact Hmiss.
  - intros ms s Hp Hn Hs Hlast. apply (Hmiss ms Hp).
    + intros ((n & Hn' & Hne) & (c & Hc & _)). rewrite Hn in Hn'.
      destruct Hs as [-> | Hs]; congruence.
    + intros (_ & H). apply Hlast. exact H.
  - intros ms v Hp Hn Hv Hs. apply (Hmiss ms Hp).
    + intros ((n & Hn' & _) & _). rewrite Hn in Hn'. injection Hn' as ->.
      apply (Hs n). reflexivity.
    + intros (H & _). rewrite Hn in H. congruence.
Qed.

Lemma structured_strategy_witness :
  parseQRContent P_json = Normal {| name := str "Ann"; country := str "US" |}
  /\ parseQRContent P_json_number_name
     = Normal {| name := strq "{'name': 5, ,"; country := strq "'country': 'US'" |}.
Proof.
  split.
  - assert (Hr : byRegex P_json = None) by (vm_compute; reflexivity).
    pose proof (structured_strategy P_json Hr) as (H & _).
    apply (H [(str "name", JString (str " Ann ")); (str "country", JString (str "US"))]
             (str " Ann ") (str "US"));
      solve [vm_compute; reflexivity | discriminate].
  - assert (Hr : byRegex P_json_number_name = None) by (vm_compute; reflexivity).
    pose proof (structured_strategy P_json_number_name Hr) as (_ & _ & _ & _ & _ & _ & H).
    rewrite (H [(str "name", JNumber 5 0); (str "country", JString (str "US"))]
               (JNumber 5 0));
      solve [vm_compute; reflexivity | discriminate].
Defined.

(** C6, as stated, fails: a well-formed object with the fields [name] and
    [country], the name being the empty string, is not returned as these
    two values; the line strategy reads its three lines. *)
Lemma empty_name_not_returned :
  byRegex P_json_empty_name = None
  /\ JSON_parse P_json_empty_name
     = Normal (JObject [(str "name", JString []); (str "country", JString (str "US"))])
  /\ parseQRContent P_json_empty_name
     = Normal {| name := strq "{'name':'',, 'country':'US'"; country := str "}" |}
  /\ parseQRContent P_json_empty_name <> Normal {| name := []; country := str "US" |}.
Proof. vm_compute. repeat split; try reflexivity. discriminate. Qed.

(** *** Single-line JSON text with a comma *)

Lemma JSON_text_shape (text : jsstring) (v : JsValue) :
  JSON_parse text = Normal v ->
  exists ws1 body ws2,
    text = ws1 ++ body ++ ws2
    /\ forallb json_ws ws1 = true /\ forallb json_ws ws2 = true /\ value_shape body.
Proof.
  unfold JSON_parse. intros H.
  destruct (parse_value (json_fuel text) (skip_ws text)) as [v' r | |] eqn:Hv;
    try discriminate.
  destruct (is_nil (skip_ws r)) eqn:Hr; [| discriminate].
  apply is_nil_true in Hr. apply parse_value_split in Hv as (body & Hb & Hshape).
  destruct (skip_ws_split text) as (ws1 & Ht & Hws1).
  destruct (skip_ws_split r) as (ws2 & Hr2 & Hws2).
  rewrite Hr, app_nil_r in Hr2. subst r.
  exists ws1, body, ws2. rewrite Ht at 1. rewrite Hb. auto.
Qed.

Lemma split_first_comma (s : jsstring) :
  In COMMA s -> exists a b, s = a ++ COMMA :: b /\ no_comma a = true.
Proof.
  induction s as [|c s IH]; [intros [] |]. intros Hin.
  destruct (c =? COMMA) eqn:E.
  - apply N.eqb_eq in E. subst c. exists [], s. auto.
  - destruct Hin as [-> | Hin]; [rewrite N.eqb_refl in E; discriminate |].
    destruct (IH Hin) as (a & b & -> & Ha). exists (c :: a), b.
    split; [reflexivity |]. apply no_comma_cons; [| exact Ha].
    unfold cmatch. rewrite E. reflexivity.
Qed.

Lemma no_comma_not_in (s : jsstring) : no_comma s = true -> ~ In COMMA s.
Proof.
  unfold no_comma. intros H Hin. rewrite forallb_forall in H.
  specialize (H _ Hin). discriminate.
Qed.

Lemma json_ws_space (c : N) : json_ws c = true -> is_space c = true.
Proof.
  unfold json_ws. intros H.
  repeat (apply orb_true_iff in H as [H | H]); apply N.eqb_eq in H; subst c; reflexivity.
Qed.

Lemma json_ws_all_space (ws : jsstring) : forallb json_ws ws = true -> all_space ws = true.
Proof.
  unfold all_space. induction ws as [|c ws IH]; simpl; [auto |].
  intros H. apply andb_true_iff in H as (Hc & Hw).
  rewrite (json_ws_space c Hc). simpl. auto.
Qed.

Lemma opener_not_space (c : N) : opener c = true -> is_space c = false.
Proof.
  unfold opener. intros H.
  repeat (apply orb_true_iff in H as [H | H]); apply N.eqb_eq in H; subst c; reflexivity.
Qed.

Lemma opener_not_comma (c : N) : opener c = true -> cmatch NotComma c = true.
Proof.
  unfold opener. intros H.
  repeat (apply orb_true_iff in H as [H | H]); apply N.eqb_eq in H; subst c; reflexivity.
Qed.

(** A comma-free prefix of a string lies before its first comma. *)
Lemma prefix_before_comma (p q a b : jsstring) :
  no_comma p = true -> no_comma a = true ->
  p ++ q = a ++ COMMA :: b -> exists a', a = p ++ a'.
Proof.
  revert a. induction p as [|c p IH]; intros a Hp Ha H; [exists a; reflexivity |].
  unfold no_comma in Hp. simpl in Hp. apply andb_true_iff in Hp as (Hc & Hp).
  destruct a as [|c' a]; simpl in H.
  - injection H as -> _. discriminate.
  - injection H as <- H. unfold no_comma in Ha. simpl in Ha.
    apply andb_true_iff in Ha as (_ & Ha).
    destruct (IH a Hp Ha H) as (a' & ->). exists a'. reflexivity.
Qed.

Lemma trimStart_snoc (x : jsstring) (c : N) :
  is_space c = false -> exists y, trimStart (x ++ [c]) = y ++ [c].
Proof.
  intros Hc. induction x as [|d x (y & IH)]; simpl.
  - rewrite Hc. exists []. reflexivity.
  - destruct (is_space d); [exists y; exact IH | exists (d :: x); reflexivity].
Qed.

Lemma trim_starts (ws l : jsstring) (c : N) :
  all_space ws = true -> is_space c = false ->
  exists t, trim (ws ++ c :: l) = c :: t.
Proof.
  intros Hws Hc. rewrite trim_app_space by exact Hws.
  unfold trim. simpl. rewrite Hc. unfold trimEnd. simpl.
  destruct (trimStart_snoc (rev l) c Hc) as (y & ->).
  rewrite rev_app_distr. simpl. eauto.
Qed.

Lemma last_not_comma (x a : jsstring) (d : N) (ws : jsstring) :
  (d =? COMMA) = false -> forallb json_ws ws = true ->
  x ++ d :: ws <> a ++ [COMMA].
Proof.
  intros Hd Hws H. apply (f_equal (@rev N)) in H.
  rewrite !rev_app_distr in H. simpl in H.
  destruct (rev ws) as [|w ws'] eqn:E; simpl in H.
  - injection H as -> _. rewrite N.eqb_refl in Hd. discriminate.
  - injection H as -> _.
    assert (Hin : In COMMA ws) by (apply in_rev; rewrite E; left; reflexivity).
    rewrite forallb_forall in Hws. specialize (Hws _ Hin). discriminate.
Qed.

Lemma byRegex_cases (payload : jsstring) (i : Identity) :
  byRegex payload = Some i ->
  (exists g1 g2 g3,
     threePartMatch payload = Some [g1; g2; g3]
     /\ i = {| name := trim g1 ++ comma_space ++ trim g2; country := trim g3 |})
  \/ (threePartMatch payload = None
      /\ exists g1 g2,
           labeledMatch payload = Some [g1; g2]
           /\ i = {| name := trim g1; country := trim g2 |})
  \/ (threePartMatch payload = None /\ labeledMatch payload = None
      /\ exists g1 g2,
           simpleMatch payload = Some [g1; g2]
           /\ i = {| name := trim g1; country := trim g2 |}).
Proof.
  unfold byRegex. destruct (threePartMatch payload) as [caps |] eqn:H1.
  - destruct (threePart_sound _ _ H1) as (g1 & w1 & g2 & w2 & g3 & -> & _).
    intros H. injection H as <-. left. exists g1, g2, g3. auto.
  - destruct (labeledMatch payload) as [caps |] eqn:H2.
    + destruct (labeled_sound _ _ H2) as (g1 & g2 & -> & _).
      intros H. injection H as <-. right. left. split; [reflexivity |].
      exists g1, g2. auto.
    + destruct (simpleMatch payload) as [caps |] eqn:H3; [| discriminate].
      destruct (simple_sound _ _ H3) as (g1 & w & g2 & -> & _).
      intros H. injection H as <-. right. right. split; [reflexivity |].
      split; [reflexivity |]. exists g1, g2. auto.
Qed.

Lemma byRegex_if_simple (payload : jsstring) (caps : list jsstring) :
  simpleMatch payload = Some caps -> exists i, byRegex payload = Some i.
Proof.
  intros H3. unfold byRegex. destruct (threePartMatch payload) as [caps1 |] eqn:H1.
  - destruct (threePart_sound _ _ H1) as (g1 & w1 & g2 & w2 & g3 & -> & _). eauto.
  - destruct (labeledMatch payload) as [caps2 |] eqn:H2.
    + destruct (labeled_sound _ _ H2) as (g1 & g2 & -> & _). eauto.
    + rewrite H3. destruct (simple_sound _ _ H3) as (g1 & w & g2 & -> & _). eauto.
Qed.

(** C5 (amended): a well-formed JSON text that holds a comma and no line
    terminator (LF, CR, U+2028, U+2029) is returned by one of the three
    comma strategies; the structured strategy is not reached.  With [a]
    the text before the first comma and [b] the text after it, [a] trimmed
    starts with the opening quote, bracket or brace of the JSON text.
    Strategy 1 returns [a] and the text up to the second comma as the name
    and the rest as the country; strategy 3 returns [a] and [b]; in both
    the name starts with that opening character.  Strategy 2 returns the
    two labelled fragments. *)
Theorem json_line_by_commas :
  forall (payload : jsstring) (v : JsValue),
    JSON_parse payload = Normal v ->
    one_line payload = true ->
    In COMMA payload ->
    exists (a b : jsstring) (c : N) (a' : jsstring) (i : Identity),
      payload = a ++ COMMA :: b /\ no_comma a = true
      /\ opener c = true /\ trim a = c :: a'
      /\ byRegex payload = Some i
      /\ parseQRContent payload = Normal i
      /\ (forall g1 g2 g3,
            threePartMatch payload = Some [g1; g2; g3] ->
            g1 = a
            /\ (exists w1 w2, b = (w1 ++ g2) ++ COMMA :: w2 ++ g3
                              /\ all_space w1 = true /\ all_space w2 = true
                              /\ no_comma g2 = true)
            /\ i = {| name := trim a ++ comma_space ++ trim g2; country := trim g3 |})
      /\ (threePartMatch payload = None ->
          forall g1 g2,
            labeledMatch payload = Some [g1; g2] ->
            i = {| name := trim g1; country := trim g2 |})
      /\ (threePartMatch payload = None -> labeledMatch payload = None ->
          i = {| name := trim a; country := trim b |})
      /\ (threePartMatch payload <> None \/ labeledMatch payload = None ->
          exists t, name i = c :: t).
Proof.
  intros payload v Hp Hone Hin.
  destruct (JSON_text_shape payload v Hp) as (ws1 & body & ws2 & Ht & Hws1 & Hws2 & Hshape).
  pose proof (json_ws_all_space ws1 Hws1) as Hsp1.
  pose proof (json_ws_all_space ws2 Hws2) as Hsp2.
  assert (Hbody : exists c bb d, body = c :: bb ++ [d] /\ opener c = true
                                 /\ (d =? COMMA) = false).
  { destruct Hshape as [(Hn & _) | H]; [| exact H]. exfalso.
    rewrite Ht in Hin. apply in_app_or in Hin as [Hin | Hin].
    - revert Hin. apply no_comma_not_in, all_space_no_comma, Hsp1.
    - apply in_app_or in Hin as [Hin | Hin]; revert Hin; apply no_comma_not_in;
        [exact Hn | apply all_space_no_comma, Hsp2]. }
  destruct Hbody as (c & bb & d & -> & Hc & Hd).
  destruct (split_first_comma payload Hin) as (a & b & Hab & Ha).
  assert (Hpre : exists a1, a = ws1 ++ c :: a1).
  { destruct (prefix_before_comma (ws1 ++ [c]) (bb ++ [d] ++ ws2) a b) as (a1 & ->).
    - apply no_comma_app; [apply all_space_no_comma, Hsp1 |].
      apply no_comma_cons; [apply opener_not_comma, Hc | reflexivity].
    - exact Ha.
    - rewrite <- Hab, Ht. list_eq.
    - exists a1. list_eq. }
  destruct Hpre as (a1 & Ha1).
  destruct (trim_starts ws1 a1 c Hsp1 (opener_not_space c Hc)) as (a' & Htrim).
  rewrite <- Ha1 in Htrim.
  assert (Hane : a <> []) by (rewrite Ha1; destruct ws1; discriminate).
  assert (Hbne : b <> []).
  { intros ->. apply (last_not_comma (ws1 ++ c :: bb) a d ws2 Hd Hws2).
    rewrite <- Hab, Ht. list_eq. }
  assert (Hbl : one_line b = true).
  { unfold one_line in *. rewrite Hab in Hone. apply forallb_app_iff in Hone as (_ & H).
    simpl in H. exact H. }
  destruct (simple_complete a [] b Hane Ha eq_refl Hbne Hbl) as (caps & Hs).
  simpl in Hs. rewrite <- Hab in Hs.
  destruct (byRegex_if_simple payload caps Hs) as (i & Hi).
  exists a, b, c, a', i.
  split; [exact Hab |]. split; [exact Ha |]. split; [exact Hc |]. split; [exact Htrim |].
  split; [exact Hi |]. split; [unfold parseQRContent; rewrite Hi; reflexivity |].
  assert (H1 : forall g1 g2 g3,
             threePartMatch payload = Some [g1; g2; g3] ->
             g1 = a
             /\ (exists w1 w2, b = (w1 ++ g2) ++ COMMA :: w2 ++ g3
                               /\ all_space w1 = true /\ all_space w2 = true
                               /\ no_comma g2 = true)
             /\ i = {| name := trim a ++ comma_space ++ trim g2; country := trim g3 |}).
  { intros g1 g2 g3 Hm.
    destruct (threePart_sound _ _ Hm)
      as (h1 & w1 & h2 & w2 & h3 & Hcaps & Heq & _ & Hn1 & Hw1 & _ & Hn2 & Hw2 & _).
    injection Hcaps as -> -> ->. rewrite Hab in Heq.
    apply first_comma_unique in Heq as (<- & ->); [| assumption | assumption].
    split; [reflexivity |]. split; [exists w1, w2; auto |].
    unfold byRegex in Hi. rewrite Hm in Hi. injection Hi as <-. reflexivity. }
  assert (H3 : threePartMatch payload = None -> labeledMatch payload = None ->
               i = {| name := trim a; country := trim b |}).
  { intros Hn1 Hn2. unfold byRegex in Hi. rewrite Hn1, Hn2, Hs in Hi.
    destruct (simple_sound _ _ Hs) as (h1 & w & h2 & -> & Heq & _ & Hh1 & Hw & _).
    injection Hi as <-. rewrite Hab in Heq.
    apply first_comma_unique in Heq as (<- & ->); [| assumption | assumption].
    rewrite (trim_app_space w h2 Hw). reflexivity. }
  split; [exact H1 |]. split; [| split; [exact H3 |]].
  - intros Hn1 g1 g2 Hm. unfold byRegex in Hi. rewrite Hn1, Hm in Hi.
    injection Hi as <-. reflexivity.
  - intros Hor. destruct (threePartMatch payload) as [caps1 |] eqn:Hm.
    + destruct (threePart_sound _ _ Hm) as (g1 & w1 & g2 & w2 & g3 & -> & _).
      destruct (H1 g1 g2 g3 eq_refl) as (_ & _ & ->). simpl. rewrite Htrim.
      simpl. eauto.
    + destruct Hor as [Hor | Hor]; [congruence |].
      rewrite (H3 eq_refl Hor). simpl. eauto.
Qed.

Lemma In_comma_b (s : jsstring) : existsb (fun c => c =? COMMA) s = true -> In COMMA s.
Proof.
  intros H. apply existsb_exists in H as (c & Hin & Hc).
  apply N.eqb_eq in Hc. subst c. exact Hin.
Qed.

Lemma json_line_by_commas_witness :
  exists i, byRegex P_readme = Some i
            /\ parseQRContent P_readme = Normal i
            /\ exists t, name i = 123 :: t.
Proof.
  assert (H1 : JSON_parse P_readme
               = Normal (JObject [(str "lastName", JString (str "DOE"));
                                  (str "firstName", JString (str "John"));
                                  (str "country", JString (str "USA"))]))
    by (vm_compute; reflexivity).
  assert (H2 : one_line P_readme = true) by (vm_compute; reflexivity).
  assert (H3 : In COMMA P_readme) by (apply In_comma_b; vm_compute; reflexivity).
  destruct (json_line_by_commas P_readme _ H1 H2 H3)
    as (a & b & c & a' & i & Hab & Ha & Hc & Htrim & Hi & Hparse & _ & _ & _ & Hname).
  exists i. split; [exact Hi |]. split; [exact Hparse |].
  assert (Hm : threePartMatch P_readme <> None) by (vm_compute; discriminate).
  destruct (Hname (or_introl Hm)) as (t & Ht). exists t. rewrite Ht. f_equal.
  assert (Hi' : byRegex P_readme
                = Some {| name := strq "{'lastName': 'DOE', 'firstName': 'John'";
                          country := strq "'country': 'USA'}" |})
    by (vm_compute; reflexivity).
  rewrite Hi in Hi'. injection Hi' as ->. simpl in Ht. injection Ht as <- _. reflexivity.
Defined.

(** C5, as stated, fails: a well-formed one-line JSON text with a comma
    that strategy 2 matches is returned with a name that starts with a
    letter of the labelled value, not with JSON punctuation. *)
Lemma json_name_from_label :
  JSON_parse P_labeled_json
  = Normal (JObject [(str "Name: Bob, Country: US", JNumber 1 0)])
  /\ one_line P_labeled_json = true
  /\ existsb (fun c => c =? COMMA) P_labeled_json = true
  /\ threePartMatch P_labeled_json = None
  /\ labeledMatch P_labeled_json = Some [str "Bob"; strq "US':1}"]
  /\ parseQRContent P_labeled_json
     = Normal {| name := str "Bob"; country := strq "US':1}" |}
  /\ opener 66 = false.
Proof. vm_compute. repeat split; reflexivity. Qed.

(** A JSON text without LF or CR whose string holds U+2028 after the
    comma: no comma strategy matches, the structured strategy is reached. *)
Example json_line_separator :
  let payload := strq "['a,b" ++ [8232] ++ strq "c']" in
  JSON_parse payload = Normal (JArray [JString (str "a,b" ++ [8232] ++ str "c")])
  /\ byRegex payload = None
  /\ parseQRContent payload = Normal {| name := []; country := [] |}.
Proof. vm_compute. repeat split; reflexivity. Qed.

(** * Further properties of the code *)

(** ** Detections and the store *)


Lemma NoDup_snoc {A : Type} (l : list A) (x : A) :
  List.NoDup l -> ~ In x l -> List.NoDup (l ++ [x]).
Proof.
  intros Hl Hx. induction l as [|a l IH]; simpl.
  - constructor; [intros [] | constructor].
  - inversion Hl as [| ? ? Ha Hl']; subst. constructor.
    + intros Hin. apply in_app_or in Hin as [Hin | [-> | []]]; [contradiction |].
      apply Hx. left. reflexivity.
    + apply IH; [exact Hl' |]. intros Hin. apply Hx. right. exact Hin.
Qed.

Lemma NoDup_raw_filter (f : AttendanceRecord -> bool) (l : list AttendanceRecord) :
  List.NoDup (raw_payloads l) -> List.NoDup (raw_payloads (List.filter f l)).
Proof.
  unfold raw_payloads. induction l as [|a l IH]; simpl; intros H; [exact H |].
  inversion H as [| ? ? Ha Hl]; subst. destruct (f a); simpl; [| auto].
  constructor; [| auto]. intros Hin. apply Ha.
  apply in_map_iff in Hin as (r & Hr & Hin). apply filter_In in Hin as (Hin & _).
  apply in_map_iff. eauto.
Qed.

Lemma load_local_covers (st : Scanner) : SeenSet_covers (fst (load_local st)).
Proof. intros r Hr Hne. simpl in *. apply populate_spec. eauto. Qed.

(** A detection on [localStorage], whatever the write does. *)
Lemma handle_offline_cases now env qrData st :
  useLocalStorage st = true ->
  (storage (fst (handleQRDetected now env qrData st)) = storage st
   /\ scannedQRCodes st ⊆ scannedQRCodes (fst (handleQRDetected now env qrData st)))
  \/ (decide_in st qrData now = ACCEPT /\ parse_ok qrData = true
      /\ setItem_throws env = None
      /\ exists i,
           storage (fst (handleQRDetected now env qrData st))
           = storage st ++ [new_record env qrData i]
           /\ scannedQRCodes (fst (handleQRDetected now env qrData st))
              = populateScannedQRCodes (storage st ++ [new_record env qrData i])).
Proof.
  intros Hm. destruct (decide_in st qrData now) eqn:Hd;
    try (left; rewrite handle_not_accept by congruence; split; [reflexivity |];
         intros x Hx; exact Hx).
  destruct (parse_ok qrData) eqn:Hp.
  - destruct (setItem_throws env) as [message |] eqn:Hw.
    + left. rewrite (handle_accept_thrown now env qrData st message Hd Hp Hm Hw). simpl.
      split; [reflexivity |]. intros x Hx. apply elem_of_union. right. exact Hx.
    + right. split; [reflexivity |]. split; [reflexivity |]. split; [reflexivity |].
      destruct (handle_accept_saved now env qrData st Hd Hp Hm Hw) as (i & _ & Hs & Hc & _).
      exists i. auto.
  - left. rewrite (handle_accept_failed now env qrData st Hd Hp). simpl.
    split; [reflexivity |]. intros x Hx. exact Hx.
Qed.

(** X2: duplicate prevention on [localStorage].  While every non-empty
    payload of a stored record is blocked, as it is after each load, and
    the raw payloads of the stored records are pairwise distinct,
    detections and deletions keep both properties and the mode, whether the
    writes go through or throw: no payload is recorded twice by scanning. *)
Theorem scans_record_once :
  forall st : Scanner,
    useLocalStorage st = true ->
    SeenSet_covers st ->
    List.NoDup (raw_payloads (storage st)) ->
    (forall now env qrData,
       let st' := fst (handleQRDetected now env qrData st) in
       List.NoDup (raw_payloads (storage st')) /\ SeenSet_covers st'
       /\ useLocalStorage st' = true)
    /\ (forall confirmed recordId thrown,
          let st' := fst (deleteRecord confirmed recordId thrown st) in
          List.NoDup (raw_payloads (storage st')) /\ SeenSet_covers st'
          /\ useLocalStorage st' = true).
Proof.
  intros st Hm Hcov Hnd. split.
  - intros now env qrData st'.
    assert (Hm' : useLocalStorage st' = true).
    { unfold st'. destruct (decide_in st qrData now) eqn:Hd;
        try (rewrite handle_not_accept by congruence; exact Hm).
      destruct (handle_accept_fields now env qrData st Hd) as (_ & _ & _ & _ & -> & _).
      exact Hm. }
    destruct (handle_offline_cases now env qrData st Hm)
      as [(Hs & Hsub) | (Hd & Hp & Hw & i & Hs & Hc)]; fold st' in Hs.
    + fold st' in Hsub. rewrite Hs. split; [exact Hnd |]. split; [| exact Hm'].
      intros r Hr Hne. rewrite Hs in Hr. apply Hsub. apply Hcov; assumption.
    + fold st' in Hc. split; [| split; [| exact Hm']].
      * rewrite Hs. unfold raw_payloads. rewrite map_app. simpl.
        apply NoDup_snoc; [exact Hnd |].
        intros Hin. apply in_map_iff in Hin as (r & Hr & Hin).
        destruct (decide_in_cases st qrData now)
          as [(_ & Hd') | [(_ & _ & Hd') | (_ & Hout & _)]]; try congruence.
        apply Hout. rewrite <- Hr. apply Hcov; [exact Hin |].
        rewrite Hr. apply parse_ok_nonempty. exact Hp.
      * intros r Hr Hne. rewrite Hc. apply populate_spec. rewrite <- Hs. eauto.
  - intros confirmed recordId thrown st'. unfold st'.
    destruct confirmed; [| auto].
    destruct thrown as [message |].
    + rewrite delete_thrown by exact Hm. auto.
    + rewrite delete_offline by exact Hm. split; [| split].
      * simpl. apply NoDup_raw_filter. exact Hnd.
      * apply load_local_covers.
      * exact Hm.
Qed.

Lemma scans_record_once_witness :
  List.NoDup (raw_payloads (storage (fst (handleQRDetected 30000 env2 P_doe st_one))))
  /\ List.NoDup (raw_payloads (storage (fst (handleQRDetected 30000 env_full P_roe st_one)))).
Proof.
  assert (Hcov : SeenSet_covers st_one).
  { unfold SeenSet_covers. simpl. intros r [<- | []] _.
    apply elem_of_singleton. reflexivity. }
  assert (Hnd : List.NoDup (raw_payloads (storage st_one))).
  { simpl. constructor; [intros [] | constructor]. }
  pose proof (scans_record_once st_one eq_refl Hcov Hnd) as (H & _).
  split; [apply (H 30000%Z env2 P_doe) | apply (H 30000%Z env_full P_roe)].
Defined.

(** X3: in the state that an accepted detection with a successful parse
    leaves, the payload is blocked, in either mode and whether or not the
    record was written: a further detection of it, at whatever clock
    reading, is not accepted and changes nothing. *)
Theorem accepted_payload_blocked :
  forall (st : Scanner) (now : Z) (env : Env) (P : jsstring) (now' : Z) (env' : Env),
    decide_in st P now = ACCEPT ->
    parse_ok P = true ->
    let st' := fst (handleQRDetected now env P st) in
    P ∈ scannedQRCodes st'
    /\ decide_in st' P now' <> ACCEPT
    /\ fst (handleQRDetected now' env' P st') = st'.
Proof.
  intros st now env P now' env' Hd Hp st'.
  assert (Hin : P ∈ scannedQRCodes st').
  { destruct (handle_accept_fields now env P st Hd) as (_ & _ & _ & _ & _ & H).
    apply H. exact Hp. }
  assert (Hna : decide_in st' P now' <> ACCEPT).
  { destruct (decide_in_cases st' P now') as [(_ & ->) | [(_ & _ & ->) | (_ & Hout & _)]];
      [discriminate | discriminate | contradiction]. }
  split; [exact Hin |]. split; [exact Hna | apply handle_not_accept; exact Hna].
Qed.

Lemma accepted_payload_blocked_witness :
  decide_in (fst (handleQRDetected 10000 env1 P_doe constructor)) P_doe 99000 <> ACCEPT
  /\ decide_in (fst (handleQRDetected 10000 env_full P_doe offline_start)) P_doe 99000
     <> ACCEPT.
Proof.
  split.
  - apply (accepted_payload_blocked constructor 10000 env1 P_doe 99000 env2);
      vm_compute; reflexivity.
  - apply (accepted_payload_blocked offline_start 10000 env_full P_doe 99000 env2);
      vm_compute; reflexivity.
Defined.

(** X4: after a payload has been accepted, with or without a successful
    parse, a detection of the same payload less than the cooldown after it
    is a silent no-op: no event, no change of state. *)
Theorem repeat_within_cooldown :
  forall (st : Scanner) (now : Z) (env : Env) (P : jsstring) (now' : Z) (env' : Env),
    decide_in st P now = ACCEPT ->
    (now' - now < scanCooldown st)%Z ->
    let st' := fst (handleQRDetected now env P st) in
    decide_in st' P now' = SUPPRESS_COOLDOWN
    /\ handleQRDetected now' env' P st' = (st', []).
Proof.
  intros st now env P now' env' Hd Hlt st'.
  destruct (handle_accept_fields now env P st Hd) as (Hl & Ht & Hc & _).
  fold st' in Hl, Ht, Hc.
  assert (Hs : decide_in st' P now' = SUPPRESS_COOLDOWN).
  { unfold decide_in, decide. rewrite Hl, Ht, Hc.
    rewrite bool_decide_eq_true_2 by reflexivity.
    apply Z.ltb_lt in Hlt. rewrite Hlt. reflexivity. }
  split; [exact Hs |]. unfold handleQRDetected. rewrite Hs. reflexivity.
Qed.

Lemma repeat_within_cooldown_witness :
  decide_in (fst (handleQRDetected 5000 env1 P_hello constructor)) P_hello 5500
  = SUPPRESS_COOLDOWN.
Proof.
  apply (repeat_within_cooldown constructor 5000 env1 P_hello 5500 env2);
    [vm_compute; reflexivity | simpl; lia].
Defined.

(** X5: a payload whose parse fails is never blocked: once the cooldown
    has passed, the policy accepts it again, and the detection shows the
    format error again and creates no record. *)
Theorem unreadable_is_retried :
  forall (st : Scanner) (now : Z) (env : Env) (P : jsstring) (now' : Z) (env' : Env),
    decide_in st P now = ACCEPT ->
    parse_ok P = false ->
    (scanCooldown st <= now' - now)%Z ->
    let st' := fst (handleQRDetected now env P st) in
    decide_in st' P now' = ACCEPT
    /\ snd (handleQRDetected now' env' P st')
       = snd (handleQRDetected now env P st)
    /\ storage (fst (handleQRDetected now' env' P st')) = storage st.
Proof.
  intros st now env P now' env' Hd Hp Hge st'.
  assert (Hst : st' = mark_scanned P now st).
  { unfold st'. rewrite (handle_accept_failed now env P st Hd Hp). reflexivity. }
  assert (Ha : decide_in st' P now' = ACCEPT).
  { rewrite Hst. unfold decide_in, decide. simpl.
    replace (now' - now <? scanCooldown st)%Z with false
      by (symmetry; apply Z.ltb_ge; exact Hge).
    rewrite andb_false_r.
    destruct (decide_in_cases st P now) as [(_ & H) | [(_ & _ & H) | (_ & Hout & _)]];
      try congruence.
    rewrite bool_decide_eq_false_2 by exact Hout. reflexivity. }
  split; [exact Ha |].
  rewrite (handle_accept_failed now' env' P st' Ha Hp).
  rewrite (handle_accept_failed now env P st Hd Hp). simpl.
  split; [reflexivity |]. rewrite Hst. reflexivity.
Qed.

Lemma unreadable_is_retried_witness :
  decide_in (fst (handleQRDetected 5000 env1 P_hello constructor)) P_hello 7000
  = ACCEPT.
Proof.
  apply (unreadable_is_retried constructor 5000 env1 P_hello 7000 env2);
    [vm_compute; reflexivity | vm_compute; reflexivity | simpl; lia].
Defined.

(** X6: on [localStorage], clearing the blocked set lasts until the next
    recorded scan.  When the new record is written, the set is rebuilt
    from the store, so every non-empty payload of an earlier record is
    blocked again.  When the write throws, the set is not rebuilt: it holds
    the new payload only, and the earlier payloads stay unblocked. *)
Theorem clear_undone_by_scan :
  forall (st : Scanner) (now : Z) (env : Env) (P : jsstring),
    useLocalStorage st = true ->
    decide_in (clearScannedQRCodes st) P now = ACCEPT ->
    parse_ok P = true ->
    let st' := fst (handleQRDetected now env P (clearScannedQRCodes st)) in
    scannedQRCodes (clearScannedQRCodes st) = ∅
    /\ (setItem_throws env = None ->
        forall r, In r (storage st) -> raw_qr_data r <> [] ->
                  raw_qr_data r ∈ scannedQRCodes st'
                  /\ forall now', decide_in st' (raw_qr_data r) now' <> ACCEPT)
    /\ (setItem_throws env <> None ->
        storage st' = storage st /\ forall p, p ∈ scannedQRCodes st' <-> p = P).
Proof.
  intros st now env P Hm Hd Hp st'. split; [reflexivity |]. split.
  - intros Hw r Hr Hne.
    destruct (handle_accept_saved now env P _ Hd Hp Hm Hw) as (i & _ & _ & Hc & _).
    fold st' in Hc.
    assert (Hin : raw_qr_data r ∈ scannedQRCodes st').
    { rewrite Hc. apply populate_spec. split; [exact Hne |]. exists r.
      split; [| reflexivity]. apply in_or_app. left. exact Hr. }
    split; [exact Hin |]. intros now'.
    destruct (decide_in_cases st' (raw_qr_data r) now')
      as [(_ & ->) | [(_ & _ & ->) | (_ & Hout & _)]];
      [discriminate | discriminate | contradiction].
  - intros Hw. destruct (setItem_throws env) as [message |] eqn:Hw'; [| congruence].
    unfold st'. rewrite (handle_accept_thrown now env P _ message Hd Hp Hm Hw'). simpl.
    split; [reflexivity |]. intros p. rewrite elem_of_union, elem_of_singleton. split.
    + intros [H | H]; [exact H | exfalso; revert H; apply not_elem_of_empty].
    + auto.
Qed.

Lemma clear_undone_by_scan_witness :
  P_doe ∈ scannedQRCodes (fst (handleQRDetected 30000 env2 P_roe (clearScannedQRCodes st_one)))
  /\ (P_doe ∉ scannedQRCodes
                (fst (handleQRDetected 30000 env_full P_roe (clearScannedQRCodes st_one)))).
Proof.
  assert (Hd : decide_in (clearScannedQRCodes st_one) P_roe 30000 = ACCEPT)
    by (vm_compute; reflexivity).
  assert (Hp : parse_ok P_roe = true) by (vm_compute; reflexivity).
  split.
  - pose proof (clear_undone_by_scan st_one 30000 env2 P_roe eq_refl Hd Hp) as (_ & H & _).
    apply (H eq_refl record_doe); [left; reflexivity | discriminate].
  - pose proof (clear_undone_by_scan st_one 30000 env_full P_roe eq_refl Hd Hp)
      as (_ & _ & H).
    intros Hin. apply H in Hin; discriminate.
Defined.

(** X7: on [localStorage] with writes that go through, the cooldown
    concerns the last accepted payload only.  A second, different payload
    that no live record carries is accepted at whatever time it is
    detected, and both records are stored in the order of the detections. *)
Theorem two_payloads_in_a_row :
  forall (st : Scanner) (now : Z) (env : Env) (P : jsstring)
         (now' : Z) (env' : Env) (Q : jsstring),
    useLocalStorage st = true ->
    setItem_throws env = None -> setItem_throws env' = None ->
    decide_in st P now = ACCEPT -> parse_ok P = true ->
    Q <> P -> ~ live_payload st Q -> parse_ok Q = true ->
    let st1 := fst (handleQRDetected now env P st) in
    let st2 := fst (handleQRDetected now' env' Q st1) in
    decide_in st1 Q now' = ACCEPT
    /\ exists i j,
         parseQRContent P = Normal i /\ parseQRContent Q = Normal j
         /\ storage st2
            = storage st ++ [new_record env P i; new_record env' Q j].
Proof.
  intros st now env P now' env' Q Hm Hw Hw' Hd Hp Hne Hlive Hq st1 st2.
  destruct (handle_accept_saved now env P st Hd Hp Hm Hw)
    as (i & Hi & Hs & Hc & Hl & _ & _ & Hm1 & _).
  fold st1 in Hs, Hc, Hl, Hm1.
  assert (Ha : decide_in st1 Q now' = ACCEPT).
  { destruct (decide_in_cases st1 Q now') as [(Hcool & _) | [(_ & Hin & _) | (_ & _ & H)]];
      [| | exact H]; exfalso.
    - unfold cooling in Hcool. apply andb_true_iff in Hcool as (Hb & _).
      apply bool_decide_eq_true in Hb. rewrite Hl in Hb. congruence.
    - rewrite Hc in Hin. apply populate_spec in Hin as (_ & r & Hr & Hraw).
      apply in_app_or in Hr as [Hr | [<- | []]].
      + apply Hlive. exists r. auto.
      + simpl in Hraw. congruence. }
  split; [exact Ha |].
  destruct (handle_accept_saved now' env' Q st1 Ha Hq Hm1 Hw') as (j & Hj & Hs2 & _).
  exists i, j. split; [exact Hi |]. split; [exact Hj |].
  unfold st2. rewrite Hs2, Hs, <- app_assoc. reflexivity.
Qed.

Lemma two_payloads_in_a_row_witness :
  decide_in (fst (handleQRDetected 10000 env1 P_doe offline_start)) P_roe 10001
  = ACCEPT.
Proof.
  assert (Hlive : ~ live_payload offline_start P_roe).
  { intros (r & Hr & _). vm_compute in Hr. exact Hr. }
  apply (two_payloads_in_a_row offline_start 10000 env1 P_doe 10001 env2 P_roe);
    solve [vm_compute; reflexivity | discriminate | exact Hlive].
Defined.

(** ** The end of a session, the pause and the diagnostics *)

Lemma rebuilt_is_populate (st : Scanner) :
  SeenSet_rebuilt st -> scannedQRCodes st = populateScannedQRCodes (storage st).
Proof.
  intros Hinv. apply set_eq. intros p. rewrite (Hinv p), populate_spec. reflexivity.
Qed.

Lemma size_zero_empty (X : gset jsstring) : (0 <? size X)%nat = false <-> X = ∅.
Proof.
  rewrite Nat.ltb_ge. split.
  - intros H. apply leibniz_equiv. apply size_empty_iff. lia.
  - intros ->. rewrite size_empty. lia.
Qed.

(** X9: stopping the scanner.  With an empty blocked set, or when the
    user declines, nothing is exported and the records stay, also when the
    store holds records (as after the blocked set was cleared).  With a
    blocked set that is not empty and the user's consent: on
    [localStorage] the export of the store as it was is handed to the
    download (or the user is told that there is nothing to export), and
    store and blocked set are empty afterwards; on the remote table
    nothing is exported or cleared before the request for the list is
    answered.  When the set is the one rebuilt from the store, an empty
    set means that no record has a payload. *)
Theorem stopScanner_effect :
  forall (date time full : Z -> jsstring) (shouldDownload : bool) (st : Scanner),
    let r := stopScanner date time full shouldDownload st in
    scanning (fst r) = false
    /\ (scannedQRCodes st = ∅ -> r = (set_scanning false st, []))
    /\ (shouldDownload = false -> r = (set_scanning false st, []))
    /\ (scannedQRCodes st <> ∅ -> shouldDownload = true -> useLocalStorage st = true ->
        snd r = export_records date time full (storage st) ++ [DisplayAttendanceRecords []]
        /\ storage (fst r) = [] /\ scannedQRCodes (fst r) = ∅
        /\ pending (fst r) = pending st)
    /\ (scannedQRCodes st <> ∅ -> shouldDownload = true -> useLocalStorage st = false ->
        r = await (ExportToCSV_fetched true) (set_scanning false st))
    /\ (SeenSet_rebuilt st -> scannedQRCodes st = ∅ ->
        forall rec, In rec (storage st) -> raw_qr_data rec = []).
Proof.
  intros date time full shouldDownload st r. unfold r, stopScanner. simpl.
  split; [| split; [| split; [| split; [| split]]]].
  - destruct (0 <? size (scannedQRCodes st))%nat; [destruct shouldDownload |];
      try reflexivity.
    unfold exportToCSV_called, export_then, clearAllAttendance, clear_stored, clear_finish,
      loadAttendanceRecords, await; simpl.
    destruct (useLocalStorage st) eqn:Hm; simpl; rewrite ?Hm; simpl; rewrite ?Hm;
      reflexivity.
  - intros H. rewrite (proj2 (size_zero_empty _) H). reflexivity.
  - intros ->. destruct (0 <? size (scannedQRCodes st))%nat; reflexivity.
  - intros Hne -> Hm. destruct (0 <? size (scannedQRCodes st))%nat eqn:E.
    + unfold exportToCSV_called, export_then. simpl. rewrite Hm.
      rewrite clearAll_offline by exact Hm. simpl. repeat split; reflexivity.
    + apply size_zero_empty in E. contradiction.
  - intros Hne -> Hm. destruct (0 <? size (scannedQRCodes st))%nat eqn:E.
    + unfold exportToCSV_called. simpl. rewrite Hm. reflexivity.
    + apply size_zero_empty in E. contradiction.
  - intros Hinv He rec Hin. destruct (raw_qr_data rec) as [|c l] eqn:Hraw; [reflexivity |].
    exfalso. apply (not_elem_of_empty (C := gset jsstring) (c :: l)). rewrite <- He.
    apply Hinv. split; [discriminate |]. exists rec. auto.
Qed.

(** X10: the pause after an accepted detection.  The detection clears the
    scanning flag and schedules its resume after 1000 ms; until the timer
    fires every frame is ignored, whatever it shows; after it a decoded
    frame is handled again.  The timer sets the flag also when the scanner
    was stopped in the meantime. *)
Theorem pause_after_accept :
  forall (st : Scanner) (now : Z) (env : Env) (P : jsstring),
    decide_in st P now = ACCEPT ->
    let st' := fst (handleQRDetected now env P st) in
    scanning st' = false
    /\ (exists evs, snd (handleQRDetected now env P st)
                    = evs ++ [ResumeScanningAfter 1000])
    /\ (forall ready code now' env',
          scanFrame ready code now' env' st' = (st', []))
    /\ (forall data now' env',
          scanFrame true (Some data) now' env' (resumeScanning st')
          = handleQRDetected now' env' data (resumeScanning st'))
    /\ (forall date time full shouldDownload,
          scanning (resumeScanning
                      (fst (stopScanner date time full shouldDownload st'))) = true).
Proof.
  intros st now env P Hd st'.
  destruct (handle_accept_fields now env P st Hd) as (_ & _ & _ & Hs & _).
  fold st' in Hs. split; [exact Hs |]. split; [| split; [| split]].
  - rewrite (handle_accept now env P st Hd). eexists. reflexivity.
  - intros. unfold scanFrame. rewrite Hs. reflexivity.
  - intros. reflexivity.
  - intros. reflexivity.
Qed.

Lemma pause_after_accept_witness :
  scanFrame true (Some P_roe) 10500 env2
    (fst (handleQRDetected 10000 env1 P_doe (startScanning constructor)))
  = (fst (handleQRDetected 10000 env1 P_doe (startScanning constructor)), []).
Proof.
  assert (Hd : decide_in (startScanning constructor) P_doe 10000 = ACCEPT)
    by (vm_compute; reflexivity).
  pose proof (pause_after_accept (startScanning constructor) 10000 env1 P_doe Hd)
    as (_ & _ & H & _).
  apply H.
Defined.

(** X11: the cooldown that the diagnostics report as remaining is positive
    exactly when a detection of the last accepted payload would be
    suppressed, and it never exceeds what is left of the cooldown. *)
Theorem diagnostics_cooldown :
  forall (st : Scanner) (qrData : jsstring) (now : Z),
    lastScannedCode st = Some qrData ->
    (decide_in st qrData now = SUPPRESS_COOLDOWN <-> (0 < cooldown_remaining st now)%Z)
    /\ (cooldown_remaining st now = 0%Z -> decide_in st qrData now <> SUPPRESS_COOLDOWN)
    /\ (0 <= cooldown_remaining st now)%Z
    /\ ((0 < cooldown_remaining st now)%Z ->
        cooldown_remaining st now = (lastScanTime st + scanCooldown st - now)%Z).
Proof.
  intros st qrData now Hl. unfold cooldown_remaining.
  assert (Hiff : decide_in st qrData now = SUPPRESS_COOLDOWN
                 <-> (now - lastScanTime st < scanCooldown st)%Z).
  { unfold decide_in, decide. rewrite Hl.
    rewrite bool_decide_eq_true_2 by reflexivity. simpl.
    destruct (now - lastScanTime st <? scanCooldown st)%Z eqn:E.
    - apply Z.ltb_lt in E. tauto.
    - apply Z.ltb_ge in E. split; [| lia].
      destruct (bool_decide (qrData ∈ scannedQRCodes st)); discriminate. }
  split; [rewrite Hiff; lia |]. split; [rewrite Hiff; lia |]. split; lia.
Qed.

Lemma diagnostics_cooldown_witness :
  decide_in st_one P_doe 11500 = SUPPRESS_COOLDOWN <-> (0 < cooldown_remaining st_one 11500)%Z.
Proof. apply (diagnostics_cooldown st_one P_doe 11500). reflexivity. Defined.

(** X12: the test button is outside the duplicate policy.  In every state
    and mode, also when the test payload is already blocked or was accepted
    a moment ago, it processes the test payload and blocks it.  On
    [localStorage] with a write that goes through it stores one more record
    for it, so that used twice it leaves two records with the same raw
    payload; when the write throws nothing is stored; on the remote table
    the POST of the record is in flight. *)
Theorem addTestRecord_always_adds :
  forall (env : Env) (st : Scanner),
    let test :=
      new_record env testQR
        {| name := str "TESTLAST, TestFirst"; country := str "Test Country" |} in
    testQR ∈ scannedQRCodes (fst (addTestRecord env st))
    /\ (useLocalStorage st = true -> setItem_throws env = None ->
        storage (fst (addTestRecord env st)) = storage st ++ [test]
        /\ forall env',
             setItem_throws env' = None ->
             ~ List.NoDup (raw_payloads
                             (storage (fst (addTestRecord env'
                                              (fst (addTestRecord env st)))))))
    /\ (useLocalStorage st = true -> setItem_throws env <> None ->
        storage (fst (addTestRecord env st)) = storage st)
    /\ (useLocalStorage st = false ->
        storage (fst (addTestRecord env st)) = storage st
        /\ pending (fst (addTestRecord env st))
           = pending st ++ [SaveAttendance_posted test]).
Proof.
  intros env st test.
  assert (Hp : parse_ok testQR = true) by (vm_compute; reflexivity).
  assert (Hc : parseQRContent testQR
               = Normal {| name := str "TESTLAST, TestFirst";
                           country := str "Test Country" |})
    by (vm_compute; reflexivity).
  assert (Hs : forall env0 st0,
             useLocalStorage st0 = true -> setItem_throws env0 = None ->
             storage (fst (addTestRecord env0 st0))
             = storage st0
               ++ [new_record env0 testQR
                     {| name := str "TESTLAST, TestFirst"; country := str "Test Country" |}]
             /\ useLocalStorage (fst (addTestRecord env0 st0)) = true).
  { intros env0 st0 Hm Hw. unfold addTestRecord.
    destruct (processQRData_saved env0 testQR st0 Hp Hm Hw) as (i & Hi & ->).
    rewrite Hc in Hi. injection Hi as <-. simpl. auto. }
  split; [| split; [| split]].
  - unfold addTestRecord.
    destruct (processQRData_parsed env testQR st Hp) as (i & _ & ->). cbn [fst].
    apply saveAttendance_frame; [discriminate |].
    simpl. apply elem_of_union. left. apply elem_of_singleton. reflexivity.
  - intros Hm Hw. destruct (Hs env st Hm Hw) as (Hs1 & Hm1). split; [exact Hs1 |].
    intros env' Hw' Hnd. destruct (Hs env' _ Hm1 Hw') as (Hs2 & _).
    rewrite Hs2, Hs1 in Hnd. unfold raw_payloads in Hnd.
    rewrite <- app_assoc, map_app in Hnd. simpl in Hnd.
    apply NoDup_remove_2 in Hnd. apply Hnd. apply in_or_app. right. left. reflexivity.
  - intros Hm Hw. destruct (setItem_throws env) as [message |] eqn:Hw'; [| congruence].
    unfold addTestRecord. rewrite (processQRData_thrown env testQR st message) by assumption.
    reflexivity.
  - intros Hm. unfold addTestRecord.
    destruct (processQRData_posted env testQR st Hp Hm) as (i & Hi & ->).
    rewrite Hc in Hi. injection Hi as <-. simpl. auto.
Qed.

Lemma populate_fold_size (records : list AttendanceRecord) :
  forall acc : gset jsstring,
    (size (fold_left
             (fun s record =>
                if is_nil (raw_qr_data record) then s else {[raw_qr_data record]} ∪ s)
             records acc)
     <= size acc + length records)%nat.
Proof.
  induction records as [|a records IH]; intros acc; simpl; [lia |].
  etransitivity; [apply IH |].
  destruct (is_nil (raw_qr_data a)); [lia |].
  rewrite size_union_alt, size_singleton.
  pose proof (subseteq_size (acc ∖ {[raw_qr_data a]}) acc) as H.
  assert (acc ∖ {[raw_qr_data a]} ⊆ acc) as Hsub.
  { intros y Hy. apply elem_of_difference in Hy as (Hy & _). exact Hy. }
  specialize (H Hsub). lia.
Qed.

Lemma populate_fold_size_exact (records : list AttendanceRecord) :
  forall acc : gset jsstring,
    List.NoDup (raw_payloads records) ->
    (forall r, In r records -> raw_qr_data r <> [] /\ raw_qr_data r ∉ acc) ->
    size (fold_left
            (fun s record =>
               if is_nil (raw_qr_data record) then s else {[raw_qr_data record]} ∪ s)
            records acc)
    = (size acc + length records)%nat.
Proof.
  induction records as [|a records IH]; intros acc Hnd Hr; simpl; [lia |].
  inversion Hnd as [| ? ? Ha Hnd']; subst.
  destruct (Hr a (or_introl eq_refl)) as (Hne & Hout).
  apply is_nil_false in Hne. rewrite Hne. rewrite IH.
  - rewrite size_union by (apply disjoint_singleton_l; exact Hout).
    rewrite size_singleton. lia.
  - exact Hnd'.
  - intros r Hin. destruct (Hr r (or_intror Hin)) as (Hne' & Hout').
    split; [exact Hne' |]. rewrite elem_of_union, elem_of_singleton.
    intros [Heq | H]; [| contradiction].
    apply Ha. unfold raw_payloads. apply in_map_iff. eauto.
Qed.

(** X13: the set that [populateScannedQRCodes] rebuilds from a list of
    records does not depend on the order of the records and has at most
    one entry per record; it has exactly one entry per record when the raw
    payloads are non-empty and pairwise distinct. *)
Theorem populate_count :
  forall records : list AttendanceRecord,
    (size (populateScannedQRCodes records) <= length records)%nat
    /\ (forall records', Permutation records records' ->
                         populateScannedQRCodes records' = populateScannedQRCodes records)
    /\ (List.NoDup (raw_payloads records) ->
        (forall r, In r records -> raw_qr_data r <> []) ->
        size (populateScannedQRCodes records) = length records).
Proof.
  intros records. split; [| split].
  - pose proof (populate_fold_size records ∅) as H. rewrite size_empty in H. exact H.
  - intros records' Hperm. apply set_eq. intros p. rewrite !populate_spec.
    split; intros (Hp & r & Hr & Heq); (split; [exact Hp |]); exists r;
      (split; [| exact Heq]).
    + apply (Permutation_in _ (Permutation_sym Hperm)). exact Hr.
    + apply (Permutation_in _ Hperm). exact Hr.
  - intros Hnd Hne. unfold populateScannedQRCodes.
    rewrite populate_fold_size_exact; [rewrite size_empty; reflexivity | exact Hnd |].
    intros r Hr. split; [apply Hne; exact Hr | apply not_elem_of_empty].
Qed.

(** ** The parser: what every format needs *)

Lemma den_lit_in (ic : bool) (r : regex) (p : N) :
  forall bos s caps,
    den ic r bos s caps -> In (Lit p) r ->
    exists c, lit_match ic p c = true /\ In c s.
Proof.
  induction r as [|i r IH]; intros bos s caps Hd Hin; [destruct Hin |].
  destruct i; simpl in Hd.
  - destruct Hin as [Hin | Hin]; [discriminate |]. destruct Hd as (_ & Hd). eauto.
  - destruct Hin as [Hin | Hin]; [discriminate |]. destruct Hd as (_ & Hd). eauto.
  - destruct Hd as (c' & s' & -> & Hc & Hd). destruct Hin as [Hin | Hin].
    + injection Hin as ->. exists c'. split; [exact Hc | left; reflexivity].
    + destruct (IH _ _ _ Hd Hin) as (x & Hx & Hxin). exists x. split; [exact Hx |].
      right. exact Hxin.
  - destruct Hin as [Hin | Hin]; [discriminate |].
    destruct Hd as (u & v & -> & _ & Hd).
    destruct (IH _ _ _ Hd Hin) as (x & Hx & Hxin). exists x. split; [exact Hx |].
    apply in_or_app. right. exact Hxin.
  - destruct Hin as [Hin | Hin]; [discriminate |].
    destruct Hd as (u & v & caps' & -> & _ & _ & Hd & _).
    destruct (IH _ _ _ Hd Hin) as (x & Hx & Hxin). exists x. split; [exact Hx |].
    apply in_or_app. right. exact Hxin.
Qed.

Lemma lit_any_comma (ic : bool) (c : N) : lit_match ic COMMA c = true -> c = COMMA.
Proof.
  destruct ic; [| apply lit_comma]. unfold lit_match.
  change (canonicalize COMMA) with COMMA. unfold canonicalize.
  destruct ((97 <=? c) && (c <=? 122)) eqn:E; intros H; apply N.eqb_eq in H.
  - apply andb_true_iff in E as (E1 & E2). apply N.leb_le in E1. unfold COMMA in H. lia.
  - symmetry. exact H.
Qed.

Lemma exec_needs_comma (ic : bool) (r : regex) (s : jsstring) (caps : list jsstring) :
  In (Lit COMMA) r -> exec ic r s = Some caps -> In COMMA s.
Proof.
  intros Hin H. apply exec_from_sound in H as (pre & post & -> & Hd).
  destruct (den_lit_in ic r COMMA _ _ _ Hd Hin) as (c & Hc & Hcin).
  apply lit_any_comma in Hc. subst c. apply in_or_app. right. exact Hcin.
Qed.

Lemma byRegex_needs_comma (payload : jsstring) : ~ In COMMA payload -> byRegex payload = None.
Proof.
  intros Hno. apply byRegex_none.
  - destruct (threePartMatch payload) eqn:H; [| reflexivity]. exfalso. apply Hno.
    apply (exec_needs_comma false threePartRe payload l); [simpl; tauto | exact H].
  - destruct (labeledMatch payload) eqn:H; [| reflexivity]. exfalso. apply Hno.
    apply (exec_needs_comma true labeledRe payload l); [vm_compute; tauto | exact H].
  - destruct (simpleMatch payload) eqn:H; [| reflexivity]. exfalso. apply Hno.
    apply (exec_needs_comma false simpleRe payload l); [simpl; tauto | exact H].
Qed.

Lemma members_no_comma (f : nat) (s : jsstring) (acc ms : list (jsstring * JsValue))
    (r : jsstring) :
  ~ In COMMA s -> parse_members f s acc = POk ms r -> exists kv, ms = acc ++ [kv].
Proof.
  intros Hno H. destruct f as [|f]; [discriminate |]. cbn [parse_members] in H.
  destruct (parse_key s) as [(k, r0) |] eqn:Hk; [| discriminate].
  apply parse_key_split in Hk as (bk & -> & _).
  destruct (skip_ws_split r0) as (ws0 & Hs0 & _).
  destruct (skip_ws r0) as [|c0 r1]; [discriminate |].
  destruct (c0 =? 58); [| discriminate].
  destruct (skip_ws_split r1) as (ws1 & Hs1 & _).
  destruct (parse_value f (skip_ws r1)) as [v r2 | |] eqn:Hv; try discriminate.
  apply parse_value_split in Hv as (b & Hb & _).
  destruct (skip_ws_split r2) as (ws & Hs & _).
  destruct (skip_ws r2) as [|c r']; [discriminate |].
  destruct (c =? 44) eqn:E1; [| destruct (c =? 125) eqn:E2; [| discriminate]].
  - exfalso. apply Hno. apply N.eqb_eq in E1. subst c.
    rewrite Hs0, Hs1, Hb, Hs.
    repeat (apply in_or_app; right; try (right; apply in_or_app; right)).
    left. reflexivity.
  - injection H as <- _. eauto.
Qed.

Lemma parse_scalar_not_object (s : jsstring) (ms : list (jsstring * JsValue)) (r : jsstring) :
  parse_scalar s <> POk (JObject ms) r.
Proof.
  unfold parse_scalar, literal, number_body. destruct s as [|c s]; [discriminate |].
  repeat match goal with
         | |- context [if ?b then _ else _] => destruct b
         | |- context [match ?x with _ => _ end] => destruct x
         end; discriminate.
Qed.

Lemma JSON_object_no_comma (payload : jsstring) (ms : list (jsstring * JsValue)) :
  ~ In COMMA payload -> JSON_parse payload = Normal (JObject ms) ->
  ms = [] \/ exists kv, ms = [kv].
Proof.
  intros Hno. unfold JSON_parse, json_fuel.
  destruct (skip_ws_split payload) as (ws & Hs & _).
  replace (2 * length payload + 2)%nat with (S (2 * length payload + 1)) by lia.
  destruct (skip_ws payload) as [|c s]; [discriminate |]. cbn [parse_value].
  destruct (c =? 123).
  - destruct (skip_ws_split s) as (ws' & Hs' & _).
    destruct (skip_ws s) as [|d r0]; [discriminate |].
    destruct (d =? 125).
    + destruct (is_nil (skip_ws r0)); [| discriminate]. intros H. injection H as <-. auto.
    + destruct (parse_members _ (d :: r0) []) as [ms' r' | |] eqn:Hm; try discriminate.
      destruct (is_nil (skip_ws r')); [| discriminate]. intros H. injection H as <-.
      right. apply members_no_comma in Hm as (kv & ->); [eauto |].
      intros Hin. apply Hno. rewrite Hs. apply in_or_app. right. right.
      rewrite Hs'. apply in_or_app. right. exact Hin.
  - destruct (c =? 91).
    + destruct (skip_ws s) as [|d r0]; [discriminate |].
      destruct (d =? 93).
      * destruct (is_nil (skip_ws r0)); discriminate.
      * destruct (parse_elements _ (d :: r0) []) as [vs r' | |]; try discriminate.
        destruct (is_nil (skip_ws r')); discriminate.
    + destruct (parse_scalar (c :: s)) as [v r | |] eqn:Hv; try discriminate.
      destruct (is_nil (skip_ws r)); [| discriminate]. intros H. injection H as ->.
      exfalso. apply (parse_scalar_not_object _ _ _ Hv).
Qed.

Lemma lookup_single (key k : jsstring) (v : JsValue) :
  lookup_last key [(k, v)] = if bool_decide (k = key) then Some v else None.
Proof. reflexivity. Qed.

Lemma tryJSON_no_comma (payload : jsstring) :
  ~ In COMMA payload -> forall i, tryJSON payload <> Normal (Some i).
Proof.
  intros Hno i. destruct (JSON_parse payload) as [v | e] eqn:Hp;
    [| rewrite (tryJSON_throw payload e Hp); discriminate].
  destruct v; try (apply (tryJSON_not_object payload _ Hp); discriminate).
  destruct (JSON_object_no_comma payload members Hno Hp) as [-> | ((k, v) & ->)].
  - unfold tryJSON. rewrite Hp. discriminate.
  - unfold tryJSON. rewrite Hp.
    unfold and_then, truthy_get, trim_get, get, bind. rewrite !lookup_single.
    destruct (bool_decide_reflect (k = str "name")) as [-> | Hn].
    + rewrite ?bool_decide_eq_false_2 by discriminate. simpl.
      destruct v as [| [] | | | |]; simpl; try discriminate;
        match goal with |- context [if ?b then _ else _] => destruct b end; discriminate.
    + destruct (bool_decide_reflect (k = str "lastName")) as [-> | Hl].
      * rewrite ?bool_decide_eq_false_2 by discriminate. simpl.
        destruct v as [| [] | | | |]; simpl; try discriminate;
        match goal with |- context [if ?b then _ else _] => destruct b end; discriminate.
      * simpl. discriminate.
Qed.

Lemma split_single (sep : N) (s : jsstring) : ~ In sep s -> split sep s = [s].
Proof.
  induction s as [|c s IH]; intros H; [reflexivity |]. simpl.
  destruct (c =? sep) eqn:E.
  - apply N.eqb_eq in E. subst c. exfalso. apply H. left. reflexivity.
  - rewrite IH; [reflexivity |]. intros Hin. apply H. right. exact Hin.
Qed.

Lemma not_in_b (x : N) (s : jsstring) : existsb (fun c => c =? x) s = false -> ~ In x s.
Proof.
  intros H Hin. assert (existsb (fun c => c =? x) s = true); [| congruence].
  apply existsb_exists. exists x. split; [exact Hin | apply N.eqb_refl].
Qed.

(** X14: every accepted format needs a comma or a line feed.  Without a
    comma none of the three comma strategies matches and the structured
    strategy returns nothing (an object with one member at most cannot
    hold the two fields), so the result is that of the line strategy;
    without a line feed either, the parse fails with two empty fields. *)
Theorem needs_comma_or_line_feed :
  forall payload : jsstring,
    ~ In COMMA payload ->
    byRegex payload = None
    /\ (forall i, tryJSON payload <> Normal (Some i))
    /\ parseQRContent payload = Normal (byLines payload)
    /\ (~ In LF payload ->
        parseQRContent payload = Normal {| name := []; country := [] |}
        /\ parse_ok payload = false).
Proof.
  intros payload Hno.
  pose proof (byRegex_needs_comma payload Hno) as Hr.
  pose proof (tryJSON_no_comma payload Hno) as Hj.
  pose proof (parse_falls_to_lines payload Hr Hj) as Hl.
  split; [exact Hr |]. split; [exact Hj |]. split; [exact Hl |].
  intros Hlf.
  assert (He : parseQRContent payload = Normal {| name := []; country := [] |}).
  { rewrite Hl, byLines_short; [reflexivity |].
    unfold nonblank_lines. rewrite (split_single LF payload Hlf). simpl.
    destruct (negb (is_nil (trim payload))); simpl; lia. }
  split; [exact He |]. unfold parse_ok. rewrite He. reflexivity.
Qed.

Lemma needs_comma_or_line_feed_witness :
  parseQRContent P_json_one_field = Normal {| name := []; country := [] |}.
Proof.
  assert (Hc : ~ In COMMA P_json_one_field) by (apply not_in_b; reflexivity).
  assert (Hl : ~ In LF P_json_one_field) by (apply not_in_b; reflexivity).
  pose proof (needs_comma_or_line_feed P_json_one_field Hc) as (_ & _ & _ & H).
  apply (H Hl).
Defined.

(** ** The parser: the labelled form, the two-part form and blank parts *)

Lemma greedy_longest {A : Type} (p : N -> bool) (k : jsstring -> jsstring -> option A) :
  forall (u v acc : jsstring) (r : A),
    forallb p u = true ->
    match v with [] => True | c :: _ => p c = false end ->
    k (acc ++ u) v = Some r ->
    greedy p k acc (u ++ v) = Some r.
Proof.
  induction u as [|c u IH]; intros v acc r Hu Hv Hk.
  - rewrite app_nil_r in Hk. simpl. destruct v as [|d v]; simpl; [exact Hk |].
    rewrite Hv. exact Hk.
  - simpl in Hu. apply andb_true_iff in Hu as (Hc & Hu). simpl. rewrite Hc.
    rewrite (IH v (acc ++ [c]) r Hu Hv); [reflexivity |].
    rewrite <- app_assoc. exact Hk.
Qed.

Lemma m_lits (word : jsstring) :
  forall (l : jsstring) (r : regex) (bos : bool) (s : jsstring),
    List.map canonicalize l = List.map canonicalize word ->
    m true (List.map Lit word ++ r) bos (l ++ s) = m true r (bos && is_nil l) s.
Proof.
  induction word as [|p word IH]; intros l r bos s H.
  - destruct l; [| discriminate]. simpl. rewrite andb_true_r. reflexivity.
  - destruct l as [|c l]; [discriminate |]. simpl in H. injection H as Hc Hl.
    simpl. unfold lit_match. rewrite Hc, N.eqb_refl.
    rewrite (IH l r false s Hl). simpl. rewrite andb_false_r. reflexivity.
Qed.

Lemma canon_is_comma (p : N) : canonicalize p = COMMA -> p = COMMA.
Proof.
  unfold canonicalize, COMMA. destruct ((97 <=? p) && (p <=? 122)) eqn:E; [| auto].
  apply andb_true_iff in E as (E1 & _). apply N.leb_le in E1. lia.
Qed.

Lemma canon_comma : canonicalize COMMA = COMMA.
Proof. reflexivity. Qed.

Lemma same_canon_no_comma (word l : jsstring) :
  List.map canonicalize l = List.map canonicalize word ->
  no_comma word = true -> no_comma l = true.
Proof.
  revert l. induction word as [|p word IH]; intros l H Hw.
  - destruct l; [reflexivity | discriminate].
  - destruct l as [|c l]; [discriminate |]. simpl in H. injection H as Hc Hl.
    unfold no_comma in Hw. simpl in Hw. apply andb_true_iff in Hw as (Hp & Hw).
    apply no_comma_cons; [| apply IH; assumption].
    unfold cmatch. apply negb_true_iff. apply N.eqb_neq. intros ->.
    rewrite canon_comma in Hc. symmetry in Hc. apply canon_is_comma in Hc. subst p.
    discriminate.
Qed.

Lemma canon_upper_not_space (c u : N) :
  canonicalize c = u -> (65 <= u)%N -> (u <= 90)%N -> is_space c = false.
Proof.
  unfold canonicalize. intros H H1 H2.
  assert (Hr : (65 <= c)%N /\ (c <= 122)%N).
  { destruct ((97 <=? c) && (c <=? 122)) eqn:E.
    - apply andb_true_iff in E as (E1 & E2). apply N.leb_le in E1, E2. lia.
    - subst u. lia. }
  unfold is_space, is_line_terminator.
  repeat match goal with
         | |- context [(c =? ?n)] =>
             replace (c =? n) with false by (symmetry; apply N.eqb_neq; lia)
         end.
  replace (8192 <=? c) with false by (symmetry; apply N.leb_gt; lia). reflexivity.
Qed.

Lemma starts_with_text_inv (s : jsstring) :
  starts_with_text s = true -> exists c s', s = c :: s' /\ is_space c = false.
Proof.
  destruct s as [|c s]; [discriminate |]. simpl. intros H.
  apply negb_true_iff in H. eauto.
Qed.

(** A text with one comma only is not of the three-part form. *)
Lemma one_comma_not_three (a b : jsstring) :
  no_comma a = true -> no_comma b = true -> threePartMatch (a ++ COMMA :: b) = None.
Proof.
  intros Ha Hb. destruct (threePartMatch (a ++ COMMA :: b)) as [caps |] eqn:H; [| reflexivity].
  exfalso. destruct (threePart_sound _ _ H)
    as (g1 & w1 & g2 & w2 & g3 & _ & Heq & _ & Hn1 & _).
  apply first_comma_unique in Heq as (_ & Heq); [| assumption | assumption].
  apply (no_comma_not_in b Hb). rewrite Heq. apply in_or_app. right. left. reflexivity.
Qed.

Lemma exec_first (ic : bool) (r : regex) (s : jsstring) (caps : list jsstring) :
  m ic r true s = Some caps -> exec ic r s = Some caps.
Proof. intros H. unfold exec. destruct s; cbn [exec_from]; rewrite H; reflexivity. Qed.

Lemma labeled_exact (L1 w1 X w2 L2 w3 Y : jsstring) :
  same_word_ignoring_case "Name:" L1 -> all_space w1 = true ->
  starts_with_text X = true -> no_comma X = true -> all_space w2 = true ->
  same_word_ignoring_case "Country:" L2 -> all_space w3 = true ->
  starts_with_text Y = true -> one_line Y = true ->
  labeledMatch (L1 ++ w1 ++ X ++ COMMA :: w2 ++ L2 ++ w3 ++ Y) = Some [X; Y].
Proof.
  intros HL1 Hw1 HX HnX Hw2 HL2 Hw3 HY HlY.
  apply starts_with_text_inv in HX as (x0 & X' & -> & Hx0).
  apply starts_with_text_inv in HY as (y0 & Y' & -> & Hy0).
  assert (Hl0 : exists l0 L2', L2 = l0 :: L2' /\ is_space l0 = false).
  { unfold same_word_ignoring_case in HL2. destruct L2 as [|l0 L2']; [discriminate |].
    injection HL2 as Hc _. exists l0, L2'. split; [reflexivity |].
    apply (canon_upper_not_space l0 67 Hc); lia. }
  assert (E5 : m true [Group Dot] false (y0 :: Y') = Some [y0 :: Y']).
  { cbn [m]. rewrite <- (app_nil_r (y0 :: Y')) at 1.
    rewrite (greedy_longest _ _ (y0 :: Y') [] [] [y0 :: Y']); auto. }
  assert (E4 : m true [Star Space; Group Dot] false (w3 ++ y0 :: Y') = Some [y0 :: Y']).
  { cbn [m]. apply greedy_longest; [exact Hw3 | exact Hy0 |]. exact E5. }
  assert (E3 : m true (lits "Country:" ++ [Star Space; Group Dot]) false
                 (L2 ++ w3 ++ y0 :: Y') = Some [y0 :: Y']).
  { unfold lits. rewrite (m_lits _ L2 _ false _ HL2). exact E4. }
  assert (E2 : m true (Star Space :: lits "Country:" ++ [Star Space; Group Dot]) false
                 (w2 ++ L2 ++ w3 ++ y0 :: Y') = Some [y0 :: Y']).
  { cbn [m]. destruct Hl0 as (l0 & L2' & -> & Hl0).
    apply greedy_longest; [exact Hw2 | exact Hl0 |]. exact E3. }
  assert (E1 : m true (Group NotComma :: Lit COMMA :: Star Space
                         :: lits "Country:" ++ [Star Space; Group Dot]) false
                 ((x0 :: X') ++ COMMA :: w2 ++ L2 ++ w3 ++ y0 :: Y')
               = Some [x0 :: X'; y0 :: Y']).
  { cbn [m]. apply greedy_longest; [exact HnX | reflexivity |].
    cbn [app is_nil]. unfold lit_match. rewrite N.eqb_refl.
    change (m true (Star Space :: lits "Country:" ++ [Star Space; Group Dot]) false
              (w2 ++ L2 ++ w3 ++ y0 :: Y')) with
      (greedy (cmatch Space)
         (fun cap rest =>
            m true (lits "Country:" ++ [Star Space; Group Dot]) (false && is_nil cap) rest)
         [] (w2 ++ L2 ++ w3 ++ y0 :: Y')) in E2.
    rewrite E2. reflexivity. }
  assert (E0 : m true (Star Space :: Group NotComma :: Lit COMMA :: Star Space
                         :: lits "Country:" ++ [Star Space; Group Dot]) false
                 (w1 ++ (x0 :: X') ++ COMMA :: w2 ++ L2 ++ w3 ++ y0 :: Y')
               = Some [x0 :: X'; y0 :: Y']).
  { cbn [m]. apply greedy_longest; [exact Hw1 | exact Hx0 |]. exact E1. }
  unfold labeledMatch. apply exec_first.
  assert (Em : m true labeledRe true
                 (L1 ++ w1 ++ (x0 :: X') ++ COMMA :: w2 ++ L2 ++ w3 ++ y0 :: Y')
               = Some [x0 :: X'; y0 :: Y']).
  { unfold labeledRe, lits. rewrite (m_lits _ L1 _ true _ HL1).
    replace (true && is_nil L1) with false
      by (destruct L1; [discriminate HL1 | reflexivity]).
    exact E0. }
  exact Em.
Qed.

(** X15: the labelled form.  A payload that starts with the label
    [Name:], in any mix of upper and lower case, followed by a name
    without comma, a comma, the label [Country:] and a country on one line
    without comma, white space being allowed after each label and after the
    comma, parses by strategy 2 to the trimmed name and the trimmed
    country. *)
Theorem labeled_parse :
  forall L1 w1 X w2 L2 w3 Y : jsstring,
    same_word_ignoring_case "Name:" L1 -> all_space w1 = true ->
    starts_with_text X = true -> no_comma X = true -> all_space w2 = true ->
    same_word_ignoring_case "Country:" L2 -> all_space w3 = true ->
    starts_with_text Y = true -> one_line Y = true -> no_comma Y = true ->
    let payload := L1 ++ w1 ++ X ++ COMMA :: w2 ++ L2 ++ w3 ++ Y in
    threePartMatch payload = None
    /\ labeledMatch payload = Some [X; Y]
    /\ parseQRContent payload = Normal {| name := trim X; country := trim Y |}.
Proof.
  intros L1 w1 X w2 L2 w3 Y HL1 Hw1 HX HnX Hw2 HL2 Hw3 HY HlY HnY payload.
  assert (H1 : threePartMatch payload = None).
  { unfold payload.
    replace (L1 ++ w1 ++ X ++ COMMA :: w2 ++ L2 ++ w3 ++ Y)
      with ((L1 ++ w1 ++ X) ++ COMMA :: w2 ++ L2 ++ w3 ++ Y) by list_eq.
    apply one_comma_not_three.
    - apply no_comma_app; [apply (same_canon_no_comma _ _ HL1); reflexivity |].
      apply no_comma_app; [apply all_space_no_comma; exact Hw1 | exact HnX].
    - apply no_comma_app; [apply all_space_no_comma; exact Hw2 |].
      apply no_comma_app; [apply (same_canon_no_comma _ _ HL2); reflexivity |].
      apply no_comma_app; [apply all_space_no_comma; exact Hw3 | exact HnY]. }
  pose proof (labeled_exact L1 w1 X w2 L2 w3 Y HL1 Hw1 HX HnX Hw2 HL2 Hw3 HY HlY) as H2.
  fold payload in H2.
  split; [exact H1 |]. split; [exact H2 |].
  unfold parseQRContent, byRegex. rewrite H1, H2. reflexivity.
Qed.

Lemma labeled_parse_witness :
  parseQRContent (str "NAME:  Jane Roe , country:Canada ")
  = Normal {| name := str "Jane Roe"; country := str "Canada" |}.
Proof.
  apply (labeled_parse (str "NAME:") (str "  ") (str "Jane Roe ") (str " ")
           (str "country:") [] (str "Canada ")); reflexivity.
Defined.

Lemma simple_parts (X w t : jsstring) :
  X <> [] -> no_comma X = true -> all_space w = true -> t <> [] -> one_line t = true ->
  exists g2, simpleMatch (X ++ COMMA :: w ++ t) = Some [X; g2]
             /\ trim g2 = trim (w ++ t).
Proof.
  intros HX HnX Hw Ht Hlt.
  destruct (simple_complete X w t HX HnX Hw Ht Hlt) as (caps & Hs).
  destruct (simple_sound _ _ Hs) as (g1 & v & g2 & -> & Heq & _ & Hg1 & Hv & _).
  apply first_comma_unique in Heq as (<- & Heq); [| assumption | assumption].
  exists g2. split; [exact Hs |]. rewrite Heq. symmetry. apply trim_app_space. exact Hv.
Qed.

(** X16: the two-part form.  A payload [X,Z] with one comma only ([X] not
    empty; [Z] optional white space and a non-empty rest on one line) that
    the labelled pattern does not match parses by strategy 3 to the name
    [trim X] and the country [trim Z]. *)
Theorem two_part_parse :
  forall X w t : jsstring,
    X <> [] -> no_comma X = true ->
    all_space w = true -> t <> [] -> one_line t = true -> no_comma t = true ->
    labeledMatch (X ++ COMMA :: w ++ t) = None ->
    threePartMatch (X ++ COMMA :: w ++ t) = None
    /\ parseQRContent (X ++ COMMA :: w ++ t)
       = Normal {| name := trim X; country := trim (w ++ t) |}.
Proof.
  intros X w t HX HnX Hw Ht Hlt Hnt Hlab.
  assert (H1 : threePartMatch (X ++ COMMA :: w ++ t) = None).
  { apply one_comma_not_three; [exact HnX |].
    apply no_comma_app; [apply all_space_no_comma; exact Hw | exact Hnt]. }
  split; [exact H1 |].
  destruct (simple_parts X w t HX HnX Hw Ht Hlt) as (g2 & Hs & Hg2).
  unfold parseQRContent, byRegex. rewrite H1, Hlab, Hs, Hg2. reflexivity.
Qed.

Lemma two_part_parse_witness :
  parseQRContent (str "Jane Roe,  Canada ")
  = Normal {| name := str "Jane Roe"; country := str "Canada" |}.
Proof.
  apply (two_part_parse (str "Jane Roe") (str "  ") (str "Canada "));
    solve [discriminate | reflexivity].
Defined.

Lemma threePart_identity (X Y w t : jsstring) :
  X <> [] -> no_comma X = true -> Y <> [] -> no_comma Y = true ->
  all_space w = true -> t <> [] -> one_line t = true ->
  byRegex (X ++ COMMA :: Y ++ COMMA :: w ++ t)
  = Some {| name := trim X ++ comma_space ++ trim Y; country := trim (w ++ t) |}.
Proof.
  intros HX HnX HY HnY Hw Ht Hlt.
  destruct (threePart_complete X Y w t HX HnX HY HnY Hw Ht Hlt) as (caps & Hm).
  destruct (threePart_sound _ _ Hm)
    as (g1 & w1 & g2 & w2 & g3 & -> & Heq & _ & Hn1 & Hw1 & _ & Hn2 & Hw2 & _).
  apply first_comma_unique in Heq as (<- & Heq); [| assumption | assumption].
  apply first_comma_unique in Heq as (HY' & HZ');
    [| assumption | apply no_comma_app; [apply all_space_no_comma |]; assumption].
  unfold byRegex. rewrite Hm, HY', HZ'.
  rewrite (trim_app_space w1 g2 Hw1), (trim_app_space w2 g3 Hw2). reflexivity.
Qed.

(** X17: blank parts of a three-part payload.  For a payload [X,Y,Z] that
    strategy 1 matches ([X] and [Y] not empty and without comma; [Z]
    optional white space and a non-empty rest without line terminator) the
    returned name always holds the separator, so the parse succeeds exactly
    when the rest of [Z] has a character that is not white space; a blank
    last or first name is not noticed. *)
Theorem three_part_blank_parts :
  forall X Y w t : jsstring,
    X <> [] -> no_comma X = true ->
    Y <> [] -> no_comma Y = true ->
    all_space w = true -> t <> [] -> one_line t = true ->
    let payload := X ++ COMMA :: Y ++ COMMA :: w ++ t in
    (parse_ok payload = true <-> all_space t = false)
    /\ (all_space X = true -> all_space Y = true -> all_space t = false ->
        exists c, parseQRContent payload = Normal {| name := comma_space; country := c |}
                  /\ c <> []).
Proof.
  intros X Y w t HX HnX HY HnY Hw Ht Hlt payload.
  pose proof (threePart_identity X Y w t HX HnX HY HnY Hw Ht Hlt) as Hr.
  fold payload in Hr.
  assert (Hp : parseQRContent payload
               = Normal {| name := trim X ++ comma_space ++ trim Y;
                           country := trim (w ++ t) |})
    by (unfold parseQRContent; rewrite Hr; reflexivity).
  assert (Hc : trim (w ++ t) = [] <-> all_space t = true).
  { rewrite (trim_app_space w t Hw). apply trim_nil. }
  assert (Hn : is_nil (trim X ++ comma_space ++ trim Y) = false).
  { apply is_nil_false. destruct (trim X); discriminate. }
  split.
  - unfold parse_ok. rewrite Hp. cbn [name country]. rewrite Hn. cbn [negb andb].
    rewrite negb_true_iff, is_nil_false. rewrite Hc.
    destruct (all_space t); split; congruence.
  - intros HbX HbY Hbt. exists (trim (w ++ t)). rewrite Hp.
    apply trim_nil in HbX, HbY. rewrite HbX, HbY. split; [reflexivity |].
    intros H. apply Hc in H. congruence.
Qed.

Lemma three_part_blank_parts_witness :
  parse_ok (str " , , USA") = true.
Proof.
  apply (three_part_blank_parts (str " ") (str " ") (str " ") (str "USA"));
    solve [discriminate | reflexivity].
Defined.

(** ** The rows of the export *)

Lemma uint_digits (d : Decimal.uint) :
  forallb is_digit (str (NilEmpty.string_of_uint d)) = true.
Proof. induction d; simpl; auto. Qed.

Lemma read_bare_run (b : jsstring) :
  forall (cur rest : jsstring),
    forallb is_digit b = true ->
    csv_read_row Bare cur (b ++ COMMA :: rest)
    = push_field (cur ++ b) (csv_read_row FieldStart [] rest).
Proof.
  induction b as [|c b IH]; intros cur rest Hb.
  - rewrite app_nil_r. reflexivity.
  - simpl in Hb. apply andb_true_iff in Hb as (Hc & Hb).
    pose proof (digit_not_comma c Hc) as Hnc. unfold cmatch in Hnc.
    apply negb_true_iff in Hnc.
    assert (Hnq : (c =? DQUOTE) = false).
    { unfold is_digit in Hc. apply andb_true_iff in Hc as (H1 & _).
      apply N.leb_le in H1. apply N.eqb_neq. unfold DQUOTE. lia. }
    cbn [app csv_read_row]. rewrite Hnc, Hnq, IH by exact Hb.
    rewrite <- app_assoc. reflexivity.
Qed.

Lemma read_number (n : nat) (rest : jsstring) :
  csv_read_row FieldStart [] (number_to_string n ++ COMMA :: rest)
  = push_field (number_to_string n) (csv_read_row FieldStart [] rest).
Proof.
  unfold number_to_string. pose proof (uint_digits (Nat.to_uint n)) as Hd.
  destruct (str (NilEmpty.string_of_uint (Nat.to_uint n))) as [|c b]; [reflexivity |].
  simpl in Hd. apply andb_true_iff in Hd as (Hc & Hb).
  pose proof (digit_not_comma c Hc) as Hnc. unfold cmatch in Hnc.
  apply negb_true_iff in Hnc.
  assert (Hnq : (c =? DQUOTE) = false).
  { unfold is_digit in Hc. apply andb_true_iff in Hc as (H1 & _).
    apply N.leb_le in H1. apply N.eqb_neq. unfold DQUOTE. lia. }
  cbn [app csv_read_row]. rewrite Hnq, Hnc. apply (read_bare_run b [c] rest Hb).
Qed.

Lemma read_quoted_run (s : jsstring) :
  forall (cur tail : jsstring),
    csv_read_row Quoted cur (replace_quotes s ++ DQUOTE :: tail)
    = csv_read_row QuoteSeen (cur ++ s) tail.
Proof.
  induction s as [|c s IH]; intros cur tail.
  - rewrite app_nil_r. reflexivity.
  - unfold replace_quotes in *. cbn [flat_map].
    destruct (c =? DQUOTE) eqn:E.
    + apply N.eqb_eq in E. subst c. cbn [app csv_read_row]. rewrite N.eqb_refl.
      rewrite IH, <- app_assoc. reflexivity.
    + cbn [app csv_read_row]. rewrite E, IH, <- app_assoc. reflexivity.
Qed.

Lemma read_quoted_field (s rest : jsstring) :
  csv_read_row FieldStart [] (quoted (replace_quotes s) ++ COMMA :: rest)
  = push_field s (csv_read_row FieldStart [] rest).
Proof.
  unfold quoted. cbn [app csv_read_row]. rewrite N.eqb_refl.
  rewrite <- app_assoc. cbn [app]. rewrite read_quoted_run. reflexivity.
Qed.

Lemma read_quoted_last (s : jsstring) :
  csv_read_row FieldStart [] (quoted (replace_quotes s)) = Some [s].
Proof.
  unfold quoted. cbn [app csv_read_row]. rewrite N.eqb_refl.
  rewrite read_quoted_run. reflexivity.
Qed.

Lemma replace_quotes_plain (s : jsstring) : no_quote s = true -> replace_quotes s = s.
Proof.
  unfold no_quote, replace_quotes. induction s as [|c s IH]; simpl; [reflexivity |].
  intros H. apply andb_true_iff in H as (Hc & Hs). apply negb_true_iff in Hc.
  rewrite Hc, IH by exact Hs. reflexivity.
Qed.

(** X18: a row of the export read back.  When the locale renderings of
    the date hold no double quote, a CSV reader splits the row into its six
    fields and returns the row number, the name, the country and the three
    renderings exactly, whatever commas, quotes or line breaks name and
    country hold. *)
Theorem csv_row_round_trip :
  forall (date time full : Z -> jsstring) (index : nat) (record : AttendanceRecord),
    no_quote (date (scan_timestamp record)) = true ->
    no_quote (time (scan_timestamp record)) = true ->
    no_quote (full (scan_timestamp record)) = true ->
    csv_read_row FieldStart [] (join [COMMA] (csv_fields date time full index record))
    = Some [number_to_string (index + 1); rec_name record; rec_country record;
            date (scan_timestamp record); time (scan_timestamp record);
            full (scan_timestamp record)].
Proof.
  intros date time full index record Hd Ht Hf. unfold csv_fields. cbn [join].
  rewrite <- (replace_quotes_plain _ Hd) at 1.
  rewrite <- (replace_quotes_plain _ Ht) at 1.
  rewrite <- (replace_quotes_plain _ Hf) at 1.
  cbn [app]. rewrite read_number.
  rewrite !read_quoted_field. rewrite read_quoted_last. reflexivity.
Qed.

Lemma csv_row_round_trip_witness :
  csv_read_row FieldStart []
    (join [COMMA] (csv_fields locale_date locale_time locale_full 0 record_quirky))
  = Some [str "1"; strq "O'NEIL, 'Jo'"; str "A,B"; str "1/1/1970"; str "12:00:10 AM";
          str "1/1/1970, 12:00:10 AM"].
Proof.
  apply (csv_row_round_trip locale_date locale_time locale_full 0 record_quirky);
    reflexivity.
Defined.

(** ** The parser: payloads written as lines *)

Lemma split_app_sep (sep : N) (x rest : jsstring) :
  ~ In sep x -> split sep (x ++ sep :: rest) = x :: split sep rest.
Proof.
  induction x as [|c x IH]; intros H.
  - simpl. rewrite N.eqb_refl. reflexivity.
  - cbn [app split]. destruct (c =? sep) eqn:E.
    + apply N.eqb_eq in E. subst c. exfalso. apply H. left. reflexivity.
    + rewrite IH; [reflexivity |]. intros Hin. apply H. right. exact Hin.
Qed.

Lemma split_of_join (sep : N) (lines : list jsstring) :
  lines <> [] -> Forall (fun l => ~ In sep l) lines ->
  split sep (join [sep] lines) = lines.
Proof.
  induction lines as [|x lines IH]; intros Hne Hall; [congruence |].
  inversion Hall as [| ? ? Hx Hrest]; subst.
  destruct lines as [|y lines].
  - simpl. apply split_single. exact Hx.
  - change (join [sep] (x :: y :: lines)) with (x ++ sep :: join [sep] (y :: lines)).
    rewrite split_app_sep by exact Hx. rewrite IH; [reflexivity | discriminate | exact Hrest].
Qed.

Lemma join_no_comma (lines : list jsstring) :
  Forall (fun l => ~ In COMMA l) lines -> ~ In COMMA (join [LF] lines).
Proof.
  induction lines as [|x lines IH]; intros Hall; [intros [] |].
  inversion Hall as [| ? ? Hx Hrest]; subst.
  destruct lines as [|y lines]; [exact Hx |].
  change (join [LF] (x :: y :: lines)) with (x ++ LF :: join [LF] (y :: lines)).
  intros Hin. apply in_app_or in Hin as [Hin | [Hin | Hin]];
    [contradiction | discriminate | exact (IH Hrest Hin)].
Qed.

(** X19: a payload written as lines.  When the lines hold no comma, the
    payload made of them with line feeds between parses by the line
    strategy on the lines that are not blank: the first two give name and
    country, or with three or more the first two give the name and the
    third the country.  Each line is trimmed, so lines ending in a carriage
    return are read alike. *)
Theorem lines_parse :
  forall lines : list jsstring,
    lines <> [] ->
    Forall (fun l => ~ In LF l) lines ->
    Forall (fun l => ~ In COMMA l) lines ->
    let payload := join [LF] lines in
    let kept := List.filter (fun l => negb (is_nil (trim l))) lines in
    nonblank_lines payload = kept
    /\ (forall l0 l1, kept = [l0; l1] ->
          parseQRContent payload = Normal {| name := trim l0; country := trim l1 |})
    /\ (forall l0 l1 l2 rest, kept = l0 :: l1 :: l2 :: rest ->
          parseQRContent payload
          = Normal {| name := trim l0 ++ comma_space ++ trim l1; country := trim l2 |})
    /\ ((length kept < 2)%nat ->
        parseQRContent payload = Normal {| name := []; country := [] |}).
Proof.
  intros lines Hne Hlf Hcomma payload kept.
  assert (Hk : nonblank_lines payload = kept).
  { unfold nonblank_lines, payload. rewrite split_of_join by assumption. reflexivity. }
  assert (Hp : parseQRContent payload = Normal (byLines payload)).
  { apply parse_falls_to_lines.
    - apply byRegex_needs_comma, join_no_comma, Hcomma.
    - apply tryJSON_no_comma, join_no_comma, Hcomma. }
  split; [exact Hk |]. rewrite Hp. unfold byLines. rewrite Hk.
  split; [| split].
  - intros l0 l1 ->. reflexivity.
  - intros l0 l1 l2 rest ->. reflexivity.
  - intros H. destruct kept as [|l0 [|l1 [|l2 rest]]]; simpl in H; try reflexivity; lia.
Qed.

Lemma lines_parse_witness :
  parseQRContent (join [LF] lines_crlf)
  = Normal {| name := str "DOE, John"; country := str "USA" |}.
Proof.
  assert (H1 : lines_crlf <> []) by discriminate.
  assert (H2 : Forall (fun l => ~ In LF l) lines_crlf).
  { repeat constructor; apply not_in_b; reflexivity. }
  assert (H3 : Forall (fun l => ~ In COMMA l) lines_crlf).
  { repeat constructor; apply not_in_b; reflexivity. }
  pose proof (lines_parse lines_crlf H1 H2 H3) as (_ & _ & H & _).
  apply (H (str "DOE" ++ [13]) (str " John" ++ [13]) (str "USA") []). reflexivity.
Defined.

(** ** What the store holds *)

Lemma new_record_consistent env qrData i :
  parseQRContent qrData = Normal i -> parse_ok qrData = true ->
  record_consistent (new_record env qrData i).
Proof.
  intros Hi Hp. unfold record_consistent. simpl.
  unfold parse_ok in Hp. rewrite Hi in Hp. apply andb_true_iff in Hp as (Hn & Hc).
  apply negb_true_iff in Hn, Hc. apply is_nil_false in Hn, Hc.
  split; [rewrite Hi; destruct i; reflexivity |].
  split; [exact Hn |]. split; [exact Hc |].
  apply parse_ok_nonempty. unfold parse_ok. rewrite Hi.
  apply is_nil_false in Hn, Hc. rewrite Hn, Hc. reflexivity.
Qed.

Lemma Forall_snoc {A : Type} (P : A -> Prop) (l : list A) (x : A) :
  Forall P l -> P x -> Forall P (l ++ [x]).
Proof.
  intros Hl Hx. rewrite List.Forall_forall in *. intros y Hy.
  apply in_app_or in Hy as [Hy | [<- | []]]; auto.
Qed.

Lemma consistent_frame (st st' : Scanner) :
  storage st' = storage st -> pending st' = pending st ->
  store_consistent st -> store_consistent st'.
Proof. unfold store_consistent. intros -> ->. auto. Qed.

Lemma await_consistent t st :
  task_consistent t -> store_consistent st -> store_consistent (fst (await t st)).
Proof. intros Ht (Hs & Hq). split; [exact Hs |]. simpl. apply Forall_snoc; assumption. Qed.

Lemma load_local_consistent st :
  store_consistent st -> store_consistent (fst (load_local st)).
Proof. apply consistent_frame; reflexivity. Qed.

Lemma load_consistent st :
  store_consistent st -> store_consistent (fst (loadAttendanceRecords st)).
Proof.
  intros H. unfold loadAttendanceRecords. destruct (useLocalStorage st).
  - apply load_local_consistent. exact H.
  - apply await_consistent; [exact I | exact H].
Qed.

Lemma save_local_consistent record thrown st :
  record_consistent record -> store_consistent st ->
  store_consistent (fst (save_local record thrown st)).
Proof.
  intros Hr (Hs & Hq). unfold save_local. destruct thrown; [split; assumption |].
  apply load_consistent. split; [| exact Hq]. simpl. apply Forall_snoc; assumption.
Qed.

Lemma delete_local_consistent recordId thrown st :
  store_consistent st -> store_consistent (fst (delete_local recordId thrown st)).
Proof.
  intros (Hs & Hq). unfold delete_local. destruct thrown; [split; assumption |].
  apply load_consistent. split; [| exact Hq]. simpl.
  rewrite List.Forall_forall in *. intros r Hr. apply filter_In in Hr as (Hr & _). auto.
Qed.

Lemma process_consistent env qrData st :
  store_consistent st -> store_consistent (fst (processQRData env qrData st)).
Proof.
  intros H. destruct (parse_ok qrData) eqn:Hp.
  - destruct (processQRData_parsed env qrData st Hp) as (i & Hi & ->). cbn [fst].
    assert (Hr : record_consistent (attendanceData env (name i) (country i) qrData))
      by (apply (new_record_consistent env qrData i); assumption).
    assert (H1 : store_consistent (set_codes ({[qrData]} ∪ scannedQRCodes st) st))
      by (revert H; apply consistent_frame; reflexivity).
    unfold saveAttendance. destruct (useLocalStorage _).
    + apply save_local_consistent; assumption.
    + apply await_consistent; assumption.
  - rewrite (processQRData_failed env qrData st Hp). exact H.
Qed.

Lemma handle_consistent now env qrData st :
  store_consistent st -> store_consistent (fst (handleQRDetected now env qrData st)).
Proof.
  intros H. destruct (decide_in st qrData now) eqn:Hd;
    try (rewrite handle_not_accept by congruence; exact H).
  rewrite (handle_accept now env qrData st Hd). cbn [fst].
  apply process_consistent. revert H. apply consistent_frame; reflexivity.
Qed.

Lemma clear_finish_consistent st :
  store_consistent st -> store_consistent (fst (clear_finish st)).
Proof.
  intros H. unfold clear_finish. apply load_consistent.
  revert H. apply consistent_frame; reflexivity.
Qed.

Lemma clear_loop_consistent records st :
  store_consistent st -> store_consistent (fst (clear_loop records st)).
Proof.
  intros H. destruct records as [|record rest]; simpl.
  - apply clear_finish_consistent. exact H.
  - apply (await_consistent (ClearAllAttendance_deleting (rec_id record) rest));
      [exact I | exact H].
Qed.

Lemma clear_stored_consistent records st :
  store_consistent st -> store_consistent (fst (clear_stored records st)).
Proof.
  intros H. unfold clear_stored. destruct (useLocalStorage st).
  - apply clear_finish_consistent. destruct H as (_ & Hq). split; [constructor | exact Hq].
  - apply clear_loop_consistent. exact H.
Qed.

Lemma clearAll_consistent st :
  store_consistent st -> store_consistent (fst (clearAllAttendance st)).
Proof.
  intros H. unfold clearAllAttendance. destruct (useLocalStorage st).
  - apply clear_stored_consistent. exact H.
  - apply await_consistent; [exact I | exact H].
Qed.

Lemma export_then_consistent date time full thenClear records st :
  store_consistent st ->
  store_consistent (fst (export_then date time full thenClear records st)).
Proof.
  intros H. unfold export_then. destruct thenClear; [| exact H].
  pose proof (clearAll_consistent st H) as H'.
  destruct (clearAllAttendance st). exact H'.
Qed.

Lemma export_called_consistent date time full thenClear st :
  store_consistent st ->
  store_consistent (fst (exportToCSV_called date time full thenClear st)).
Proof.
  intros H. unfold exportToCSV_called. destruct (useLocalStorage st).
  - apply export_then_consistent. exact H.
  - apply await_consistent; [exact I | exact H].
Qed.

Lemma set_mode_consistent b st :
  store_consistent st -> store_consistent (set_useLocalStorage b st).
Proof. apply consistent_frame; reflexivity. Qed.

Lemma resume_consistent date time full t a thrown st :
  task_consistent t -> store_consistent st ->
  store_consistent (fst (resume date time full t a thrown st)).
Proof.
  intros Ht H.
  destruct t as [record | | recordId | | recordId rest | thenClear |]; cbn [resume].
  - unfold saveAttendance_answered. destruct a.
    + apply save_local_consistent; [exact Ht | apply set_mode_consistent; exact H].
    + apply load_consistent. exact H.
  - unfold loadAttendanceRecords_answered. destruct a.
    + apply load_local_consistent, set_mode_consistent. exact H.
    + revert H. apply consistent_frame; reflexivity.
  - unfold deleteRecord_answered. destruct a.
    + apply delete_local_consistent, set_mode_consistent. exact H.
    + apply load_consistent. exact H.
  - unfold clearAllAttendance_answered. destruct a.
    + apply clear_stored_consistent, set_mode_consistent. exact H.
    + apply clear_stored_consistent. exact H.
  - apply clear_loop_consistent. exact H.
  - unfold exportToCSV_answered. apply export_then_consistent.
    destruct a; [apply set_mode_consistent |]; exact H.
  - unfold testAPI_answered. destruct a.
    + apply load_consistent, set_mode_consistent. exact H.
    + apply set_mode_consistent. exact H.
Qed.

Lemma Forall_remove_nth {A : Type} (P : A -> Prop) (l : list A) (k : nat) (x : A) :
  Forall P l -> nth_error l k = Some x ->
  P x /\ Forall P (firstn k l ++ skipn (S k) l).
Proof.
  intros Hl Hk. rewrite List.Forall_forall in Hl. split.
  - apply Hl. eapply nth_error_In. exact Hk.
  - rewrite List.Forall_forall. intros y Hy. apply Hl.
    apply in_app_or in Hy as [Hy | Hy].
    + rewrite <- (firstn_skipn k l). apply in_or_app. left. exact Hy.
    + rewrite <- (firstn_skipn (S k) l). apply in_or_app. right. exact Hy.
Qed.

(** X20: every record of the store is the parse of its own raw payload.
    When the records of the store, and the records whose POST is in
    flight, have a non-empty raw payload and the name and country that
    [parseQRContent] returns for it, both non-empty, the same holds after
    every operation of the scanner, in either mode and whatever the writes
    do, and after every answer to a request: no record with an empty name
    or country is ever stored. *)
Theorem store_holds_parsed_records :
  forall st : Scanner,
    store_consistent st ->
    (forall now env qrData, store_consistent (fst (handleQRDetected now env qrData st)))
    /\ (forall env qrData, store_consistent (fst (processQRData env qrData st)))
    /\ (forall env, store_consistent (fst (addTestRecord env st)))
    /\ (forall confirmed recordId thrown,
          store_consistent (fst (deleteRecord confirmed recordId thrown st)))
    /\ store_consistent (fst (loadAttendanceRecords st))
    /\ store_consistent (fst (clearAllAttendance st))
    /\ store_consistent (clearScannedQRCodes st)
    /\ (forall date time full, store_consistent (fst (exportToCSV date time full st)))
    /\ (forall date time full shouldDownload,
          store_consistent (fst (stopScanner date time full shouldDownload st)))
    /\ store_consistent (fst (testAPI st))
    /\ (forall date time full k a thrown,
          store_consistent (fst (settle date time full k a thrown st))).
Proof.
  intros st Hst.
  split; [intros; apply handle_consistent; exact Hst |].
  split; [intros; apply process_consistent; exact Hst |].
  split; [intros; apply process_consistent; exact Hst |].
  split.
  { intros confirmed recordId thrown. unfold deleteRecord.
    destruct confirmed; [| exact Hst]. destruct (useLocalStorage st).
    - apply delete_local_consistent. exact Hst.
    - apply (await_consistent (DeleteRecord_sent recordId)); [exact I | exact Hst]. }
  split; [apply load_consistent; exact Hst |].
  split; [apply clearAll_consistent; exact Hst |].
  split; [revert Hst; apply consistent_frame; reflexivity |].
  split; [intros; apply export_called_consistent; exact Hst |].
  split.
  { intros date time full shouldDownload. unfold stopScanner.
    assert (H0 : store_consistent (set_scanning false st))
      by (revert Hst; apply consistent_frame; reflexivity).
    destruct (0 <? size _)%nat; [| exact H0].
    destruct shouldDownload; [| exact H0].
    apply export_called_consistent. exact H0. }
  split; [apply (await_consistent TestAPI_fetched); [exact I | exact Hst] |].
  intros date time full k a thrown. unfold settle.
  destruct (nth_error (pending st) k) as [t |] eqn:Hk; [| exact Hst].
  destruct Hst as (Hs & Hq).
  destruct (Forall_remove_nth _ _ _ _ Hq Hk) as (Ht & Hrest).
  apply resume_consistent; [exact Ht |]. split; [exact Hs | exact Hrest].
Qed.

Lemma store_holds_parsed_records_witness :
  store_consistent (fst (handleQRDetected 10000 env1 P_doe constructor))
  /\ store_consistent
       (fst (settle locale_date locale_time locale_full 1 Rejected None
               (fst (handleQRDetected 10000 env1 P_doe constructor)))).
Proof.
  assert (H0 : store_consistent constructor).
  { split; [constructor |]. constructor; [exact I | constructor]. }
  pose proof (store_holds_parsed_records constructor H0) as (H & _).
  pose proof (store_holds_parsed_records _ (H 10000%Z env1 P_doe))
    as (_ & _ & _ & _ & _ & _ & _ & _ & _ & _ & H').
  split; [apply H | apply H'].
Defined.

(** ** The two modes *)





(** X22: the scanner does not leave [localStorage] by itself.  Once
    [useLocalStorage] is set, a detection, the test button, a deletion, a
    load, the clearing of all records, the export and the stop of the
    scanner keep it set and start no request, so nothing is sent to the
    remote table any more; the answer to a request that was in flight keeps
    it set too, except the fulfilled answer to [testAPI], which clears it. *)
Theorem offline_is_stable :
  forall st : Scanner,
    useLocalStorage st = true ->
    (forall now env qrData,
       useLocalStorage (fst (handleQRDetected now env qrData st)) = true
       /\ pending (fst (handleQRDetected now env qrData st)) = pending st)
    /\ (forall env,
          useLocalStorage (fst (addTestRecord env st)) = true
          /\ pending (fst (addTestRecord env st)) = pending st)
    /\ (forall confirmed recordId thrown,
          useLocalStorage (fst (deleteRecord confirmed recordId thrown st)) = true
          /\ pending (fst (deleteRecord confirmed recordId thrown st)) = pending st)
    /\ (useLocalStorage (fst (loadAttendanceRecords st)) = true
        /\ pending (fst (loadAttendanceRecords st)) = pending st)
    /\ (useLocalStorage (fst (clearAllAttendance st)) = true
        /\ pending (fst (clearAllAttendance st)) = pending st)
    /\ (forall date time full,
          useLocalStorage (fst (exportToCSV date time full st)) = true
          /\ pending (fst (exportToCSV date time full st)) = pending st)
    /\ (forall date time full shouldDownload,
          useLocalStorage (fst (stopScanner date time full shouldDownload st)) = true
          /\ pending (fst (stopScanner date time full shouldDownload st)) = pending st)
    /\ (forall date time full t a thrown,
          (t = TestAPI_fetched -> a = Rejected) ->
          useLocalStorage (fst (resume date time full t a thrown st)) = true)
    /\ (forall date time full records thrown,
          useLocalStorage
            (fst (resume date time full TestAPI_fetched (Fulfilled records) thrown st))
          = false).
Proof.
  intros st Hm.
  assert (Hproc : forall env qrData st0,
             useLocalStorage st0 = true ->
             useLocalStorage (fst (processQRData env qrData st0)) = true
             /\ pending (fst (processQRData env qrData st0)) = pending st0).
  { intros env qrData st0 Hm0. destruct (parse_ok qrData) eqn:Hp.
    - destruct (setItem_throws env) as [message |] eqn:Hw.
      + rewrite (processQRData_thrown env qrData st0 message) by assumption. auto.
      + destruct (processQRData_saved env qrData st0 Hp Hm0 Hw) as (i & _ & ->). auto.
    - rewrite (processQRData_failed env qrData st0 Hp). auto. }
  assert (Hclear : forall st0,
             useLocalStorage st0 = true ->
             useLocalStorage (fst (clearAllAttendance st0)) = true
             /\ pending (fst (clearAllAttendance st0)) = pending st0).
  { intros st0 Hm0. rewrite clearAll_offline by exact Hm0. auto. }
  assert (Hexp : forall date time full thenClear st0,
             useLocalStorage st0 = true ->
             useLocalStorage (fst (exportToCSV_called date time full thenClear st0)) = true
             /\ pending (fst (exportToCSV_called date time full thenClear st0))
                = pending st0).
  { intros date time full thenClear st0 Hm0. unfold exportToCSV_called, export_then.
    rewrite Hm0. destruct thenClear; [| auto].
    pose proof (Hclear st0 Hm0) as H. destruct (clearAllAttendance st0). exact H. }
  split.
  { intros now env qrData. destruct (decide_in st qrData now) eqn:Hd;
      try (rewrite handle_not_accept by congruence; auto).
    rewrite (handle_accept now env qrData st Hd). cbn [fst].
    apply (Hproc env qrData (mark_scanned qrData now st) Hm). }
  split; [intros env; apply Hproc; exact Hm |].
  split.
  { intros confirmed recordId thrown. destruct confirmed; [| auto].
    destruct thrown as [message |].
    - rewrite delete_thrown by exact Hm. auto.
    - rewrite delete_offline by exact Hm. auto. }
  split; [rewrite load_offline by exact Hm; auto |].
  split; [apply Hclear; exact Hm |].
  split; [intros; apply Hexp; exact Hm |].
  split.
  { intros date time full shouldDownload. unfold stopScanner.
    destruct (0 <? size _)%nat; [| auto]. destruct shouldDownload; [| auto].
    apply (Hexp date time full true (set_scanning false st) Hm). }
  split; [| reflexivity].
  intros date time full t a thrown Ht.
  destruct t as [record | | recordId | | recordId rest | thenClear |]; cbn [resume].
  - unfold saveAttendance_answered, save_local, loadAttendanceRecords.
    destruct a; [destruct thrown |]; simpl; rewrite ?Hm; simpl; rewrite ?Hm; reflexivity.
  - destruct a; simpl; [reflexivity | exact Hm].
  - unfold deleteRecord_answered, delete_local, loadAttendanceRecords.
    destruct a; [destruct thrown |]; simpl; rewrite ?Hm; simpl; rewrite ?Hm; reflexivity.
  - unfold clearAllAttendance_answered, clear_stored, clear_finish, loadAttendanceRecords.
    destruct a; simpl; rewrite ?Hm; simpl; rewrite ?Hm; reflexivity.
  - unfold clear_loop, clear_finish, loadAttendanceRecords.
    destruct rest; simpl; rewrite ?Hm; simpl; rewrite ?Hm; reflexivity.
  - unfold exportToCSV_answered, export_then.
    assert (H1 : useLocalStorage
                   match a with
                   | Rejected => set_useLocalStorage true st
                   | Fulfilled _ => st
                   end = true) by (destruct a; [reflexivity | exact Hm]).
    destruct thenClear; [| exact H1].
    pose proof (Hclear _ H1) as (H & _). destruct (clearAllAttendance _). exact H.
  - rewrite (Ht eq_refl). reflexivity.
Qed.

Lemma offline_is_stable_witness :
  useLocalStorage (fst (handleQRDetected 10000 env1 P_doe offline_start)) = true
  /\ pending (fst (handleQRDetected 10000 env1 P_doe offline_start)) = [].
Proof.
  pose proof (offline_is_stable offline_start eq_refl) as (H & _).
  apply (H 10000%Z env1 P_doe).
Defined.

Lemma clear_loop_run (date time full : Z -> jsstring) (rest : list AttendanceRecord) :
  forall (recordId : jsstring) (answers : list answer) (st : Scanner),
    useLocalStorage st = false ->
    pending st = [ClearAllAttendance_deleting recordId rest] ->
    length answers = S (length rest) ->
    scannedQRCodes (answer_in_turn date time full answers st) = ∅
    /\ pending (answer_in_turn date time full answers st) = [LoadAttendanceRecords_fetched]
    /\ storage (answer_in_turn date time full answers st) = storage st
    /\ useLocalStorage (answer_in_turn date time full answers st) = false.
Proof.
  induction rest as [|record rest IH]; intros recordId answers st Hm Hq Hlen.
  - destruct answers as [|a [|b answers]]; try discriminate.
    simpl. unfold settle. rewrite Hq. simpl.
    unfold clear_finish, loadAttendanceRecords. simpl. rewrite Hm. simpl. auto.
  - destruct answers as [|a answers]; [discriminate |]. injection Hlen as Hlen.
    cbn [answer_in_turn].
    assert (Hs : fst (settle date time full 0 a None st)
                 = set_pending [ClearAllAttendance_deleting (rec_id record) rest] st).
    { unfold settle. rewrite Hq. reflexivity. }
    rewrite Hs.
    destruct (IH (rec_id record) answers
                (set_pending [ClearAllAttendance_deleting (rec_id record) rest] st)
                Hm eq_refl Hlen) as (H1 & H2 & H3 & H4).
    auto.
Qed.

(** X23: clearing all records on the remote table, with no other request
    in flight.  The method asks for the list of records; when the list is
    rejected it switches to [localStorage] and empties store and set there.
    When the list is fulfilled, it sends the DELETE of the first record and
    waits; whatever the answers are, it sends the DELETE of each further
    record after the answer to the one before.  The blocked set is emptied
    only after the last answer, and the records are then requested again;
    the local store is not touched. *)
Theorem online_clear_all :
  forall (date time full : Z -> jsstring) (records : list AttendanceRecord)
         (answers : list answer) (st : Scanner),
    useLocalStorage st = false ->
    pending st = [] ->
    length answers = length records ->
    let st1 := fst (clearAllAttendance st) in
    let st2 := fst (settle date time full 0 (Fulfilled records) None st1) in
    let st3 := answer_in_turn date time full answers st2 in
    pending st1 = [ClearAllAttendance_fetched]
    /\ scannedQRCodes st1 = scannedQRCodes st
    /\ (forall record rest,
          records = record :: rest ->
          pending st2 = [ClearAllAttendance_deleting (rec_id record) rest]
          /\ scannedQRCodes st2 = scannedQRCodes st
          /\ forall a, match rest with
                       | [] => pending (fst (settle date time full 0 a None st2))
                               = [LoadAttendanceRecords_fetched]
                       | next :: rest' =>
                           fst (settle date time full 0 a None st2)
                           = set_pending [ClearAllAttendance_deleting (rec_id next) rest'] st2
                       end)
    /\ scannedQRCodes st3 = ∅
    /\ pending st3 = [LoadAttendanceRecords_fetched]
    /\ storage st3 = storage st
    /\ useLocalStorage st3 = false
    /\ (let st2' := fst (settle date time full 0 Rejected None st1) in
        useLocalStorage st2' = true /\ storage st2' = [] /\ scannedQRCodes st2' = ∅
        /\ pending st2' = []).
Proof.
  intros date time full records answers st Hm Hq Hlen st1 st2 st3.
  assert (H1 : st1 = set_pending [ClearAllAttendance_fetched] st).
  { unfold st1, clearAllAttendance, await. rewrite Hm, Hq. reflexivity. }
  assert (H2 : st2 = fst (clear_loop records (set_pending [] st))).
  { unfold st2, settle. rewrite H1. simpl.
    unfold clearAllAttendance_answered, clear_stored. simpl. rewrite Hm. reflexivity. }
  assert (Hfin : forall st0, useLocalStorage st0 = false ->
             fst (clear_finish st0)
             = set_pending (pending st0 ++ [LoadAttendanceRecords_fetched])
                 (set_codes ∅ st0)).
  { intros st0 Hm0. unfold clear_finish, loadAttendanceRecords. simpl. rewrite Hm0.
    reflexivity. }
  assert (H3 : scannedQRCodes st3 = ∅
               /\ pending st3 = [LoadAttendanceRecords_fetched]
               /\ storage st3 = storage st /\ useLocalStorage st3 = false).
  { unfold st3. rewrite H2. destruct records as [|record rest].
    - destruct answers; [| discriminate]. simpl. rewrite Hfin by exact Hm. simpl. auto.
    - simpl.
      apply (clear_loop_run date time full rest (rec_id record) answers
               (set_pending [ClearAllAttendance_deleting (rec_id record) rest]
                  (set_pending [] st))); auto. }
  split; [rewrite H1; reflexivity |]. split; [rewrite H1; reflexivity |].
  split; [| split; [| split; [| split; [| split]]]]; try apply H3.
  - intros record rest ->. rewrite H2. simpl. split; [reflexivity |].
    split; [reflexivity |]. intros a. unfold settle. simpl.
    destruct rest as [|next rest']; simpl.
    + rewrite Hfin by exact Hm. reflexivity.
    + reflexivity.
  - rewrite H1. unfold settle. simpl.
    unfold clearAllAttendance_answered, clear_stored, clear_finish, loadAttendanceRecords.
    simpl. auto.
Qed.

Lemma online_clear_all_witness :
  scannedQRCodes
    (answer_in_turn locale_date locale_time locale_full [Rejected; Fulfilled []]
       (fst (settle locale_date locale_time locale_full 0
               (Fulfilled [record_doe; record_roe]) None
               (fst (clearAllAttendance (set_pending [] constructor))))))
  = ∅.
Proof.
  apply (online_clear_all locale_date locale_time locale_full [record_doe; record_roe]
           [Rejected; Fulfilled []] (set_pending [] constructor));
    reflexivity.
Defined.
